(** * The gear cutter kernel: float binary search, biarc selection, rack,
    affine pen, cutter and lower-envelope normalizer *)

From Stdlib Require Import Floats Uint63 ZArith QArith Qreals Reals Lra Lia List Bool Permutation.
From Stdlib Require String.
Import ListNotations.
Set Warnings "-inexact-float".

(** * Numbers

    The program computes on JavaScript numbers, that is on binary64 doubles
    ([float]). The functions whose claims rest on identities of arithmetic are
    written once over the interface [Number] and read at two instances: the
    doubles the program runs on, and the real numbers, where every operation
    is exact. *)
Module Numeric.

Class Number (num : Type) : Type := mkNumber {
  lit : Q -> num;                 (* a decimal literal *)
  add : num -> num -> num;
  sub : num -> num -> num;
  mul : num -> num -> num;
  div : num -> num -> num;
  neg : num -> num;
  ltb : num -> num -> bool;
  leb : num -> num -> bool;
  eqb : num -> num -> bool;
  Math_floor : num -> num;
  Math_sign : num -> num;
  isEven : num -> bool;           (* [(n & 1) == 0] *)
  Math_sqrt : num -> num;
  Math_PI : num
}.

Arguments lit {num _} _%_Q.

Declare Scope num_scope.
Delimit Scope num_scope with num.
Notation "x + y" := (add x y) : num_scope.
Notation "x - y" := (sub x y) : num_scope.
Notation "x * y" := (mul x y) : num_scope.
Notation "x / y" := (div x y) : num_scope.
Notation "- x" := (neg x) : num_scope.
Notation "x <? y" := (ltb x y) (at level 70, no associativity) : num_scope.
Notation "x <=? y" := (leb x y) (at level 70, no associativity) : num_scope.
Notation "x =? y" := (eqb x y) (at level 70, no associativity) : num_scope.
Notation "x >? y" := (ltb y x) (at level 70, no associativity) : num_scope.
Notation "x >=? y" := (leb y x) (at level 70, no associativity) : num_scope.

(** ** Doubles *)

Definition float_of_Z (z : Z) : float :=
  match z with
  | Z0 => 0%float
  | Zpos p => of_uint63 (Uint63.of_Z (Zpos p))
  | Zneg p => PrimFloat.opp (of_uint63 (Uint63.of_Z (Zpos p)))
  end.

(** A decimal literal with few digits is the correctly rounded quotient of
    its digits by a power of ten, both exact doubles. *)
Definition float_lit (q : Q) : float :=
  PrimFloat.div (float_of_Z (Qnum q)) (float_of_Z (Zpos (Qden q))).

(** [Math.floor]: below 2^52 in magnitude, adding and removing 2^52 rounds to
    an integer, which is lowered by one when it is above the argument; every
    larger double is an integer already. *)
Definition float_floor (x : float) : float :=
  if PrimFloat.ltb (abs x) 0x1p52%float then
    if PrimFloat.eqb x 0%float then x
    else
      let r := if PrimFloat.ltb x 0%float
               then PrimFloat.add (PrimFloat.sub x 0x1p52%float) 0x1p52%float
               else PrimFloat.sub (PrimFloat.add x 0x1p52%float) 0x1p52%float in
      if PrimFloat.ltb x r then PrimFloat.sub r 1%float else r
  else x.

(** [Math.sign]: -1, 1, or the argument itself when it is a zero or NaN. *)
Definition float_sign (x : float) : float :=
  if PrimFloat.ltb x 0%float then (-1)%float
  else if PrimFloat.ltb 0%float x then 1%float else x.

(** [(n & 1) == 0]: the conversion to a 32-bit integer takes NaN and the
    infinities to 0, and truncates every other double to an integer whose
    parity it keeps. *)
Definition float_isEven (n : float) : bool :=
  is_nan n || is_infinity n
  || (let t := if PrimFloat.ltb n 0%float
               then PrimFloat.opp (float_floor (PrimFloat.opp n)) else float_floor n in
      PrimFloat.eqb (PrimFloat.sub t (PrimFloat.mul 2%float
                                        (float_floor (PrimFloat.div t 2%float)))) 0%float).

#[export] Instance Number_float : Number float := {|
  lit := float_lit;
  add := PrimFloat.add;
  sub := PrimFloat.sub;
  mul := PrimFloat.mul;
  div := PrimFloat.div;
  neg := PrimFloat.opp;
  ltb := PrimFloat.ltb;
  leb := PrimFloat.leb;
  eqb := PrimFloat.eqb;
  Math_floor := float_floor;
  Math_sign := float_sign;
  isEven := float_isEven;
  Math_sqrt := PrimFloat.sqrt;
  Math_PI := 0x1.921fb54442d18p+1%float
|}.

(** ** Real numbers *)

Definition Rltb (x y : R) : bool := if Rlt_dec x y then true else false.
Definition Rleb (x y : R) : bool := if Rle_dec x y then true else false.
Definition Reqb (x y : R) : bool := if Req_dec_T x y then true else false.

Definition Rsign (x : R) : R :=
  if Rlt_dec x 0 then (-1)%R else if Rlt_dec 0 x then 1%R else x.

(** Truncation toward zero. *)
Definition Rtrunc (x : R) : Z :=
  if Rlt_dec x 0 then (- Int_part (- x))%Z else Int_part x.

#[export] Instance Number_R : Number R := {|
  lit := Q2R;
  add := Rplus;
  sub := Rminus;
  mul := Rmult;
  div := Rdiv;
  neg := Ropp;
  ltb := Rltb;
  leb := Rleb;
  eqb := Reqb;
  Math_floor := fun x => IZR (Int_part x);
  Math_sign := Rsign;
  isEven := fun x => Z.even (Rtrunc x);
  Math_sqrt := sqrt;
  Math_PI := PI
|}.

End Numeric.

Module F64.
Local Open Scope Z_scope.

Definition SFnan (f : spec_float) : bool :=
  match f with S754_nan => true | _ => false end.

Definition SFord (f : spec_float) : Z :=
  match f with
  | S754_zero _ => 0
  | S754_nan => 0
  | S754_infinity s => if s then - 2 ^ 65 else 2 ^ 65
  | S754_finite s m e =>
      let v := (e + 1075) * 2 ^ 53 + Zpos m in
      if s then - v else v
  end.

Definition isNaN (x : float) : bool := SFnan (Prim2SF x).
Definition ord (x : float) : Z := SFord (Prim2SF x).

Lemma digits2_pos_bound (m : positive) : Zpos m < 2 ^ Zpos (digits2_pos m).
Proof.
  induction m as [m IH | m IH |]; cbn [digits2_pos].
  - rewrite Pos2Z.inj_succ, Z.pow_succ_r by lia. lia.
  - rewrite Pos2Z.inj_succ, Z.pow_succ_r by lia. lia.
  - reflexivity.
Qed.

Lemma bounded_range (m : positive) (e : Z) :
  SpecFloat.bounded prec emax m e = true ->
  Zpos m < 2 ^ 53 /\ -1074 <= e <= 971.
Proof.
  unfold SpecFloat.bounded, canonical_mantissa, fexp, SpecFloat.emin, prec, emax.
  intros H. apply andb_true_iff in H as [Hc He].
  apply Z.eqb_eq in Hc. apply Z.leb_le in He.
  pose proof (digits2_pos_bound m) as Hd.
  assert (Zpos (digits2_pos m) <= 53) by lia.
  split; [| lia].
  eapply Z.lt_le_trans; [exact Hd |].
  apply Z.pow_le_mono_r; lia.
Qed.

Lemma SFord_finite_bound (s : bool) m e :
  SpecFloat.bounded prec emax m e = true ->
  0 < (e + 1075) * 2 ^ 53 + Zpos m < 2 ^ 65.
Proof.
  intros H. apply bounded_range in H as [Hm He].
  change (2 ^ 65) with (4096 * 2 ^ 53). 
  assert (0 < 2 ^ 53) by reflexivity.
  nia.
Qed.

Lemma SFcompare_ord (a b : spec_float) :
  valid_binary a = true -> valid_binary b = true ->
  SFcompare a b =
    if SFnan a || SFnan b then None else Some (SFord a ?= SFord b).
Proof.
  destruct a as [sa | sa | | sa ma ea], b as [sb | sb | | sb mb eb];
    cbn [valid_binary SpecFloat.valid_binary SFnan orb SFcompare SFord]; intros Ha Hb;
    try reflexivity.
  all: try (destruct sa; reflexivity).
  all: try (destruct sb; reflexivity).
  all: try (destruct sa, sb; reflexivity).
  all: try (pose proof (SFord_finite_bound sa ma ea Ha)).
  all: try (pose proof (SFord_finite_bound sb mb eb Hb)).
  all: try (destruct sa; f_equal; symmetry; 
            first [apply Z.compare_lt_iff | apply Z.compare_gt_iff]; lia).
  all: try (destruct sb; f_equal; symmetry; 
            first [apply Z.compare_lt_iff | apply Z.compare_gt_iff]; lia).
  all: try (destruct sa, sb; f_equal; symmetry; 
            first [apply Z.compare_lt_iff | apply Z.compare_gt_iff]; lia).
  apply bounded_range in Ha as [Hma Hea], Hb as [Hmb Heb].
  assert (H53 : 0 < 2 ^ 53) by reflexivity.
  f_equal.
  rewrite Pos.compare_cont_spec; cbn [Pos.switch_Eq].
  change (Pos.compare ma mb) with (Z.compare (Zpos ma) (Zpos mb)).
  destruct sa, sb.
  - destruct (Z.compare_spec ea eb) as [-> | Hlt | Hgt].
    + destruct (Z.compare_spec (Zpos ma) (Zpos mb)) as [E | L | G]; cbn [CompOpp]; symmetry.
      * apply Z.compare_eq_iff. lia.
      * apply Z.compare_gt_iff. lia.
      * apply Z.compare_lt_iff. lia.
    + symmetry. apply Z.compare_gt_iff. nia.
    + symmetry. apply Z.compare_lt_iff. nia.
  - symmetry. apply Z.compare_lt_iff. nia.
  - symmetry. apply Z.compare_gt_iff. nia.
  - destruct (Z.compare_spec ea eb) as [-> | Hlt | Hgt].
    + destruct (Z.compare_spec (Zpos ma) (Zpos mb)) as [E | L | G]; symmetry.
      * apply Z.compare_eq_iff. lia.
      * apply Z.compare_lt_iff. lia.
      * apply Z.compare_gt_iff. lia.
    + symmetry. apply Z.compare_lt_iff. nia.
    + symmetry. apply Z.compare_gt_iff. nia.
Qed.

Lemma SFord_range (a : spec_float) :
  valid_binary a = true -> - 2 ^ 65 <= SFord a <= 2 ^ 65.
Proof.
  destruct a as [s | s | | s m e]; cbn [SFord valid_binary SpecFloat.valid_binary]; intros H.
  - lia.
  - destruct s; lia.
  - lia.
  - pose proof (SFord_finite_bound s m e H). destruct s; lia.
Qed.

Lemma SFord_infinity (a : spec_float) :
  valid_binary a = true ->
  - 2 ^ 65 < SFord a < 2 ^ 65 ->
  match a with S754_infinity _ => False | _ => True end.
Proof.
  destruct a as [s | s | | s m e]; cbn [SFord]; intros _ H; try exact I.
  destruct s; lia.
Qed.

(** Rounding never produces NaN from a non-negative integer significand. *)
Lemma shr_1_nonneg (mrs : shr_record) : 0 <= shr_m mrs -> 0 <= shr_m (shr_1 mrs).
Proof.
  destruct mrs as [m r s]; cbn [shr_m shr_1].
  destruct m as [| [p | p |] | p]; cbn [shr_m]; lia.
Qed.

Lemma iter_pos_shr_1_nonneg (p : positive) :
  forall mrs, 0 <= shr_m mrs -> 0 <= shr_m (SpecFloat.iter_pos shr_1 p mrs).
Proof.
  induction p as [p IH | p IH |]; intros mrs H; cbn [SpecFloat.iter_pos].
  - apply IH, IH, shr_1_nonneg, H.
  - apply IH, IH, H.
  - apply shr_1_nonneg, H.
Qed.

Lemma shr_record_of_loc_m (m : Z) (l : location) : shr_m (shr_record_of_loc m l) = m.
Proof. destruct l as [| []]; reflexivity. Qed.

Lemma shr_fexp_nonneg (m e : Z) (l : location) :
  0 <= m -> 0 <= shr_m (fst (shr_fexp prec emax m e l)).
Proof.
  intros H. unfold shr_fexp, shr.
  destruct (fexp prec emax (Zdigits2 m + e) - e) as [| p | p]; cbn [fst].
  - now rewrite shr_record_of_loc_m.
  - apply iter_pos_shr_1_nonneg. now rewrite shr_record_of_loc_m.
  - now rewrite shr_record_of_loc_m.
Qed.

Lemma round_nearest_even_nonneg (m : Z) (l : location) :
  0 <= m -> 0 <= round_nearest_even m l.
Proof.
  intros H. unfold round_nearest_even.
  destruct l as [| []]; try lia. destruct (Z.even m); lia.
Qed.

Lemma binary_round_aux_not_nan (sx : bool) (mx ex : Z) (lx : location) :
  0 <= mx -> SFnan (binary_round_aux prec emax sx mx ex lx) = false.
Proof.
  intros H. unfold binary_round_aux.
  pose proof (shr_fexp_nonneg mx ex lx H) as H1.
  destruct (shr_fexp prec emax mx ex lx) as [mrs' e'] eqn:E1. cbn [fst] in H1.
  pose proof (shr_fexp_nonneg (round_nearest_even (shr_m mrs') (loc_of_shr_record mrs')) e'
                loc_Exact (round_nearest_even_nonneg _ _ H1)) as H2.
  destruct (shr_fexp prec emax _ e' loc_Exact) as [mrs'' e''] eqn:E2. cbn [fst] in H2.
  destruct (shr_m mrs'') as [| p | p]; try lia; try reflexivity.
  destruct (e'' <=? emax - prec); reflexivity.
Qed.

Lemma binary_normalize_not_nan (m e : Z) (s : bool) :
  SFnan (binary_normalize prec emax m e s) = false.
Proof.
  unfold binary_normalize, binary_round.
  destruct m as [| p | p]; try reflexivity.
  - destruct (shl_align p e _) as [mz ez]. apply binary_round_aux_not_nan. lia.
  - destruct (shl_align p e _) as [mz ez]. apply binary_round_aux_not_nan. lia.
Qed.

Definition SFinf (f : spec_float) : bool :=
  match f with S754_infinity _ => true | _ => false end.

Lemma SFadd_not_nan (a b : spec_float) :
  SFnan a = false -> SFnan b = false -> SFinf a = false ->
  SFnan (SF64add a b) = false.
Proof.
  unfold SF64add.
  destruct a as [sa | sa | | sa ma ea], b as [sb | sb | | sb mb eb];
    cbn [SFnan SFinf SFadd]; intros Ha Hb Hi; try discriminate; try reflexivity.
  - destruct sa, sb; reflexivity.
  - apply binary_normalize_not_nan.
Qed.

Lemma SFsub_not_nan (a b : spec_float) :
  SFnan a = false -> SFnan b = false -> SFinf b = false ->
  SFnan (SF64sub a b) = false.
Proof.
  unfold SF64sub.
  destruct a as [sa | sa | | sa ma ea], b as [sb | sb | | sb mb eb];
    cbn [SFnan SFinf SFsub]; intros Ha Hb Hi; try discriminate; try reflexivity.
  - destruct sa, sb; reflexivity.
  - apply binary_normalize_not_nan.
Qed.

Lemma SFmul_finite_not_nan (a : spec_float) (s : bool) (m : positive) (e : Z) :
  SFnan a = false -> SFnan (SF64mul a (S754_finite s m e)) = false.
Proof.
  unfold SF64mul.
  destruct a as [sa | sa | | sa ma ea]; cbn [SFnan SFmul]; intros Ha;
    try discriminate; try reflexivity.
  apply binary_round_aux_not_nan. lia.
Qed.

Local Open Scope float_scope.

Lemma ltb_ord (x y : float) :
  (x <? y) = negb (isNaN x || isNaN y) && (ord x <? ord y)%Z.
Proof.
  rewrite FloatAxioms.ltb_spec. unfold SFltb, isNaN, ord.
  rewrite SFcompare_ord by apply Prim2SF_valid.
  destruct (SFnan (Prim2SF x) || SFnan (Prim2SF y)); cbn [negb andb]; [reflexivity |].
  unfold Z.ltb. destruct (SFord (Prim2SF x) ?= SFord (Prim2SF y))%Z; reflexivity.
Qed.

Lemma leb_ord (x y : float) :
  (x <=? y) = negb (isNaN x || isNaN y) && (ord x <=? ord y)%Z.
Proof.
  rewrite FloatAxioms.leb_spec. unfold SFleb, isNaN, ord.
  rewrite SFcompare_ord by apply Prim2SF_valid.
  destruct (SFnan (Prim2SF x) || SFnan (Prim2SF y)); cbn [negb andb]; [reflexivity |].
  unfold Z.leb. destruct (SFord (Prim2SF x) ?= SFord (Prim2SF y))%Z; reflexivity.
Qed.

Lemma eqb_ord (x y : float) :
  (x =? y) = negb (isNaN x || isNaN y) && (ord x =? ord y)%Z.
Proof.
  rewrite FloatAxioms.eqb_spec. unfold SFeqb, isNaN, ord.
  rewrite SFcompare_ord by apply Prim2SF_valid.
  destruct (SFnan (Prim2SF x) || SFnan (Prim2SF y)); cbn [negb andb]; [reflexivity |].
  rewrite Z.eqb_compare.
  destruct (SFord (Prim2SF x) ?= SFord (Prim2SF y))%Z; reflexivity.
Qed.

Lemma isNaN_opp (x : float) : isNaN (- x) = isNaN x.
Proof. unfold isNaN. rewrite FloatAxioms.opp_spec. destruct (Prim2SF x); reflexivity. Qed.

Lemma ord_opp (x : float) : ord (- x) = (- ord x)%Z.
Proof.
  unfold ord. rewrite FloatAxioms.opp_spec.
  destruct (Prim2SF x) as [s | s | | s m e]; cbn [SFopp SFord]; try reflexivity.
  - destruct s; cbn [negb]; lia.
  - destruct s; cbn [negb]; lia.
Qed.

Lemma isNaN_abs (x : float) : isNaN (abs x) = isNaN x.
Proof. unfold isNaN. rewrite FloatAxioms.abs_spec. destruct (Prim2SF x); reflexivity. Qed.

Lemma ord_abs (x : float) : ord (abs x) = Z.abs (ord x).
Proof.
  unfold ord. rewrite FloatAxioms.abs_spec.
  pose proof (Prim2SF_valid x) as V.
  destruct (Prim2SF x) as [s | s | | s m e]; cbn [SFabs SFord]; try reflexivity.
  - destruct s; reflexivity.
  - cbn [valid_binary SpecFloat.valid_binary] in V.
    pose proof (SFord_finite_bound s m e V). destruct s; lia.
Qed.

Lemma ord_range (x : float) : (- 2 ^ 65 <= ord x <= 2 ^ 65)%Z.
Proof. apply SFord_range, Prim2SF_valid. Qed.

Lemma isNaN_ord (x : float) : isNaN x = true -> ord x = 0%Z.
Proof. unfold isNaN, ord. destruct (Prim2SF x); cbn; congruence. Qed.

Lemma ord_not_infinite (x : float) :
  (- 2 ^ 65 < ord x < 2 ^ 65)%Z -> SFinf (Prim2SF x) = false.
Proof.
  intros H. pose proof (SFord_infinity _ (Prim2SF_valid x) H) as H'.
  unfold ord in H. destruct (Prim2SF x); cbn [SFinf]; try reflexivity. contradiction.
Qed.

Lemma add_not_nan (x y : float) :
  isNaN x = false -> isNaN y = false -> (- 2 ^ 65 < ord x < 2 ^ 65)%Z ->
  isNaN (x + y) = false.
Proof.
  intros Hx Hy Hf. unfold isNaN. rewrite FloatAxioms.add_spec.
  apply SFadd_not_nan; auto using ord_not_infinite.
Qed.

Lemma sub_not_nan (x y : float) :
  isNaN x = false -> isNaN y = false -> (- 2 ^ 65 < ord y < 2 ^ 65)%Z ->
  isNaN (x - y) = false.
Proof.
  intros Hx Hy Hf. unfold isNaN. rewrite FloatAxioms.sub_spec.
  apply SFsub_not_nan; auto using ord_not_infinite.
Qed.

Lemma mul_half_not_nan (x : float) : isNaN x = false -> isNaN (x * 0.5) = false.
Proof.
  intros Hx. unfold isNaN. rewrite FloatAxioms.mul_spec.
  change (Prim2SF 0.5) with (S754_finite false 4503599627370496 (-53)).
  now apply SFmul_finite_not_nan.
Qed.

(** ** Order reasoning on doubles, through [ord] *)
Lemma isNaN_zero : isNaN 0 = false.
Proof. reflexivity. Qed.

Lemma ord_zero : ord 0 = 0%Z.
Proof. reflexivity. Qed.

Lemma isNaN_neg_infinity : isNaN neg_infinity = false.
Proof. reflexivity. Qed.

Lemma ord_neg_infinity : ord neg_infinity = (- 2 ^ 65)%Z.
Proof. reflexivity. Qed.

Create Rewrite HintDb fconst.
#[export] Hint Rewrite isNaN_zero ord_zero isNaN_neg_infinity ord_neg_infinity : fconst.

Ltac fcmp :=
  rewrite ?ltb_ord, ?leb_ord, ?eqb_ord, ?isNaN_opp, ?ord_opp in *;
  autorewrite with fconst in *;
  repeat match goal with
    | |- context [isNaN ?x] =>
        let b := fresh "nan" in set (b := isNaN x) in *; clearbody b; destruct b
    | H : context [isNaN ?x] |- _ =>
        let b := fresh "nan" in set (b := isNaN x) in *; clearbody b; destruct b
    end;
  cbn [negb orb andb] in *;
  repeat match goal with
    | |- context [Z.ltb ?a ?b] => destruct (Z.ltb_spec a b)
    | H : context [Z.ltb ?a ?b] |- _ => destruct (Z.ltb_spec a b)
    | |- context [Z.leb ?a ?b] => destruct (Z.leb_spec a b)
    | H : context [Z.leb ?a ?b] |- _ => destruct (Z.leb_spec a b)
    | |- context [Z.eqb ?a ?b] => destruct (Z.eqb_spec a b)
    | H : context [Z.eqb ?a ?b] |- _ => destruct (Z.eqb_spec a b)
    end;
  cbn [negb orb andb] in *;
  try discriminate; try reflexivity; try lia.

Lemma opp_involutive (x : float) : - - x = x.
Proof.
  apply Prim2SF_inj. rewrite !FloatAxioms.opp_spec.
  destruct (Prim2SF x) as [s | s | | s m e]; cbn [SFopp]; rewrite ?negb_involutive; reflexivity.
Qed.


(** ** [Math.max], [Math.min], [Math.abs], [Math.sqrt] on doubles

    [Math.max] and [Math.min] return NaN if either argument is NaN and order
    [-0] below [+0]. *)
Definition Math_max (a b : float) : float :=
  if is_nan a || is_nan b then nan
  else if a <? b then b else if b <? a then a else if get_sign a then b else a.

Definition Math_min (a b : float) : float :=
  if is_nan a || is_nan b then nan
  else if a <? b then a else if b <? a then b else if get_sign a then a else b.

Definition Math_abs : float -> float := PrimFloat.abs.
Definition Math_sqrt : float -> float := PrimFloat.sqrt.

Lemma is_nan_isNaN (x : float) : is_nan x = isNaN x.
Proof.
  unfold is_nan. rewrite eqb_ord. destruct (isNaN x); cbn; [reflexivity |].
  now rewrite Z.eqb_refl.
Qed.

Lemma Math_max_spec (a b : float) :
  isNaN (Math_max a b) = false ->
  isNaN a = false /\ isNaN b = false
  /\ (ord a <= ord (Math_max a b))%Z /\ (ord b <= ord (Math_max a b))%Z.
Proof.
  unfold Math_max. rewrite !is_nan_isNaN.
  destruct (isNaN a) eqn:Na, (isNaN b) eqn:Nb; cbn [orb]; try discriminate.
  intros _. split; [reflexivity | split; [reflexivity |]].
  destruct (a <? b) eqn:E1; [| destruct (b <? a) eqn:E2; [| destruct (get_sign a)]];
    rewrite ?ltb_ord, ?Na, ?Nb in *; cbn [negb orb andb] in *;
    repeat match goal with
      | H : (_ <? _)%Z = _ |- _ => first [apply Z.ltb_lt in H | apply Z.ltb_ge in H]
      end; lia.
Qed.

Lemma Math_max_ord (a b : float) :
  isNaN a = false -> isNaN b = false ->
  isNaN (Math_max a b) = false /\ ord (Math_max a b) = Z.max (ord a) (ord b).
Proof.
  intros Na Nb. unfold Math_max. rewrite !is_nan_isNaN, Na, Nb. cbn [orb].
  pose proof (ltb_ord a b) as E1. pose proof (ltb_ord b a) as E2.
  rewrite Na, Nb in E1, E2. cbn [negb orb andb] in E1, E2.
  destruct (a <? b); [| destruct (b <? a); [| destruct (get_sign a)]];
    symmetry in E1, E2;
    repeat match goal with
      | H : (_ <? _)%Z = _ |- _ => first [apply Z.ltb_lt in H | apply Z.ltb_ge in H]
      end; (split; [assumption | lia]).
Qed.

Lemma Math_min_ord (a b : float) :
  isNaN a = false -> isNaN b = false ->
  isNaN (Math_min a b) = false /\ ord (Math_min a b) = Z.min (ord a) (ord b).
Proof.
  intros Na Nb. unfold Math_min. rewrite !is_nan_isNaN, Na, Nb. cbn [orb].
  pose proof (ltb_ord a b) as E1. pose proof (ltb_ord b a) as E2.
  rewrite Na, Nb in E1, E2. cbn [negb orb andb] in E1, E2.
  destruct (a <? b); [| destruct (b <? a); [| destruct (get_sign a)]];
    symmetry in E1, E2;
    repeat match goal with
      | H : (_ <? _)%Z = _ |- _ => first [apply Z.ltb_lt in H | apply Z.ltb_ge in H]
      end; (split; [assumption | lia]).
Qed.

Lemma Math_max_nan (a b : float) :
  isNaN (Math_max a b) = isNaN a || isNaN b.
Proof.
  destruct (isNaN a) eqn:Na; [| destruct (isNaN b) eqn:Nb].
  - unfold Math_max. rewrite is_nan_isNaN, Na. reflexivity.
  - unfold Math_max. rewrite !is_nan_isNaN, Na, Nb. reflexivity.
  - now destruct (Math_max_ord a b Na Nb).
Qed.

Lemma Math_min_nan (a b : float) :
  isNaN (Math_min a b) = isNaN a || isNaN b.
Proof.
  destruct (isNaN a) eqn:Na; [| destruct (isNaN b) eqn:Nb].
  - unfold Math_min. rewrite is_nan_isNaN, Na. reflexivity.
  - unfold Math_min. rewrite !is_nan_isNaN, Na, Nb. reflexivity.
  - now destruct (Math_min_ord a b Na Nb).
Qed.

Lemma isNaN_one : isNaN 1 = false.
Proof. reflexivity. Qed.

Lemma ord_one_pos : (0 < ord 1)%Z.
Proof. vm_compute. reflexivity. Qed.

End F64.

Module FloatBinarySearch.
Import F64.
Local Open Scope float_scope.

(** Every call of the [isLowerBound] callback is observed: a run carries the
    list of arguments the callback has received so far, and fails ([None])
    only when an iteration budget is exhausted. *)
Definition Run (A : Type) : Type := option (list float * A).

Definition ret {A : Type} (a : A) : Run A := Some ([], a).

Definition bind {A B : Type} (m : Run A) (k : A -> Run B) : Run B :=
  match m with
  | None => None
  | Some (t1, a) =>
      match k a with
      | None => None
      | Some (t2, b) => Some (t1 ++ t2, b)
      end
  end.

Notation "x <- c ;; k" := (bind c (fun x => k))
  (at level 61, c at next level, right associativity).

(** A callback returns its answer together with the arguments at which the
    user's predicate was evaluated to produce it. *)
Definition callback : Type := float -> list float * bool.

Definition call (f : callback) (v : float) : Run bool := Some (f v).

(** The user's predicate, observed. *)
Definition observe (isLowerBound : float -> bool) : callback :=
  fun v => ([v], isLowerBound v).

(** [const isNegLowerBound = (n: number) => !isLowerBound(-n);] *)
Definition isNegLowerBound (isLowerBound : callback) : callback :=
  fun n => let (t, b) := isLowerBound (- n) in (t, negb b).

(** [scaleRange]: the recursion is on [minScale * minScale]; [fuel] bounds its
    depth. *)
Fixpoint scaleRange (fuel : nat) (low high minScale : float)
    (isLowerBound : callback) : Run (float * float) :=
  match fuel with
  | O => None
  | S fuel' =>
      if negb ((0 <? minScale) && (low <? high * minScale)) then ret (low, high)
      else
        range <- scaleRange fuel' low high (minScale * minScale) isLowerBound ;;
        let (low', high') := range in
        let test := high' * minScale in
        if (low' <? test) && (test <? high') then
          b <- call isLowerBound test ;;
          ret (if b then (test, high') else (low', test))
        else ret (low', high')
  end.

(** Squaring 0.25 eleven times underflows to 0, so twelve levels suffice. *)
Definition scaleDepth : nat := 12.

(** [low = -negRange[1]; negRange[1] = -negRange[0]; negRange[0] = low] *)
Definition negateRange (negRange : float * float) : float * float :=
  let (n0, n1) := negRange in (- n1, - n0).

Definition getLinearRange (low high : float) (isLowerBound : callback)
    : Run (float * float) :=
  if low <? 0 then
    if 0 <? high then
      b <- call isLowerBound 0 ;;
      if b then scaleRange scaleDepth 0 high 0.25 isLowerBound
      else
        negRange <- scaleRange scaleDepth 0 (- low) 0.25 (isNegLowerBound isLowerBound) ;;
        ret (negateRange negRange)
    else
      negRange <- scaleRange scaleDepth (- high) (- low) 0.25 (isNegLowerBound isLowerBound) ;;
      ret (negateRange negRange)
  else scaleRange scaleDepth low high 0.25 isLowerBound.

(** One turn of the [for (;;)] loop of [searchForFloat]. *)
Inductive loopState : Type :=
  | Continue (lo hi : float)
  | Break (lo hi : float).

Definition bisectStep (isLowerBound : callback) (lo hi : float) : Run loopState :=
  let testVal := lo + (hi - lo) * 0.5 in
  if (testVal <=? lo) || (hi <=? testVal) then ret (Break lo hi)
  else
    b <- call isLowerBound testVal ;;
    ret (if b then Continue testVal hi else Continue lo testVal).

(** [bisect n] runs at most [2 ^ n] turns of the loop and stops at the first
    [break]. *)
Fixpoint bisect (n : nat) (isLowerBound : callback) (lo hi : float) : Run loopState :=
  match n with
  | O => bisectStep isLowerBound lo hi
  | S n' =>
      s <- bisect n' isLowerBound lo hi ;;
      match s with
      | Break l h => ret (Break l h)
      | Continue l h => bisect n' isLowerBound l h
      end
  end.

(** There are fewer than [2 ^ 66] doubles. *)
Definition bisectDepth : nat := 66.

Definition searchForFloat (lo hi : float) (isLowerBound : float -> bool)
    : Run (float * float) :=
  if negb (lo <? hi) then ret (lo, hi)
  else
    range <- getLinearRange lo hi (observe isLowerBound) ;;
    let (lo', hi') := range in
    s <- bisect bisectDepth (observe isLowerBound) lo' hi' ;;
    match s with
    | Break l h => ret (l, h)
    | Continue _ _ => None
    end.


(** A probe lies strictly inside the searched range. *)
Definition inside (lo hi v : float) : Prop := (lo <? v) = true /\ (v <? hi) = true.

Lemma inside_weaken (lo hi lo' hi' v : float) :
  (lo <=? lo') = true -> (hi' <=? hi) = true -> inside lo' hi' v -> inside lo hi v.
Proof. unfold inside. intros H1 H2 [H3 H4]. split; fcmp. Qed.

(** What one call of [scaleRange] guarantees, whatever the callback answers. *)
Definition rangeSpec (f : callback) (lo hi : float) (tr : list float) (l h : float) : Prop :=
  ((lo <=? l) = true /\ (l <? h) = true /\ (h <=? hi) = true)
  /\ (forall Q : float -> Prop,
        (forall v, inside lo hi v -> Forall Q (fst (f v))) -> Forall Q tr)
  /\ (l = lo \/ snd (f l) = true)
  /\ (h = hi \/ snd (f h) = false).

Lemma scaleRange_spec (f : callback) (fuel : nat) :
  forall (minScale lo hi : float) (tr : list float) (l h : float),
    (lo <? hi) = true ->
    scaleRange fuel lo hi minScale f = Some (tr, (l, h)) ->
    rangeSpec f lo hi tr l h.
Proof.
  induction fuel as [| fuel IH]; intros minScale lo hi tr l h Hlt Hrun; [discriminate |].
  cbn [scaleRange] in Hrun.
  destruct (negb ((0 <? minScale) && (lo <? hi * minScale))).
  - injection Hrun as <- <- <-.
    repeat split; auto; fcmp.
  - unfold bind in Hrun.
    destruct (scaleRange fuel lo hi (minScale * minScale) f) as [[tr0 [l0 h0]] |] eqn:E;
      [| discriminate].
    destruct (IH _ _ _ _ _ _ Hlt E) as ((B1 & B2 & B3) & HQ & Hl & Hh).
    destruct ((l0 <? h0 * minScale) && (h0 * minScale <? h0)) eqn:Et.
    + apply andb_true_iff in Et as [T1 T2].
      unfold call, ret in Hrun. destruct (f (h0 * minScale)) as [t b] eqn:Ef.
      assert (Hin : inside lo hi (h0 * minScale)) by (split; fcmp).
      destruct b; injection Hrun as <- <- <-.
      * repeat split; try (fcmp; fail).
        -- intros Q HQ'. rewrite app_nil_r. apply Forall_app. split; [now apply HQ |].
           specialize (HQ' _ Hin). now rewrite Ef in HQ'.
        -- right. now rewrite Ef.
        -- exact Hh.
      * repeat split; try (fcmp; fail).
        -- intros Q HQ'. rewrite app_nil_r. apply Forall_app. split; [now apply HQ |].
           specialize (HQ' _ Hin). now rewrite Ef in HQ'.
        -- exact Hl.
        -- right. now rewrite Ef.
    + unfold ret in Hrun. injection Hrun as <- <- <-. rewrite app_nil_r.
      repeat split; auto.
Qed.

(** The squares of 0.25: 0.25, 2^-4, 2^-8, ... ; the eleventh is 0. *)
Fixpoint squares (k : nat) : float :=
  match k with
  | O => 0.25
  | S k' => squares k' * squares k'
  end.

Lemma scaleRange_total_squares (f : callback) (fuel : nat) :
  forall (k : nat) (lo hi : float),
    (12 <= fuel + k)%nat -> (k <= 11)%nat -> (0 < fuel)%nat ->
    exists tr r, scaleRange fuel lo hi (squares k) f = Some (tr, r).
Proof.
  induction fuel as [| fuel IH]; intros k lo hi H1 H2 H3; [lia |].
  cbn [scaleRange].
  destruct (negb ((0 <? squares k) && (lo <? hi * squares k))) eqn:E.
  - eexists _, _. reflexivity.
  - assert (Hk : (k < 11)%nat).
    { destruct (Nat.eq_dec k 11) as [-> |]; [| lia].
      exfalso. revert E. change (squares 11) with 0. cbn. discriminate. }
    destruct (IH (S k) lo hi) as (tr0 & [l0 h0] & E0); try lia.
    cbn [squares] in E0. unfold bind. rewrite E0.
    destruct ((l0 <? h0 * squares k) && (h0 * squares k <? h0)).
    + unfold call. destruct (f (h0 * squares k)) as [t b]. cbn. eexists _, _. reflexivity.
    + cbn. eexists _, _. reflexivity.
Qed.

Lemma scaleRange_total (f : callback) (lo hi : float) :
  exists tr r, scaleRange scaleDepth lo hi 0.25 f = Some (tr, r).
Proof. apply (scaleRange_total_squares f 12 0); lia. Qed.


(** What [getLinearRange] guarantees for the observed user predicate. The
    upper end can be [-0] obtained by negating an untouched [+0]. *)
Lemma getLinearRange_spec (p : float -> bool) (lo hi : float) (tr : list float) (l h : float) :
  (lo <? hi) = true ->
  getLinearRange lo hi (observe p) = Some (tr, (l, h)) ->
  ((lo <=? l) = true /\ (l <? h) = true /\ (h <=? hi) = true)
  /\ Forall (inside lo hi) tr
  /\ (l = lo \/ p l = true)
  /\ (h = hi \/ p h = false \/ (h = - 0 /\ p 0 = false)).
Proof.
  intros Hlt Hrun. unfold getLinearRange in Hrun.
  destruct (lo <? 0) eqn:Elo; [destruct (0 <? hi) eqn:Ehi |].
  - (* the range straddles zero *)
    unfold bind, call, observe at 1 in Hrun. cbn [fst snd] in Hrun.
    assert (Hin0 : inside lo hi 0) by (split; assumption).
    destruct (p 0) eqn:Ep0.
    + destruct (scaleRange scaleDepth 0 hi 0.25 (observe p)) as [[tr0 [l0 h0]] |] eqn:E;
        [| discriminate].
      injection Hrun as <- <- <-.
      destruct (scaleRange_spec _ _ _ _ _ _ _ _ Ehi E) as ((B1 & B2 & B3) & HQ & Hl & Hh).
      repeat split; try (fcmp; fail).
      * constructor; [exact Hin0 |]. apply HQ. intros v Hv. constructor; [| constructor].
        apply (inside_weaken lo hi 0 hi); auto; fcmp.
      * destruct Hl as [-> | Hl]; right; auto.
      * destruct Hh as [-> | Hh]; auto.
    + assert (Hneg : (0 <? - lo) = true) by fcmp.
      destruct (scaleRange scaleDepth 0 (- lo) 0.25 (isNegLowerBound (observe p)))
        as [[tr0 [l0 h0]] |] eqn:E; [| discriminate].
      cbn in Hrun. injection Hrun as <- <- <-.
      destruct (scaleRange_spec _ _ _ _ _ _ _ _ Hneg E) as ((B1 & B2 & B3) & HQ & Hl & Hh).
      repeat split; try (fcmp; fail).
      * constructor; [exact Hin0 |]. rewrite app_nil_r. apply HQ. intros v [Hv1 Hv2].
        cbn. constructor; [| constructor]. split; fcmp.
      * destruct Hh as [-> | Hh]; [left; apply opp_involutive | right].
        cbn in Hh. now apply negb_false_iff in Hh.
      * destruct Hl as [-> | Hl]; [right; right; auto | right; left].
        cbn in Hl. now apply negb_true_iff in Hl.
  - (* the range is entirely non-positive *)
    assert (Hneg : (- hi <? - lo) = true) by fcmp.
    unfold bind in Hrun.
    destruct (scaleRange scaleDepth (- hi) (- lo) 0.25 (isNegLowerBound (observe p)))
      as [[tr0 [l0 h0]] |] eqn:E; [| discriminate].
    cbn in Hrun. injection Hrun as <- <- <-.
    destruct (scaleRange_spec _ _ _ _ _ _ _ _ Hneg E) as ((B1 & B2 & B3) & HQ & Hl & Hh).
    repeat split; try (fcmp; fail).
    + rewrite app_nil_r. apply HQ. intros v [Hv1 Hv2].
      cbn. constructor; [| constructor]. split; fcmp.
    + destruct Hh as [-> | Hh]; [left; apply opp_involutive | right].
      cbn in Hh. now apply negb_false_iff in Hh.
    + destruct Hl as [-> | Hl]; [left; apply opp_involutive | right; left].
      cbn in Hl. now apply negb_true_iff in Hl.
  - (* the range is entirely non-negative *)
    destruct (scaleRange_spec _ _ _ _ _ _ _ _ Hlt Hrun) as ((B1 & B2 & B3) & HQ & Hl & Hh).
    repeat split; auto.
    + apply HQ. intros v Hv. constructor; [exact Hv | constructor].
    + destruct Hh as [-> | Hh]; auto.
Qed.

Lemma getLinearRange_total (f : callback) (lo hi : float) :
  exists tr r, getLinearRange lo hi f = Some (tr, r).
Proof.
  unfold getLinearRange.
  destruct (lo <? 0); [destruct (0 <? hi) |].
  - unfold bind, call. destruct (f 0) as [t [|]].
    + destruct (scaleRange_total f 0 hi) as (tr & r & ->). eexists _, _. reflexivity.
    + destruct (scaleRange_total (isNegLowerBound f) 0 (- lo)) as (tr & r & ->).
      cbn. eexists _, _. reflexivity.
  - destruct (scaleRange_total (isNegLowerBound f) (- hi) (- lo)) as (tr & r & ->).
    cbn. eexists _, _. reflexivity.
  - apply scaleRange_total.
Qed.

(** ** The bisection loop *)

(** The loop's exit test [testVal <= lo || testVal >= hi]. *)
Definition collapsed (lo hi : float) : Prop :=
  let testVal := lo + (hi - lo) * 0.5 in
  (testVal <=? lo) = true \/ (hi <=? testVal) = true.

(** The range handed to the loop: ordered, with a lower end above -Infinity. *)
Definition searchable (lo hi : float) : Prop :=
  (lo <? hi) = true /\ (neg_infinity <? lo) = true.

Lemma midpoint_not_nan (lo hi : float) :
  searchable lo hi -> isNaN (lo + (hi - lo) * 0.5) = false.
Proof.
  intros [Hlt Hinf].
  pose proof (ord_range hi) as Rhi.
  assert (Hfin : (- 2 ^ 65 < ord lo < 2 ^ 65)%Z) by fcmp.
  assert (Nlo : isNaN lo = false) by (destruct (isNaN lo) eqn:E; fcmp).
  assert (Nhi : isNaN hi = false) by (destruct (isNaN hi) eqn:E; fcmp).
  apply add_not_nan; auto. apply mul_half_not_nan. apply sub_not_nan; auto.
Qed.

Definition stateRange (s : loopState) : float * float :=
  match s with Continue l h => (l, h) | Break l h => (l, h) end.

Definition loopSpec (f : callback) (n : nat) (lo hi : float) (tr : list float)
    (s : loopState) : Prop :=
  let (l, h) := stateRange s in
  rangeSpec f lo hi tr l h
  /\ match s with
     | Break _ _ => collapsed l h
     | Continue _ _ => (ord h - ord l + 2 ^ Z.of_nat n <= ord hi - ord lo)%Z
     end.

Lemma rangeSpec_searchable (f : callback) (lo hi : float) (tr : list float) (l h : float) :
  searchable lo hi -> rangeSpec f lo hi tr l h -> searchable l h.
Proof.
  intros [H1 H2] ((B1 & B2 & B3) & _). split; [exact B2 | fcmp].
Qed.

Lemma rangeSpec_trans (f : callback) (lo hi : float) (tr1 tr2 : list float)
    (l1 h1 l2 h2 : float) :
  rangeSpec f lo hi tr1 l1 h1 -> rangeSpec f l1 h1 tr2 l2 h2 ->
  rangeSpec f lo hi (tr1 ++ tr2) l2 h2.
Proof.
  intros ((A1 & A2 & A3) & AQ & Al & Ah) ((B1 & B2 & B3) & BQ & Bl & Bh).
  repeat split; try (fcmp; fail).
  - intros Q HQ. apply Forall_app. split; [now apply AQ |].
    apply BQ. intros v Hv. apply HQ. now apply (inside_weaken lo hi l1 h1).
  - destruct Bl as [-> | Bl]; auto.
  - destruct Bh as [-> | Bh]; auto.
Qed.

Lemma bisectStep_spec (f : callback) (lo hi : float) (tr : list float) (s : loopState) :
  searchable lo hi ->
  bisectStep f lo hi = Some (tr, s) ->
  loopSpec f 0 lo hi tr s.
Proof.
  intros Hs Hrun. pose proof (midpoint_not_nan lo hi Hs) as Hnan.
  destruct Hs as [Hlt Hinf].
  unfold bisectStep in Hrun. cbv zeta in Hrun.
  set (t := lo + (hi - lo) * 0.5) in *.
  destruct ((t <=? lo) || (hi <=? t)) eqn:E.
  - injection Hrun as <- <-. unfold loopSpec, stateRange. split.
    + repeat split; auto; fcmp.
    + unfold collapsed. cbv zeta. fold t. now apply orb_true_iff in E.
  - apply orb_false_iff in E as [E1 E2].
    assert (Hin : inside lo hi t).
    { split; destruct (isNaN t) eqn:Nt; try discriminate; fcmp. }
    destruct Hin as [I1 I2].
    unfold bind, call, ret in Hrun. destruct (f t) as [tf b] eqn:Ef.
    destruct b; injection Hrun as <- <-; unfold loopSpec, stateRange; (split; [repeat split |]);
      try (fcmp; fail); auto.
    + intros Q HQ. rewrite app_nil_r. specialize (HQ t (conj I1 I2)). now rewrite Ef in HQ.
    + right. now rewrite Ef.
    + intros Q HQ. rewrite app_nil_r. specialize (HQ t (conj I1 I2)). now rewrite Ef in HQ.
    + right. now rewrite Ef.
Qed.

Lemma bisect_spec (f : callback) (n : nat) :
  forall (lo hi : float) (tr : list float) (s : loopState),
    searchable lo hi ->
    bisect n f lo hi = Some (tr, s) ->
    loopSpec f n lo hi tr s.
Proof.
  induction n as [| n IH]; intros lo hi tr s Hs Hrun.
  - now apply bisectStep_spec.
  - cbn [bisect] in Hrun. unfold bind in Hrun.
    destruct (bisect n f lo hi) as [[tr1 s1] |] eqn:E1; [| discriminate].
    pose proof (IH _ _ _ _ Hs E1) as S1.
    destruct s1 as [l1 h1 | l1 h1].
    + destruct (bisect n f l1 h1) as [[tr2 s2] |] eqn:E2; [| discriminate].
      injection Hrun as <- <-.
      unfold loopSpec in S1. cbn [stateRange] in S1. destruct S1 as [R1 M1].
      pose proof (IH _ _ _ _ (rangeSpec_searchable _ _ _ _ _ _ Hs R1) E2) as S2.
      unfold loopSpec in *. destruct (stateRange s2) as [l2 h2] eqn:Es2.
      destruct S2 as [R2 M2]. split; [now apply (rangeSpec_trans f lo hi tr1 tr2 l1 h1) |].
      destruct s2; [| exact M2].
      rewrite Nat2Z.inj_succ, Z.pow_succ_r by lia. lia.
    + cbn in Hrun. injection Hrun as <- <-. rewrite app_nil_r. exact S1.
Qed.

Lemma bisect_total (f : callback) (n : nat) :
  forall lo hi, exists tr s, bisect n f lo hi = Some (tr, s).
Proof.
  induction n as [| n IH]; intros lo hi.
  - cbn [bisect]. unfold bisectStep. cbv zeta.
    destruct ((lo + (hi - lo) * 0.5 <=? lo) || (hi <=? lo + (hi - lo) * 0.5)).
    + eexists _, _. reflexivity.
    + unfold bind, call. destruct (f _) as [t b]. cbn. eexists _, _. reflexivity.
  - cbn [bisect]. destruct (IH lo hi) as (tr1 & s1 & E1). unfold bind. rewrite E1.
    destruct s1 as [l1 h1 | l1 h1].
    + destruct (IH l1 h1) as (tr2 & s2 & E2). rewrite E2. eexists _, _. reflexivity.
    + cbn. eexists _, _. reflexivity.
Qed.

(** The loop always leaves through [break] within the budget: every turn that
    continues moves one end to a double strictly inside the range. *)
Lemma bisect_breaks (f : callback) (lo hi : float) :
  searchable lo hi ->
  exists tr l h, bisect bisectDepth f lo hi = Some (tr, Break l h).
Proof.
  intros Hs. destruct (bisect_total f bisectDepth lo hi) as (tr & s & E).
  pose proof (bisect_spec f _ _ _ _ _ Hs E) as S.
  destruct s as [l h | l h]; [exfalso | eexists _, _, _; exact E].
  unfold loopSpec in S. cbn [stateRange] in S. destruct S as [((B1 & B2 & B3) & _) M].
  pose proof (ord_range lo). pose proof (ord_range hi).
  assert (ord l < ord h)%Z by fcmp.
  change (2 ^ Z.of_nat bisectDepth)%Z with (2 * 2 ^ 65)%Z in M. lia.
Qed.


(** ** Results on [searchForFloat] *)



Lemma searchForFloat_run (lo hi : float) (p : float -> bool) :
  (lo <? hi) = true -> (neg_infinity <? lo) = true ->
  exists tr l h,
    searchForFloat lo hi p = Some (tr, (l, h))
    /\ ((lo <=? l) = true /\ (l <? h) = true /\ (h <=? hi) = true)
    /\ Forall (inside lo hi) tr
    /\ (l = lo \/ p l = true)
    /\ (h = hi \/ p h = false \/ (h = - 0 /\ p 0 = false))
    /\ collapsed l h.
Proof.
  intros Hlt Hinf. unfold searchForFloat. rewrite Hlt. cbn [negb].
  destruct (getLinearRange_total (observe p) lo hi) as (tr1 & [l1 h1] & E1).
  destruct (getLinearRange_spec p lo hi tr1 l1 h1 Hlt E1) as ((B1 & B2 & B3) & T1 & Hl1 & Hh1).
  assert (Hs : searchable l1 h1) by (split; [exact B2 | fcmp]).
  destruct (bisect_breaks (observe p) l1 h1 Hs) as (tr2 & l & h & E2).
  pose proof (bisect_spec _ _ _ _ _ _ Hs E2) as S2.
  unfold loopSpec in S2. cbn [stateRange] in S2.
  destruct S2 as [((C1 & C2 & C3) & TQ & Hl2 & Hh2) Hc].
  unfold bind. rewrite E1, E2. cbn. rewrite app_nil_r.
  exists (tr1 ++ tr2), l, h. split; [reflexivity |].
  repeat split; try (fcmp; fail).
  - apply Forall_app. split; [exact T1 |].
    apply TQ. intros v Hv. cbn. constructor; [| constructor].
    now apply (inside_weaken lo hi l1 h1).
  - destruct Hl2 as [-> | Hl2]; auto.
  - destruct Hh2 as [-> | Hh2]; auto.
  - exact Hc.
Qed.


(** The upper end of the bracket is an argument the loop's own midpoint,
    [l + (h - l) * 0.5] in double arithmetic, can no longer separate from. *)
Example searchForFloat_tiny_range :
  exists tr,
    searchForFloat 1e-300 1e-3 (fun x => x <=? 5e-100)
    = Some (tr, (5.0000000000000001e-100, 5.0000000000000011e-100))
    /\ next_up 5.0000000000000001e-100 = 5.0000000000000011e-100.
Proof. eexists. split; vm_compute; reflexivity. Qed.

(** With an infinite upper end nothing is probed and the range comes back
    whole, although doubles lie between 1 and Infinity. *)
Example searchForFloat_infinite_upper_end :
  searchForFloat 1 infinity (fun x => x <=? 5) = Some ([], (1, infinity))
  /\ inside 1 infinity 2.
Proof. split; [vm_compute; reflexivity | split; reflexivity]. Qed.




(** The probes of a search whose lower end is above -Infinity: each lies
    strictly between [lo] and [hi]; so 0 is probed only when [lo < 0 < hi]. *)
Theorem searchForFloat_probes_inside (lo hi : float) (p : float -> bool) :
  (neg_infinity <? lo) = true ->
  exists tr r,
    searchForFloat lo hi p = Some (tr, r)
    /\ Forall (fun v => inside lo hi v
                        /\ ((v =? 0) = true -> (lo <? 0) = true /\ (0 <? hi) = true)) tr.
Proof.
  intros Hinf. destruct (lo <? hi) eqn:Hlt.
  - destruct (searchForFloat_run lo hi p Hlt Hinf) as (tr & l & h & E & _ & T & _).
    exists tr, (l, h). split; [exact E |].
    eapply Forall_impl; [| exact T].
    intros v [H1 H2]. split; [split; assumption |]. intros H0. split; fcmp.
  - exists [], (lo, hi). split; [| constructor].
    unfold searchForFloat. rewrite Hlt. reflexivity.
Qed.

Lemma searchForFloat_probes_inside_witness :
  exists tr r,
    searchForFloat (-3) 7 (fun x => x <=? -1) = Some (tr, r)
    /\ Forall (fun v => inside (-3) 7 v
                        /\ ((v =? 0) = true -> (-3 <? 0) = true /\ (0 <? 7) = true)) tr.
Proof. apply (searchForFloat_probes_inside (-3) 7 (fun x => x <=? -1)). reflexivity. Defined.

(** C10 at [lo = -Infinity], [hi = -1]: the range reaches the loop unchanged,
    the midpoint [-Infinity + (hi + Infinity) * 0.5] is NaN, neither exit test
    holds, and the predicate is called on NaN; the state (-Infinity, NaN)
    then repeats, so the loop has not stopped after any number of turns. *)
Lemma bisect_neg_infinity_nan (p : float -> bool) (n : nat) :
  p nan = false ->
  exists tr, bisect n (observe p) neg_infinity nan = Some (nan :: tr, Continue neg_infinity nan).
Proof.
  intros Hp. induction n as [| n [tr IH]].
  - exists []. cbn [bisect]. unfold bisectStep. cbv zeta.
    change (neg_infinity + (nan - neg_infinity) * 0.5) with nan.
    change (nan <=? neg_infinity) with false. change (nan <=? nan) with false.
    unfold bind, call, observe, ret. cbn [orb]. rewrite Hp. reflexivity.
  - cbn [bisect]. unfold bind. rewrite IH, IH. eexists. reflexivity.
Qed.

Theorem searchForFloat_neg_infinity_probes_nan :
  let p := fun x : float => x <=? -5 in
  getLinearRange neg_infinity (-1) (observe p) = Some ([], (neg_infinity, -1))
  /\ (forall n, exists tr,
        bisect n (observe p) neg_infinity (-1) = Some (nan :: tr, Continue neg_infinity nan))
  /\ ~ inside neg_infinity (-1) nan.
Proof.
  cbv zeta. split; [vm_compute; reflexivity | split; [| intros [H _]; vm_compute in H; discriminate H]].
  induction n as [| n [tr IH]].
  - exists []. vm_compute. reflexivity.
  - destruct (bisect_neg_infinity_nan (fun x => x <=? -5) n eq_refl) as [tr' E'].
    cbn [bisect]. unfold bind. rewrite IH, E'. eexists. reflexivity.
Qed.

(** *** An infinite upper end *)

Lemma squares_infinity (k : nat) :
  (k < 10)%nat -> (0 <? squares k) = true /\ infinity * squares k = infinity.
Proof.
  intros Hk. do 10 (destruct k as [| k]; [split; vm_compute; reflexivity |]). lia.
Qed.

Lemma scaleRange_infinity (f : callback) (lo : float) (fuel : nat) :
  (lo <? infinity) = true ->
  forall k : nat,
    (11 <= fuel + k)%nat -> (k <= 10)%nat -> (0 < fuel)%nat ->
    scaleRange fuel lo infinity (squares k) f = Some ([], (lo, infinity)).
Proof.
  intros Hlt. induction fuel as [| fuel IH]; intros k H1 H2 H3; [lia |].
  cbn [scaleRange].
  destruct (Nat.eq_dec k 10) as [-> | Hne].
  - change (squares 10) with 0. change (0 <? 0) with false. reflexivity.
  - destruct (squares_infinity k ltac:(lia)) as [Hpos Hinf].
    rewrite Hpos, Hinf, Hlt. cbn [andb negb].
    change (squares k * squares k) with (squares (S k)).
    unfold bind. rewrite IH by lia. rewrite Hinf, Hlt.
    change (infinity <? infinity) with false. reflexivity.
Qed.

Lemma midpoint_infinity (lo : float) :
  (lo <? infinity) = true -> (neg_infinity <? lo) = true ->
  lo + (infinity - lo) * 0.5 = infinity.
Proof.
  intros Hlt Hgt. apply Prim2SF_inj.
  rewrite FloatAxioms.add_spec, FloatAxioms.mul_spec, FloatAxioms.sub_spec.
  rewrite FloatAxioms.ltb_spec in Hlt, Hgt.
  change (Prim2SF infinity) with (S754_infinity false) in *.
  change (Prim2SF neg_infinity) with (S754_infinity true) in *.
  destruct (Prim2SF lo) as [s | [|] | | s m e]; try discriminate; reflexivity.
Qed.

Lemma bisect_stops_at_once (f : callback) (lo hi : float) (n : nat) :
  bisectStep f lo hi = Some ([], Break lo hi) -> bisect n f lo hi = Some ([], Break lo hi).
Proof.
  intros H. induction n as [| n IH]; cbn [bisect]; [exact H |].
  unfold bind. rewrite IH. reflexivity.
Qed.

(** A range that reaches up to +Infinity is not searched: for [0 <= lo], the
    pair [(lo, Infinity)] comes back as it is and the predicate is never
    called, whatever it is. *)
Theorem searchForFloat_unbounded_above (lo : float) (p : float -> bool) :
  (0 <=? lo) = true -> (lo <? infinity) = true ->
  searchForFloat lo infinity p = Some ([], (lo, infinity)).
Proof.
  intros H0 Hlt. unfold searchForFloat. rewrite Hlt. cbn [negb].
  unfold getLinearRange.
  assert (E0 : (lo <? 0) = false) by fcmp. rewrite E0.
  unfold scaleDepth. change 0.25 with (squares 0).
  rewrite (scaleRange_infinity (observe p) lo 12 Hlt 0) by lia.
  unfold bind. cbn [app].
  rewrite (bisect_stops_at_once (observe p) lo infinity bisectDepth).
  - reflexivity.
  - unfold bisectStep. cbv zeta. rewrite midpoint_infinity by (auto; fcmp).
    change (infinity <=? infinity) with true. rewrite orb_true_r. reflexivity.
Qed.

Lemma searchForFloat_unbounded_above_witness :
  searchForFloat 2.5 infinity (fun x => x <=? 1e10) = Some ([], (2.5, infinity)).
Proof.
  apply (searchForFloat_unbounded_above 2.5 (fun x => x <=? 1e10)); reflexivity.
Defined.

(** The search returns whenever its lower end is above -Infinity, with a
    result inside the given range and probes strictly inside it. *)
Lemma searchForFloat_total (lo hi : float) (p : float -> bool) :
  (neg_infinity <? lo) = true ->
  exists tr l h,
    searchForFloat lo hi p = Some (tr, (l, h))
    /\ Forall (inside lo hi) tr
    /\ ((lo <? hi) = true -> (lo <=? l) = true /\ (l <? h) = true /\ (h <=? hi) = true)
    /\ ((lo <? hi) = false -> l = lo /\ h = hi).
Proof.
  intros Hinf. destruct (lo <? hi) eqn:Hlt.
  - destruct (searchForFloat_run lo hi p Hlt Hinf) as (tr & l & h & E & B & T & _).
    exists tr, l, h. split; [exact E |]. split; [exact T |]. split; [auto | discriminate].
  - exists [], lo, hi. unfold searchForFloat. rewrite Hlt.
    split; [reflexivity |]. split; [constructor |]. split; [discriminate | auto].
Qed.

(** Whatever the predicate, monotone or not: a search on [lo < hi] with [lo]
    above -Infinity returns [(l, h)] with [lo <= l < h <= hi]; [l] is [lo] or
    an argument at which the predicate holds; [h] is [hi] or an argument at
    which it fails (an upper end [-0] standing for the probe at 0); and the
    loop's midpoint of [l] and [h] falls on or outside them. *)
Theorem searchForFloat_any_predicate (lo hi : float) (p : float -> bool) :
  (lo <? hi) = true -> (neg_infinity <? lo) = true ->
  exists tr l h,
    searchForFloat lo hi p = Some (tr, (l, h))
    /\ ((lo <=? l) = true /\ (l <? h) = true /\ (h <=? hi) = true)
    /\ (l = lo \/ p l = true)
    /\ (h = hi \/ p h = false \/ (h = - 0 /\ p 0 = false))
    /\ collapsed l h.
Proof.
  intros Hlt Hinf.
  destruct (searchForFloat_run lo hi p Hlt Hinf) as (tr & l & h & E & B & _ & Hl & Hh & Hc).
  exists tr, l, h. auto.
Qed.

Lemma searchForFloat_any_predicate_witness :
  let p := fun x : float => (x <=? -2) || ((1 <=? x) && (x <=? 3)) in
  exists tr l h,
    searchForFloat (-3) 7 p = Some (tr, (l, h))
    /\ ((-3 <=? l) = true /\ (l <? h) = true /\ (h <=? 7) = true)
    /\ (l = -3 \/ p l = true)
    /\ (h = 7 \/ p h = false \/ (h = - 0 /\ p 0 = false))
    /\ collapsed l h.
Proof.
  cbv zeta.
  apply (searchForFloat_any_predicate (-3) 7
           (fun x => (x <=? -2) || ((1 <=? x) && (x <=? 3)))); reflexivity.
Defined.

End FloatBinarySearch.

Module Biarc.
Import F64.
Local Open Scope float_scope.

(** [type PointAndTangent = [number, number, number, number]]: x, y, tx, ty. *)
Record PointAndTangent : Type := mkPT { px : float; py : float; ptx : float; pty : float }.

Definition biArcSplit (pt0 pt1 : PointAndTangent) : PointAndTangent :=
  let '(mkPT x0 y0 tx0 ty0) := pt0 in
  let '(mkPT x1 y1 tx1 ty1) := pt1 in
  let dx := x1 - x0 in
  let dy := y1 - y0 in
  let dmag := Math_sqrt (dx * dx + dy * dy) in
  let txm := dx / dmag in
  let tym := dy / dmag in
  let f0 := ty1 * dx - tx1 * dy in
  let f1 := tx0 * dy - ty0 * dx in
  let k := dmag / ((tx0 * txm + ty0 * tym + 1) * f0 + (tx1 * txm + ty1 * tym + 1) * f1) in
  let a0 := k * f0 in
  let xm := x0 + (tx0 + txm) * a0 in
  let ym := y0 + (ty0 + tym) * a0 in
  mkPT xm ym txm tym.

Definition getArcPointError (pt0 pt1 sample : PointAndTangent) : float :=
  let '(mkPT x0 y0 tx0 ty0) := pt0 in
  let '(mkPT x1 y1 tx1 ty1) := pt1 in
  let xs := px sample in
  let ys := py sample in
  let dxa := x1 - x0 in
  let dya := y1 - y0 in
  let den := dxa * (ty1 - ty0) + dya * (tx0 - tx1) in
  let da2 := dxa * dxa + dya * dya in
  if Math_abs den * 1e8 <? da2 then
    let xh := (x0 + x1) * 0.5 in
    let yh := (y0 + y1) * 0.5 in
    Math_abs ((xs - xh) * (ty0 + ty1) - (ys - yh) * (tx0 + tx1)) * 0.5
  else
    let r := da2 / den in
    let xc := (x0 + x1 - r * (ty0 + ty1)) * 0.5 in
    let yc := (y0 + y1 + r * (tx0 + tx1)) * 0.5 in
    let xcs := xs - xc in
    let ycs := ys - yc in
    let rs := Math_sqrt (xcs * xcs + ycs * ycs) in
    Math_abs (rs - Math_abs r).

Definition getBiArcPointError (pt0 ptm pt1 sample : PointAndTangent) : float :=
  let x0 := px pt0 in let y0 := py pt0 in
  let x1 := px pt1 in let y1 := py pt1 in
  let xm := px ptm in let ym := py ptm in
  let xs := px sample in let ys := py sample in
  let dx := x1 - x0 in
  let dy := y1 - y0 in
  if (xm - x0) * dx + (ym - y0) * dy <? (xs - x0) * dx + (ys - y0) * dy then
    getArcPointError ptm pt1 sample
  else
    getArcPointError pt0 ptm sample.

(** Reading [samples[i]] at an index inside the array. *)
Definition origin : PointAndTangent := mkPT 0 0 0 0.
Definition sampleAt (samples : list PointAndTangent) (i : nat) : PointAndTangent :=
  nth i samples origin.

(** [for (let i = fromPos + 1; i < toPos; ++i) maxError = Math.max(maxError, ...)] *)
Definition interior (fromPos toPos : nat) : list nat :=
  seq (S fromPos) (toPos - S fromPos).

Definition getApproxError (samples : list PointAndTangent) (fromPos toPos : nat) : float :=
  let pt0 := sampleAt samples fromPos in
  let pt1 := sampleAt samples toPos in
  let ptm := biArcSplit pt0 pt1 in
  fold_left (fun maxError i => Math_max maxError (getBiArcPointError pt0 ptm pt1 (sampleAt samples i)))
            (interior fromPos toPos) 0.

(** One row of [best]: [[best division count, best division max error,
    best division predecessor]]; the predecessor of sample 0 is -1. *)
Record Best : Type := mkBest { bestCount : nat; bestMaxError : float; bestPred : Z }.

Definition bestAt (best : list Best) (i : nat) : Best := nth i best (mkBest 0 0 (-1)).

(** The variables the inner loop updates. *)
Record Scan : Type :=
  mkScan { nextScanStart : nat; curCount : nat; curMaxError : float; curPred : nat }.

(** The inner loop over [testPos], from the head of [positions] on. *)
Fixpoint scan (samples : list PointAndTangent) (tolerance : float) (best : list Best)
    (pos : nat) (positions : list nat) (st : Scan) : Scan :=
  match positions with
  | [] => st
  | testPos :: rest =>
      let error := getApproxError samples testPos pos in
      if tolerance <? error then scan samples tolerance best pos rest st
      else
        let st :=
          if (testPos <? nextScanStart st)%nat
          then mkScan testPos (curCount st) (curMaxError st) (curPred st) else st in
        let count := S (bestCount (bestAt best testPos)) in
        let maxError := Math_max (bestMaxError (bestAt best testPos)) error in
        if (curCount st <? count)%nat then st
        else
          let st :=
            if (count <? curCount st)%nat || (maxError <? curMaxError st)
            then mkScan (nextScanStart st) count maxError testPos else st in
          if error <? maxError then st
          else scan samples tolerance best pos rest st
  end.

(** One turn of the outer loop, for [pos]; returns the row pushed on [best]
    and the new [nextScanStart]. *)
Definition step (samples : list PointAndTangent) (tolerance : float)
    (state : list Best * nat) (pos : nat) : list Best * nat :=
  let (best, thisScanStart) := state in
  let prev := bestAt best (pos - 1) in
  let st0 := mkScan (pos - 1) (S (bestCount prev)) (bestMaxError prev) (pos - 1) in
  let st := scan samples tolerance best pos (seq thisScanStart (pos - 1 - thisScanStart)) st0 in
  (best ++ [mkBest (curCount st) (curMaxError st) (Z.of_nat (curPred st))], nextScanStart st).

Definition table (samples : list PointAndTangent) (tolerance : float) : list Best :=
  fst (fold_left (step samples tolerance) (seq 1 (length samples - 1)) ([mkBest 0 0 (-1)], O)).

(** [for (let i = best.length - 1; i >= 0; i = best[i][2]) ret.push(samples[i])];
    the indices pushed, in the order pushed. *)
Fixpoint walk (fuel : nat) (best : list Best) (i : Z) : option (list nat) :=
  if (i <? 0)%Z then Some []
  else
    match fuel with
    | O => None
    | S fuel' =>
        match walk fuel' best (bestPred (bestAt best (Z.to_nat i))) with
        | Some ret => Some (Z.to_nat i :: ret)
        | None => None
        end
    end.

(** The indices of the samples [biArcApproximate] returns, ascending. *)
Definition selection (samples : list PointAndTangent) (tolerance : float) : option (list nat) :=
  let best := table samples tolerance in
  option_map (@rev nat) (walk (length best) best (Z.of_nat (length best) - 1)).

(** [biArcApproximate]; an entry read outside [samples] is [undefined]. *)
Definition biArcApproximate (samples : list PointAndTangent) (tolerance : float)
    : option (list (option PointAndTangent)) :=
  option_map (map (nth_error samples)) (selection samples tolerance).


(** ** The table and the walk back *)

(** The test that lets [testPos] precede [pos]: they are neighbours, or the
    scan did not find [error > tolerance]. *)
Definition accepted (samples : list PointAndTangent) (tolerance : float) (j i : nat) : Prop :=
  (j < i)%nat /\ (i = S j \/ (tolerance <? getApproxError samples j i) = false).

Section Table.
Variable samples : list PointAndTangent.
Variable tolerance : float.

Lemma scan_pred (best : list Best) (pos : nat) (positions : list nat) :
  forall st : Scan,
    Forall (fun t => (t < pos)%nat) positions ->
    accepted samples tolerance (curPred st) pos ->
    accepted samples tolerance (curPred (scan samples tolerance best pos positions st)) pos.
Proof.
  induction positions as [| t rest IH]; intros st Hpos Hst; cbn [scan]; [exact Hst |].
  inversion Hpos as [| ? ? Ht Hrest]; subst.
  destruct (tolerance <? getApproxError samples t pos) eqn:Etol; [now apply IH |].
  set (st1 := if (t <? nextScanStart st)%nat then _ else st).
  assert (H1 : curPred st1 = curPred st) by (unfold st1; destruct (t <? nextScanStart st)%nat; reflexivity).
  destruct (curCount st1 <? S (bestCount (bestAt best t)))%nat; [now rewrite H1 |].
  set (st2 := if _ || _ then _ else st1).
  assert (H2 : accepted samples tolerance (curPred st2) pos).
  { unfold st2. destruct (_ || _); cbn [curPred]; [| now rewrite H1].
    split; [exact Ht | right; exact Etol]. }
  destruct (getApproxError samples t pos <? _); [exact H2 | now apply IH].
Qed.

(** Every row but the first names a predecessor that was accepted. *)
Definition rowsLinked (best : list Best) : Prop :=
  bestPred (bestAt best 0) = (-1)%Z
  /\ forall pos, (1 <= pos < length best)%nat ->
       exists j, bestPred (bestAt best pos) = Z.of_nat j /\ accepted samples tolerance j pos.

Lemma step_linked (best : list Best) (start pos : nat) :
  pos = length best -> (1 <= pos)%nat ->
  rowsLinked best ->
  let best' := fst (step samples tolerance (best, start) pos) in
  length best' = S pos /\ rowsLinked best'.
Proof.
  intros Hlen Hpos [H0 Hrows]. cbn [step fst].
  set (st := scan _ _ _ _ _ _).
  assert (Hacc : accepted samples tolerance (curPred st) pos).
  { apply scan_pred.
    - apply Forall_forall. intros t Ht. apply in_seq in Ht. lia.
    - cbn [curPred]. split; [lia | left; lia]. }
  split; [rewrite length_app; cbn; lia |].
  split.
  - unfold bestAt in *. rewrite app_nth1 by lia. exact H0.
  - intros p Hp. rewrite length_app in Hp. cbn [length] in Hp. unfold bestAt in *.
    destruct (Nat.eq_dec p (length best)) as [-> | Hne].
    + rewrite app_nth2 by lia. rewrite Nat.sub_diag. cbn [nth bestPred].
      exists (curPred st). split; [reflexivity | now rewrite <- Hlen].
    + rewrite app_nth1 by lia. apply Hrows. lia.
Qed.

Lemma fold_step_linked (positions : list nat) :
  forall (best : list Best) (start pos0 : nat),
    positions = seq pos0 (length positions) ->
    pos0 = length best -> (1 <= pos0)%nat ->
    rowsLinked best ->
    let best' := fst (fold_left (step samples tolerance) positions (best, start)) in
    length best' = (pos0 + length positions)%nat /\ rowsLinked best'.
Proof.
  induction positions as [| p rest IH]; intros best start pos0 Hseq Hlen Hpos Hrows.
  - cbn. split; [lia | exact Hrows].
  - cbn [length seq] in Hseq. injection Hseq as Hp Hrest. subst p.
    cbn [fold_left].
    destruct (step samples tolerance (best, start) pos0) as [best1 start1] eqn:E.
    pose proof (step_linked best start pos0 Hlen Hpos Hrows) as [L1 R1].
    rewrite E in L1, R1. cbn [fst] in L1, R1.
    destruct (IH best1 start1 (S pos0) Hrest (eq_sym L1) ltac:(lia) R1) as [L2 R2].
    split; [cbn [length]; lia | exact R2].
Qed.

Lemma table_linked :
  length (table samples tolerance) = S (length samples - 1)
  /\ rowsLinked (table samples tolerance).
Proof.
  unfold table.
  pose proof (fold_step_linked (seq 1 (length samples - 1)) [mkBest 0 0 (-1)] 0 1) as H.
  rewrite length_seq in H.
  destruct H as [L R]; try reflexivity; try lia.
  - split; [reflexivity |]. intros pos Hp. cbn in Hp. lia.
  - split; [lia | exact R].
Qed.

(** An ascending chain of accepted pairs from sample 0 to sample [i]. *)
Inductive chainTo : list nat -> nat -> Prop :=
  | chain_first : chainTo [O] O
  | chain_next (l : list nat) (j i : nat) :
      chainTo l j -> accepted samples tolerance j i -> chainTo (l ++ [i]) i.

Lemma walk_chain (best : list Best) :
  rowsLinked best ->
  forall (fuel i : nat),
    (i < fuel)%nat -> (i < length best)%nat ->
    exists ret, walk fuel best (Z.of_nat i) = Some ret /\ chainTo (rev ret) i.
Proof.
  intros [H0 Hrows]. induction fuel as [| fuel IH]; intros i Hf Hi; [lia |].
  cbn [walk]. destruct (Z.ltb_spec (Z.of_nat i) 0) as [Hneg | _]; [lia |].
  rewrite Nat2Z.id.
  destruct (Nat.eq_dec i 0) as [-> | Hne].
  - rewrite H0. destruct fuel; cbn; exists [O]; (split; [reflexivity | constructor]).
  - destruct (Hrows i ltac:(lia)) as (j & Hj & Hacc). rewrite Hj.
    destruct (IH j) as (ret & E & C); [destruct Hacc; lia | destruct Hacc; lia |].
    rewrite E. exists (i :: ret). split; [reflexivity |].
    cbn [rev]. now apply (chain_next _ j).
Qed.

Lemma selection_chain :
  exists sel, selection samples tolerance = Some sel /\ chainTo sel (length samples - 1).
Proof.
  destruct table_linked as [L R]. unfold selection. cbv zeta.
  replace (Z.of_nat (length (table samples tolerance)) - 1)%Z
    with (Z.of_nat (length samples - 1)) by lia.
  destruct (walk_chain _ R (length (table samples tolerance)) (length samples - 1))
    as (ret & E & C); try lia.
  rewrite E. exists (rev ret). split; [reflexivity | exact C].
Qed.

(** What a chain is, read off the list. *)
Lemma chainTo_last (l : list nat) (i : nat) : chainTo l i -> last l O = i.
Proof. intros H. destruct H; [reflexivity | apply last_last]. Qed.



Lemma chainTo_adjacent (l : list nat) (i : nat) :
  chainTo l i ->
  forall l1 a b l2, l = l1 ++ a :: b :: l2 -> accepted samples tolerance a b.
Proof.
  induction 1 as [| l j i H IH Hacc]; intros l1 a b l2 E.
  - destruct l1 as [| ? [| ? ?]]; discriminate.
  - destruct l2 as [| c l2' _] using rev_ind.
    + change (l1 ++ [a; b]) with (l1 ++ [a] ++ [b]) in E. rewrite app_assoc in E.
      apply app_inj_tail in E as [E ->].
      pose proof (chainTo_last _ _ H) as Hl. rewrite E, last_last in Hl. now subst.
    + change (l1 ++ a :: b :: l2' ++ [c]) with (l1 ++ (a :: b :: l2') ++ [c]) in E.
      rewrite app_assoc in E. apply app_inj_tail in E as [E _].
      now apply (IH l1 a b l2').
Qed.
End Table.


(** ** The error of a span *)

Lemma fold_Math_max_spec (g : nat -> float) (l : list nat) :
  forall m0 : float,
    let r := fold_left (fun m i => Math_max m (g i)) l m0 in
    isNaN r = false ->
    isNaN m0 = false /\ (ord m0 <= ord r)%Z
    /\ Forall (fun i => isNaN (g i) = false /\ (ord (g i) <= ord r)%Z) l.
Proof.
  induction l as [| i l IH]; intros m0 r H; subst r; cbn [fold_left] in *.
  - repeat split; [exact H | lia | constructor].
  - destruct (IH _ H) as (Hm & Hle & Hall).
    destruct (Math_max_spec _ _ Hm) as (N0 & Ni & O0 & Oi).
    repeat split; [exact N0 | lia | ].
    constructor; [split; [exact Ni | lia] | exact Hall].
Qed.

Lemma getApproxError_bounds (samples : list PointAndTangent) (fromPos toPos k : nat) :
  isNaN (getApproxError samples fromPos toPos) = false ->
  (fromPos < k < toPos)%nat ->
  let pt0 := sampleAt samples fromPos in
  let pt1 := sampleAt samples toPos in
  (getBiArcPointError pt0 (biArcSplit pt0 pt1) pt1 (sampleAt samples k)
     <=? getApproxError samples fromPos toPos) = true.
Proof.
  intros Hnan Hk. cbv zeta. unfold getApproxError in *. cbv zeta in *.
  destruct (fold_Math_max_spec _ _ _ Hnan) as (_ & _ & Hall).
  rewrite Forall_forall in Hall.
  destruct (Hall k) as [Nk Ok]; [unfold interior; apply in_seq; lia |].
  rewrite leb_ord, Nk, Hnan. cbn [negb orb andb]. now apply Z.leb_le.
Qed.


(** ** Results on [biArcApproximate] *)





(** The unit circle, sampled at every quarter turn and closed on its first
    sample. *)
Definition closedCircle : list PointAndTangent :=
  [mkPT 1 0 0 1; mkPT 0 1 (-1) 0; mkPT (-1) 0 0 (-1); mkPT 0 (-1) 1 0; mkPT 1 0 0 1].

(** C5 on [closedCircle] with tolerance 0.01: the span from sample 0 to
    sample 4 has a chord of length 0, [biArcSplit] divides by it, the error of
    the span is NaN, [error > tolerance] is false, and the function returns
    samples 0 and 4 only; the distance of the omitted sample 1 from that biarc
    is NaN, which is not at most the tolerance. *)
Theorem biArcApproximate_closed_circle :
  let tolerance := 0.01 in
  let s := sampleAt closedCircle in
  selection closedCircle tolerance = Some [0; 4]%nat
  /\ is_nan (getApproxError closedCircle 0 4) = true
  /\ (getBiArcPointError (s 0%nat) (biArcSplit (s 0%nat) (s 4%nat)) (s 4%nat) (s 1%nat)
        <=? tolerance) = false.
Proof. cbv zeta. repeat split; vm_compute; reflexivity. Qed.

(** When neither the tolerance nor the error of a selected span is NaN, every
    sample the function leaves out between two consecutive selected samples
    lies within the tolerance of their biarc. *)
Theorem biArcApproximate_deviation (samples : list PointAndTangent) (tolerance : float)
    (sel l1 l2 : list nat) (a b k : nat) :
  selection samples tolerance = Some sel ->
  sel = l1 ++ a :: b :: l2 ->
  (a < k < b)%nat ->
  is_nan tolerance = false ->
  is_nan (getApproxError samples a b) = false ->
  let pt0 := sampleAt samples a in
  let pt1 := sampleAt samples b in
  (getBiArcPointError pt0 (biArcSplit pt0 pt1) pt1 (sampleAt samples k) <=? tolerance) = true.
Proof.
  intros E El Hk Nt Ne. cbv zeta.
  destruct (selection_chain samples tolerance) as (sel' & E' & C).
  rewrite E in E'. injection E' as <-.
  destruct (chainTo_adjacent _ _ _ _ C l1 a b l2 El) as [_ [Hadj | Htol]]; [lia |].
  rewrite is_nan_isNaN in Nt, Ne.
  pose proof (getApproxError_bounds samples a b k Ne Hk) as Hle. cbv zeta in Hle.
  rewrite leb_ord in *. rewrite ltb_ord in Htol. rewrite Nt, Ne in *.
  destruct (isNaN (getBiArcPointError _ _ _ _)); cbn [negb orb andb] in *; [discriminate |].
  apply Z.leb_le in Hle. apply Z.ltb_ge in Htol. apply Z.leb_le. lia.
Qed.

Lemma biArcApproximate_deviation_witness :
  let s := sampleAt closedCircle in
  (getBiArcPointError (s 0%nat) (biArcSplit (s 0%nat) (s 3%nat)) (s 3%nat) (s 1%nat)
     <=? 0.01) = true.
Proof.
  cbv zeta.
  apply (biArcApproximate_deviation (firstn 4 closedCircle) 0.01 [0; 3]%nat [] [] 0 3 1);
    try reflexivity. lia.
Defined.

(** The shortest inputs, for every tolerance: of no samples the function
    returns an array of length 1 that holds [undefined] (it reads [samples[0]]
    for the first row of its table); one sample or two come back as they
    are. *)
Theorem biArcApproximate_short (tolerance : float) (s0 s1 : PointAndTangent) :
  biArcApproximate [] tolerance = Some [None]
  /\ biArcApproximate [s0] tolerance = Some [Some s0]
  /\ biArcApproximate [s0; s1] tolerance = Some [Some s0; Some s1].
Proof. repeat split; reflexivity. Qed.

End Biarc.

(** * The biarc junction, over exact arithmetic *)
Module BiarcGeometry.
Import Numeric.

Section Split.
Context {num : Type} {number : Number num}.
Local Open Scope num_scope.

(** [type PointAndTangent = [number, number, number, number]]: x, y, tx, ty. *)
Record PointAndTangent : Type := mkPT { px : num; py : num; ptx : num; pty : num }.

(** [biArcSplit], as in the source, over any numbers. *)
Definition biArcSplit (pt0 pt1 : PointAndTangent) : PointAndTangent :=
  let '(mkPT x0 y0 tx0 ty0) := pt0 in
  let '(mkPT x1 y1 tx1 ty1) := pt1 in
  let dx := x1 - x0 in
  let dy := y1 - y0 in
  let dmag := Math_sqrt (dx * dx + dy * dy) in
  let txm := dx / dmag in
  let tym := dy / dmag in
  let f0 := ty1 * dx - tx1 * dy in
  let f1 := tx0 * dy - ty0 * dx in
  let k := dmag / ((tx0 * txm + ty0 * tym + lit 1) * f0 + (tx1 * txm + ty1 * tym + lit 1) * f1) in
  let a0 := k * f0 in
  let xm := x0 + (tx0 + txm) * a0 in
  let ym := y0 + (ty0 + tym) * a0 in
  mkPT xm ym txm tym.

(** The divisor of [k]. *)
Definition divisor (pt0 pt1 : PointAndTangent) : num :=
  let '(mkPT x0 y0 tx0 ty0) := pt0 in
  let '(mkPT x1 y1 tx1 ty1) := pt1 in
  let dx := x1 - x0 in
  let dy := y1 - y0 in
  let dmag := Math_sqrt (dx * dx + dy * dy) in
  let txm := dx / dmag in
  let tym := dy / dmag in
  let f0 := ty1 * dx - tx1 * dy in
  let f1 := tx0 * dy - ty0 * dx in
  (tx0 * txm + ty0 * tym + lit 1) * f0 + (tx1 * txm + ty1 * tym + lit 1) * f1.

End Split.

(** Over doubles this is the function of module [Biarc]. *)
Lemma biArcSplit_doubles (x0 y0 tx0 ty0 x1 y1 tx1 ty1 : float) :
  let m := biArcSplit (num := float) (mkPT x0 y0 tx0 ty0) (mkPT x1 y1 tx1 ty1) in
  Biarc.biArcSplit (Biarc.mkPT x0 y0 tx0 ty0) (Biarc.mkPT x1 y1 tx1 ty1)
  = Biarc.mkPT (px m) (py m) (ptx m) (pty m).
Proof. reflexivity. Qed.

Section Exact.
Local Open Scope R_scope.

Abbreviation point := (PointAndTangent (num := R)).

(** The chord from [a] to [b] meets the directions [u] at [a] and [v] at [b]
    at equal and opposite angles: [v] is the mirror image of [u] in the
    chord. For unit [u] and [v] these are the end tangents of one circular arc
    (or straight line) from [a] to [b]. *)
Definition mirrored (ax ay ux uy bx by_ vx vy : R) : Prop :=
  let cx := bx - ax in
  let cy := by_ - ay in
  cx * ux + cy * uy = cx * vx + cy * vy
  /\ cx * uy - cy * ux = - (cx * vy - cy * vx).

Lemma split_algebra (dx dy s tx0 ty0 tx1 ty1 : R) :
  s * s = dx * dx + dy * dy -> s <> 0 ->
  let txm := dx / s in
  let tym := dy / s in
  let f0 := ty1 * dx - tx1 * dy in
  let f1 := tx0 * dy - ty0 * dx in
  let den := (tx0 * txm + ty0 * tym + 1) * f0 + (tx1 * txm + ty1 * tym + 1) * f1 in
  den <> 0 ->
  let k := s / den in
  dx = (tx0 + txm) * (k * f0) + (tx1 + txm) * (k * f1)
  /\ dy = (ty0 + tym) * (k * f0) + (ty1 + tym) * (k * f1).
Proof.
  intros Hs Hs0. cbv zeta. intros Hden.
  set (den := (tx0 * (dx / s) + ty0 * (dy / s) + 1) * (ty1 * dx - tx1 * dy)
              + (tx1 * (dx / s) + ty1 * (dy / s) + 1) * (tx0 * dy - ty0 * dx)) in *.
  assert (Hd : den * s = (tx0 * dx + ty0 * dy + s) * (ty1 * dx - tx1 * dy)
                         + (tx1 * dx + ty1 * dy + s) * (tx0 * dy - ty0 * dx)).
  { unfold den. field. exact Hs0. }
  assert (Z : dx * dx + dy * dy - s * s = 0) by lra.
  split.
  - apply (Rmult_eq_reg_r (den * s)); [| now apply Rmult_integral_contrapositive_currified].
    transitivity (s * ((tx0 * s + dx) * (ty1 * dx - tx1 * dy)
                       + (tx1 * s + dx) * (tx0 * dy - ty0 * dx))).
    + rewrite Hd.
      transitivity (s * ((tx0 * s + dx) * (ty1 * dx - tx1 * dy)
                         + (tx1 * s + dx) * (tx0 * dy - ty0 * dx))
                    + (dx * dx + dy * dy - s * s)
                      * (tx0 * (ty1 * dx - tx1 * dy) + tx1 * (tx0 * dy - ty0 * dx)));
        [ring | rewrite Z; ring].
    + field. split; assumption.
  - apply (Rmult_eq_reg_r (den * s)); [| now apply Rmult_integral_contrapositive_currified].
    transitivity (s * ((ty0 * s + dy) * (ty1 * dx - tx1 * dy)
                       + (ty1 * s + dy) * (tx0 * dy - ty0 * dx))).
    + rewrite Hd.
      transitivity (s * ((ty0 * s + dy) * (ty1 * dx - tx1 * dy)
                         + (ty1 * s + dy) * (tx0 * dy - ty0 * dx))
                    + (dx * dx + dy * dy - s * s)
                      * (ty0 * (ty1 * dx - tx1 * dy) + ty1 * (tx0 * dy - ty0 * dx)));
        [ring | rewrite Z; ring].
    + field. split; assumption.
Qed.

(** A chord along the bisector of two unit directions mirrors one in the
    other. *)
Lemma mirrored_bisector (ax ay ux uy vx vy a : R) :
  ux * ux + uy * uy = 1 -> vx * vx + vy * vy = 1 ->
  mirrored ax ay ux uy (ax + (ux + vx) * a) (ay + (uy + vy) * a) vx vy.
Proof.
  intros Hu Hv. unfold mirrored. cbv zeta. split.
  - transitivity (a * (ux * ux + uy * uy + (ux * vx + uy * vy))); [ring |].
    transitivity (a * (vx * vx + vy * vy + (ux * vx + uy * vy))); [| ring].
    rewrite Hu, Hv. reflexivity.
  - ring.
Qed.

Lemma mirrored_bisector_to (bx by_ ux uy vx vy a : R) :
  ux * ux + uy * uy = 1 -> vx * vx + vy * vy = 1 ->
  mirrored (bx - (ux + vx) * a) (by_ - (uy + vy) * a) ux uy bx by_ vx vy.
Proof.
  intros Hu Hv.
  replace bx with (bx - (ux + vx) * a + (ux + vx) * a) at 2 by ring.
  replace by_ with (by_ - (uy + vy) * a + (uy + vy) * a) at 2 by ring.
  now apply mirrored_bisector.
Qed.

(** Over exact arithmetic: for two distinct points with unit tangents, and a
    divisor of [k] that is not 0, the junction [biArcSplit] returns has a unit
    tangent, and each of the two chords, first point to junction and junction
    to last point, mirrors the tangent at one end in the tangent at the other:
    the junction joins two circular arcs that are tangent to the given
    tangents and to each other. *)
Theorem biArcSplit_joins_arcs (pt0 pt1 : point) :
  let ptm := biArcSplit pt0 pt1 in
  px pt1 <> px pt0 \/ py pt1 <> py pt0 ->
  divisor pt0 pt1 <> 0 ->
  ptx pt0 * ptx pt0 + pty pt0 * pty pt0 = 1 ->
  ptx pt1 * ptx pt1 + pty pt1 * pty pt1 = 1 ->
  ptx ptm * ptx ptm + pty ptm * pty ptm = 1
  /\ mirrored (px pt0) (py pt0) (ptx pt0) (pty pt0) (px ptm) (py ptm) (ptx ptm) (pty ptm)
  /\ mirrored (px ptm) (py ptm) (ptx ptm) (pty ptm) (px pt1) (py pt1) (ptx pt1) (pty pt1).
Proof.
  destruct pt0 as [x0 y0 tx0 ty0], pt1 as [x1 y1 tx1 ty1].
  cbv zeta. cbn [px py ptx pty]. intros Hne Hden H0 H1.
  unfold divisor in Hden. unfold biArcSplit.
  cbn [px py ptx pty add sub mul div lit Math_sqrt Number_R] in *.
  replace (Q2R 1) with 1 in * by (unfold Q2R; cbn; lra).
  set (dx := x1 - x0) in *. set (dy := y1 - y0) in *.
  assert (Hpos : 0 < dx * dx + dy * dy).
  { assert (dx <> 0 \/ dy <> 0) by (unfold dx, dy; destruct Hne; [left | right]; lra).
    destruct H; nra. }
  set (s := sqrt (dx * dx + dy * dy)) in *.
  assert (Hs : s * s = dx * dx + dy * dy) by (apply sqrt_sqrt; lra).
  assert (Hs0 : s <> 0) by (apply Rgt_not_eq, sqrt_lt_R0; exact Hpos).
  assert (Hm : dx / s * (dx / s) + dy / s * (dy / s) = 1).
  { transitivity ((dx * dx + dy * dy) / (s * s)); [field; exact Hs0 |].
    rewrite <- Hs. field. exact Hs0. }
  destruct (split_algebra dx dy s tx0 ty0 tx1 ty1 Hs Hs0 Hden) as [Ex Ey].
  cbv zeta in Ex, Ey.
  set (den := (tx0 * (dx / s) + ty0 * (dy / s) + 1) * (ty1 * dx - tx1 * dy)
              + (tx1 * (dx / s) + ty1 * (dy / s) + 1) * (tx0 * dy - ty0 * dx)) in *.
  split; [exact Hm |]. split.
  - now apply mirrored_bisector.
  - replace (x0 + (tx0 + dx / s) * (s / den * (ty1 * dx - tx1 * dy)))
      with (x1 - (dx / s + tx1) * (s / den * (tx0 * dy - ty0 * dx)))
      by (unfold dx in Ex at 1; lra).
    replace (y0 + (ty0 + dy / s) * (s / den * (ty1 * dx - tx1 * dy)))
      with (y1 - (dy / s + ty1) * (s / den * (tx0 * dy - ty0 * dx)))
      by (unfold dy in Ey at 1; lra).
    now apply mirrored_bisector_to.
Qed.

(** The junction of a quarter circle from (0, 0), heading along x, to (1, 1),
    heading along y. *)
Lemma biArcSplit_joins_arcs_witness :
  let pt0 := mkPT 0 0 1 0 in
  let pt1 := mkPT 1 1 0 1 in
  let ptm := biArcSplit pt0 pt1 in
  ptx ptm * ptx ptm + pty ptm * pty ptm = 1
  /\ mirrored (px pt0) (py pt0) (ptx pt0) (pty pt0) (px ptm) (py ptm) (ptx ptm) (pty ptm)
  /\ mirrored (px ptm) (py ptm) (ptx ptm) (pty ptm) (px pt1) (py pt1) (ptx pt1) (pty pt1).
Proof.
  cbv zeta. apply (biArcSplit_joins_arcs (mkPT 0 0 1 0) (mkPT 1 1 0 1)).
  - left. cbn. lra.
  - unfold divisor. cbn [add sub mul div lit Math_sqrt Number_R].
    replace (Q2R 1) with 1 by (unfold Q2R; cbn; lra).
    replace ((1 - 0) * (1 - 0) + (1 - 0) * (1 - 0)) with 2 by ring.
    assert (0 < sqrt 2) by (apply sqrt_lt_R0; lra).
    assert (0 < / sqrt 2) by now apply Rinv_0_lt_compat.
    unfold Rdiv. nra.
  - cbn. lra.
  - cbn. lra.
Defined.

End Exact.

End BiarcGeometry.

Module Rack.
Import Numeric.

Section MakeRack.
Context {num : Type} {number : Number num}.
Variables Math_sin Math_cos : num -> num.
Local Open Scope num_scope.


(** The calls a path function makes on its pen, in order. *)
Inductive PenCall : Type :=
  | moveTo (x y : num)
  | arcTo (x y turn : num).

(** [type PathFunc = (pen: Pen, doMove: boolean) => void] *)
Definition PathFunc : Type := bool -> list PenCall.



(** The point a call leaves the pen at. *)
Definition target (c : PenCall) : num * num :=
  match c with moveTo x y => (x, y) | arcTo x y _ => (x, y) end.

End MakeRack.


(** ** Results on [makeRack] *)
Local Open Scope float_scope.



End Rack.

Module XForm.
Import Numeric.

Section Pen.
Context {num : Type} {number : Number num}.
Variables Math_sin Math_cos : num -> num.
Local Open Scope num_scope.

(** The fields of [class XFormPen] that make the transform; the delegate pen
    takes no part in it. *)
Record XFormPen : Type := mkXFormPen {
  rotDegrees : num;
  scaleFactor : num;
  flipYinFac : num;
  xx : num;
  xy : num;
  tx : num;
  ty : num
}.

(** [constructor] *)
Definition newXFormPen : XFormPen :=
  mkXFormPen (lit 0) (lit 1.0) (lit 1.0) (lit 1.0) (lit 0.0) (lit 0.0) (lit 0.0).

Definition rotate (p : XFormPen) (degrees : num) : XFormPen :=
  let rotDegrees := rotDegrees p + degrees * flipYinFac p in
  let rotDegrees := rotDegrees - Math_floor (rotDegrees / lit 360.0) * lit 360.0 in
  let xx := Math_cos ((rotDegrees * Math_PI) / lit 180.0) in
  let xy := Math_sin ((rotDegrees * Math_PI) / lit 180.0) in
  let quarters := rotDegrees / lit 90 in
  let '(xx, xy) :=
    if Math_floor quarters =? quarters then
      if isEven quarters then (Math_sign xx, lit 0) else (lit 0, Math_sign xy)
    else (xx, xy) in
  let xx := xx * scaleFactor p in
  let xy := xy * scaleFactor p in
  mkXFormPen rotDegrees (scaleFactor p) (flipYinFac p) xx xy (tx p) (ty p).

Definition transformPoint (p : XFormPen) (x y : num) : num * num :=
  (tx p + x * xx p - y * flipYinFac p * xy p,
   ty p + x * xy p + y * flipYinFac p * xx p).

Definition translate (p : XFormPen) (x y : num) : XFormPen :=
  let '(tx', ty') := transformPoint p x y in
  mkXFormPen (rotDegrees p) (scaleFactor p) (flipYinFac p) (xx p) (xy p) tx' ty'.

Definition scale (p : XFormPen) (fac : num) (flipY : bool) : XFormPen :=
  let p :=
    if fac <? lit 0.0 then
      let p := rotate p (lit 180) in
      mkXFormPen (rotDegrees p) (scaleFactor p * - fac) (flipYinFac p) (xx p) (xy p) (tx p) (ty p)
    else
      mkXFormPen (rotDegrees p) (scaleFactor p * fac) (flipYinFac p) (xx p) (xy p) (tx p) (ty p) in
  let flipYinFac := if flipY then - flipYinFac p else flipYinFac p in
  let xx := Math_cos ((rotDegrees p * Math_PI) / lit 180.0) * scaleFactor p in
  let xy := Math_sin ((rotDegrees p * Math_PI) / lit 180.0) * scaleFactor p in
  mkXFormPen (rotDegrees p) (scaleFactor p) flipYinFac xx xy (tx p) (ty p).

Definition copy (p : XFormPen) : XFormPen :=
  scale (rotate (translate newXFormPen (tx p) (ty p)) (rotDegrees p))
        (scaleFactor p) (flipYinFac p <? lit 0.0).

End Pen.

(** ** The copy of a pen, over exact arithmetic *)
Section Exact.
Local Open Scope R_scope.

Abbreviation pen := (XFormPen (num := R)).
Abbreviation rotateR := (rotate (num := R) sin cos).
Abbreviation scaleR := (scale (num := R) sin cos).
Abbreviation copyR := (copy (num := R) sin cos).

(** [r - Math.floor(r / 360) * 360] lies in [0, 360) and is left alone there. *)
Definition wrap360 (r : R) : R := r - IZR (Int_part (r / 360)) * 360.

(** What the three operations keep: the angle is in [0, 360), the factor is
    not negative, the flip is 1 or -1, and the matrix is the one of angle and
    factor. *)
Definition consistent (p : pen) : Prop :=
  0 <= rotDegrees p < 360
  /\ 0 <= scaleFactor p
  /\ (flipYinFac p = 1 \/ flipYinFac p = -1)
  /\ xx p = cos (rotDegrees p * PI / 180) * scaleFactor p
  /\ xy p = sin (rotDegrees p * PI / 180) * scaleFactor p.

(** The pens built by a chain of calls on a new pen. *)
Inductive built : pen -> Prop :=
| built_new : built newXFormPen
| built_translate p x y : built p -> built (translate p x y)
| built_rotate p degrees : built p -> built (rotateR p degrees)
| built_scale p fac flipY : built p -> built (scaleR p fac flipY).

Lemma lit_360 : Q2R 360.0 = 360.
Proof. unfold Q2R. cbn. lra. Qed.

Lemma lit_180 : Q2R 180.0 = 180.
Proof. unfold Q2R. cbn. lra. Qed.

Lemma lit_180_int : Q2R 180 = 180.
Proof. unfold Q2R. cbn. lra. Qed.

Lemma lit_90 : Q2R 90 = 90.
Proof. unfold Q2R. cbn. lra. Qed.

Lemma lit_0 : Q2R 0 = 0.
Proof. unfold Q2R. cbn. lra. Qed.

Lemma lit_0_dec : Q2R 0.0 = 0.
Proof. unfold Q2R. cbn. lra. Qed.

Lemma lit_1 : Q2R 1.0 = 1.
Proof. unfold Q2R. cbn. lra. Qed.

Ltac lits := cbn [lit add sub mul div neg ltb leb eqb Math_floor Math_sign isEven Math_sqrt
                  Math_PI Number_R] in *;
             rewrite ?lit_360, ?lit_180, ?lit_180_int, ?lit_90, ?lit_0, ?lit_0_dec, ?lit_1 in *.

Lemma wrap360_range (r : R) : 0 <= wrap360 r < 360.
Proof.
  unfold wrap360. destruct (base_Int_part (r / 360)) as [H1 H2].
  replace r with (r / 360 * 360) at 1 3 by field. lra.
Qed.

Lemma Int_part_unit (x : R) : 0 <= x < 1 -> Int_part x = 0%Z.
Proof.
  intros [H0 H1]. destruct (base_Int_part x) as [B1 B2].
  assert (-1 < IZR (Int_part x) < 1) by lra.
  destruct H as [Ha Hb]. apply lt_IZR in Ha, Hb. lia.
Qed.

Lemma wrap360_idempotent (r : R) : 0 <= r < 360 -> wrap360 r = r.
Proof.
  intros H. unfold wrap360. rewrite Int_part_unit; [lra |]. lra.
Qed.

Lemma Rltb_zero (x : R) : Rltb x 0 = true <-> x < 0.
Proof. unfold Rltb. destruct (Rlt_dec x 0); split; intros; try easy. Qed.

Lemma rotate_rotDegrees (p : pen) (degrees : R) :
  rotDegrees (rotateR p degrees) = wrap360 (rotDegrees p + degrees * flipYinFac p).
Proof.
  unfold rotate. cbv zeta.
  destruct (_ =? _)%num; [destruct (isEven _) |]; cbn [rotDegrees];
    unfold wrap360; lits; reflexivity.
Qed.

Lemma rotate_frame (p : pen) (degrees : R) :
  scaleFactor (rotateR p degrees) = scaleFactor p
  /\ flipYinFac (rotateR p degrees) = flipYinFac p
  /\ tx (rotateR p degrees) = tx p
  /\ ty (rotateR p degrees) = ty p.
Proof.
  unfold rotate. cbv zeta.
  destruct (_ =? _)%num; [destruct (isEven _) |]; repeat split; reflexivity.
Qed.

(** At a multiple of 90 degrees the exact cosine and sine are already the
    values [rotate] writes there. *)
Lemma quarter_turns (r : R) :
  0 <= r < 360 -> IZR (Int_part (r / 90)) = r / 90 ->
  (Z.even (Rtrunc (r / 90)) = true
   /\ Rsign (cos (r * PI / 180)) = cos (r * PI / 180) /\ 0 = sin (r * PI / 180))
  \/ (Z.even (Rtrunc (r / 90)) = false
      /\ 0 = cos (r * PI / 180) /\ Rsign (sin (r * PI / 180)) = sin (r * PI / 180)).
Proof.
  intros Hr Hq. unfold Rtrunc. destruct (Rlt_dec (r / 90) 0) as [Hneg |]; [lra |].
  set (k := Int_part (r / 90)) in *.
  assert (Hk : (0 <= k < 4)%Z).
  { split; [apply le_IZR | apply lt_IZR]; rewrite Hq; lra. }
  assert (Er : r = IZR k * 90) by (rewrite Hq; field).
  assert (Hc : k = 0%Z \/ k = 1%Z \/ k = 2%Z \/ k = 3%Z) by lia.
  unfold Rsign.
  destruct Hc as [-> | [-> | [-> | ->]]]; rewrite Er.
  - left. replace (0 * 90 * PI / 180) with 0 by field. rewrite cos_0, sin_0.
    split; [reflexivity |]. split; [| reflexivity].
    destruct (Rlt_dec 1 0); [lra |]. destruct (Rlt_dec 0 1); [reflexivity | lra].
  - right. replace (1 * 90 * PI / 180) with (PI / 2) by field. rewrite cos_PI2, sin_PI2.
    split; [reflexivity |]. split; [reflexivity |].
    destruct (Rlt_dec 1 0); [lra |]. destruct (Rlt_dec 0 1); [reflexivity | lra].
  - left. replace (2 * 90 * PI / 180) with PI by field. rewrite cos_PI, sin_PI.
    split; [reflexivity |]. split; [| reflexivity].
    destruct (Rlt_dec (-1) 0); [reflexivity | lra].
  - right. replace (3 * 90 * PI / 180) with (3 * (PI / 2)) by field.
    rewrite cos_3PI2, sin_3PI2.
    split; [reflexivity |]. split; [reflexivity |].
    destruct (Rlt_dec (-1) 0); [reflexivity | lra].
Qed.

Lemma new_consistent : consistent newXFormPen.
Proof.
  unfold consistent, newXFormPen. cbn [rotDegrees scaleFactor flipYinFac xx xy]. lits.
  replace (0 * PI / 180) with 0 by field. rewrite cos_0, sin_0.
  repeat split; lra.
Qed.

Lemma translate_consistent (p : pen) (x y : R) :
  consistent p -> consistent (translate p x y).
Proof. intros H. exact H. Qed.

Lemma rotate_consistent (p : pen) (degrees : R) :
  consistent p -> consistent (rotateR p degrees).
Proof.
  intros (Hr & Hs & Hf & _ & _).
  pose proof (wrap360_range (rotDegrees p + degrees * flipYinFac p)) as Hw.
  unfold consistent. rewrite rotate_rotDegrees.
  destruct (rotate_frame p degrees) as (F1 & F2 & _). rewrite F1, F2.
  split; [exact Hw |]. split; [exact Hs |]. split; [exact Hf |].
  set (w := wrap360 (rotDegrees p + degrees * flipYinFac p)) in *.
  unfold rotate. cbv zeta. lits. fold (wrap360 (rotDegrees p + degrees * flipYinFac p)).
  fold w. unfold Reqb.
  destruct (Req_dec_T (IZR (Int_part (w / 90))) (w / 90)) as [Hq | Hq].
  - destruct (quarter_turns w Hw Hq) as [(E & Hc & Hsn) | (E & Hc & Hsn)]; rewrite E;
      cbn [xx xy].
    + rewrite Hc, <- Hsn. split; reflexivity.
    + rewrite Hsn, <- Hc. split; reflexivity.
  - cbn [xx xy]. split; reflexivity.
Qed.

Lemma scale_consistent (p : pen) (fac : R) (flipY : bool) :
  consistent p -> consistent (scaleR p fac flipY).
Proof.
  intros (Hr & Hs & Hf & _ & _). unfold scale, consistent. cbv zeta. lits.
  destruct (Rltb fac 0) eqn:E; cbn [rotDegrees scaleFactor flipYinFac xx xy].
  - apply Rltb_zero in E. rewrite rotate_rotDegrees.
    destruct (rotate_frame p 180) as (F1 & F2 & _). rewrite F1, F2.
    split; [apply wrap360_range |]. split; [nra |].
    split; [destruct flipY; lra |]. split; reflexivity.
  - assert (0 <= fac).
    { destruct (Rle_dec 0 fac); [assumption |]. assert (fac < 0) by lra.
      apply Rltb_zero in H. congruence. }
    split; [exact Hr |]. split; [nra |].
    split; [destruct flipY; lra |]. split; reflexivity.
Qed.

Lemma built_consistent (p : pen) : built p -> consistent p.
Proof.
  induction 1; auto using new_consistent, translate_consistent, rotate_consistent,
                 scale_consistent.
Qed.

Lemma copy_consistent (p : pen) : consistent p -> copyR p = p.
Proof.
  intros (Hr & Hs & Hf & Hxx & Hxy). unfold copy.
  set (t := translate newXFormPen (tx p) (ty p)).
  assert (Ht : rotDegrees t = 0 /\ scaleFactor t = 1 /\ flipYinFac t = 1
               /\ tx t = tx p /\ ty t = ty p).
  { unfold t, translate, transformPoint, newXFormPen.
    cbn [rotDegrees scaleFactor flipYinFac xx xy tx ty]. lits. repeat split; lra. }
  destruct Ht as (T1 & T2 & T3 & T4 & T5).
  set (q := rotateR t (rotDegrees p)).
  pose proof (rotate_rotDegrees t (rotDegrees p)) as Q1. fold q in Q1.
  destruct (rotate_frame t (rotDegrees p)) as (Q2 & Q3 & Q4 & Q5). fold q in Q2, Q3, Q4, Q5.
  rewrite T1, T3 in Q1. replace (0 + rotDegrees p * 1) with (rotDegrees p) in Q1 by lra.
  rewrite wrap360_idempotent in Q1 by exact Hr.
  unfold scale. cbv zeta. lits.
  assert (E1 : Rltb (scaleFactor p) 0 = false).
  { destruct (Rltb (scaleFactor p) 0) eqn:E; [apply Rltb_zero in E; lra | reflexivity]. }
  rewrite E1. cbn [rotDegrees scaleFactor flipYinFac xx xy tx ty].
  rewrite Q1, Q2, Q3, Q4, Q5, T2, T3, T4, T5.
  replace (1 * scaleFactor p) with (scaleFactor p) by lra.
  rewrite <- Hxx, <- Hxy.
  assert (E2 : (if Rltb (flipYinFac p) 0 then - (1) else 1) = flipYinFac p).
  { destruct (Rltb (flipYinFac p) 0) eqn:E.
    - apply Rltb_zero in E. lra.
    - destruct Hf as [Hf | Hf]; [lra |]. assert (flipYinFac p < 0) by lra.
      apply Rltb_zero in H. congruence. }
  rewrite E2. destruct p; reflexivity.
Qed.

(** Over exact arithmetic, with the exact sine and cosine: the copy of a pen
    built by any chain of [translate], [rotate] and [scale] calls is that pen,
    so the two map every point to the same point. *)
Theorem copy_exact (p : pen) (x y : R) :
  built p -> copyR p = p /\ transformPoint (copyR p) x y = transformPoint p x y.
Proof.
  intros H. apply built_consistent, copy_consistent in H.
  split; [exact H | now rewrite H].
Qed.

Lemma copy_exact_witness :
  let p := scaleR (rotateR (translate newXFormPen 3 4) 30) 2 false in
  built p /\ copyR p = p.
Proof.
  cbv zeta. split; [repeat constructor |].
  apply (copy_exact _ 0 0). repeat constructor.
Defined.

(** *** What the three operations do to the map *)

Lemma cos_turns (x : R) (k : Z) : cos (x - IZR k * (2 * PI)) = cos x.
Proof.
  destruct (Z_le_gt_dec 0 k) as [Hk | Hk].
  - rewrite <- (Z2Nat.id k Hk), <- INR_IZR_INZ.
    rewrite <- (cos_period (x - INR (Z.to_nat k) * (2 * PI)) (Z.to_nat k)).
    f_equal. ring.
  - replace k with (- Z.of_nat (Z.to_nat (- k)))%Z by lia.
    rewrite opp_IZR, <- INR_IZR_INZ.
    replace (x - - INR (Z.to_nat (- k)) * (2 * PI))
      with (x + 2 * INR (Z.to_nat (- k)) * PI) by ring.
    apply cos_period.
Qed.

Lemma sin_turns (x : R) (k : Z) : sin (x - IZR k * (2 * PI)) = sin x.
Proof.
  destruct (Z_le_gt_dec 0 k) as [Hk | Hk].
  - rewrite <- (Z2Nat.id k Hk), <- INR_IZR_INZ.
    rewrite <- (sin_period (x - INR (Z.to_nat k) * (2 * PI)) (Z.to_nat k)).
    f_equal. ring.
  - replace k with (- Z.of_nat (Z.to_nat (- k)))%Z by lia.
    rewrite opp_IZR, <- INR_IZR_INZ.
    replace (x - - INR (Z.to_nat (- k)) * (2 * PI))
      with (x + 2 * INR (Z.to_nat (- k)) * PI) by ring.
    apply sin_period.
Qed.

Lemma wrap360_radians (r : R) :
  wrap360 r * PI / 180 = r * PI / 180 - IZR (Int_part (r / 360)) * (2 * PI).
Proof. unfold wrap360. field. Qed.

(** The matrix after [rotate]: the angle grows by [degrees * flipYinFac]. *)
Lemma rotate_matrix (p : pen) (degrees : R) :
  consistent p ->
  xx (rotateR p degrees)
  = cos ((rotDegrees p + degrees * flipYinFac p) * PI / 180) * scaleFactor p
  /\ xy (rotateR p degrees)
     = sin ((rotDegrees p + degrees * flipYinFac p) * PI / 180) * scaleFactor p.
Proof.
  intros H. destruct (rotate_consistent p degrees H) as (_ & _ & _ & Hx & Hy).
  destruct (rotate_frame p degrees) as (F1 & _).
  rewrite Hx, Hy, F1, rotate_rotDegrees, wrap360_radians, cos_turns, sin_turns.
  split; reflexivity.
Qed.

Lemma transformPoint_translate (p : pen) (a b x y : R) :
  transformPoint (translate p a b) x y = transformPoint p (x + a) (y + b).
Proof.
  unfold translate, transformPoint. cbn [tx ty xx xy flipYinFac]. lits.
  f_equal; ring.
Qed.

Lemma transformPoint_rotate (p : pen) (degrees x y : R) :
  consistent p ->
  let d := degrees * PI / 180 in
  transformPoint (rotateR p degrees) x y
  = transformPoint p (x * cos d - y * sin d) (x * sin d + y * cos d).
Proof.
  intros H. cbv zeta. destruct (rotate_matrix p degrees H) as [Hx Hy].
  destruct (rotate_frame p degrees) as (F1 & F2 & F3 & F4).
  destruct H as (_ & _ & Hf & Cx & Cy).
  unfold transformPoint. rewrite Hx, Hy, F2, F3, F4, Cx, Cy. lits.
  set (r := rotDegrees p * PI / 180). set (d := degrees * PI / 180).
  destruct Hf as [-> | ->].
  - replace ((rotDegrees p + degrees * 1) * PI / 180) with (r + d) by (unfold r, d; field).
    rewrite cos_plus, sin_plus. f_equal; ring.
  - replace ((rotDegrees p + degrees * -1) * PI / 180) with (r - d) by (unfold r, d; field).
    rewrite cos_minus, sin_minus. f_equal; ring.
Qed.

Lemma half_turn (r f : R) :
  f = 1 \/ f = -1 ->
  cos ((r + 180 * f) * PI / 180) = - cos (r * PI / 180)
  /\ sin ((r + 180 * f) * PI / 180) = - sin (r * PI / 180).
Proof.
  intros [-> | ->].
  - replace ((r + 180 * 1) * PI / 180) with (r * PI / 180 + PI) by field.
    split; [apply neg_cos | apply neg_sin].
  - replace ((r + 180 * -1) * PI / 180) with (r * PI / 180 - PI) by field.
    rewrite cos_minus, sin_minus, cos_PI, sin_PI. split; ring.
Qed.

Lemma transformPoint_scale (p : pen) (fac : R) (flipY : bool) (x y : R) :
  consistent p ->
  transformPoint (scaleR p fac flipY) x y
  = transformPoint p (fac * x) (if flipY then - (fac * y) else fac * y).
Proof.
  intros H. pose proof H as (_ & _ & Hf & Cx & Cy).
  unfold scale, transformPoint. cbv zeta. lits.
  destruct (Rltb fac 0) eqn:E; cbn [rotDegrees scaleFactor flipYinFac xx xy tx ty].
  - destruct (rotate_frame p 180) as (F1 & F2 & F3 & F4).
    rewrite rotate_rotDegrees, wrap360_radians, cos_turns, sin_turns, F1, F2, F3, F4.
    destruct (half_turn (rotDegrees p) (flipYinFac p) Hf) as [-> ->].
    rewrite Cx, Cy. destruct flipY; f_equal; ring.
  - rewrite Cx, Cy. destruct flipY; f_equal; ring.
Qed.

(** Over exact arithmetic, every pen, built or not: after [translate(a, b)]
    the pen maps a point to where it mapped the point moved by (a, b). *)
Theorem translate_composes (p : pen) (a b x y : R) :
  transformPoint (translate p a b) x y = transformPoint p (x + a) (y + b).
Proof. apply transformPoint_translate. Qed.

(** Over exact arithmetic, for a pen built by any chain of calls: after
    [rotate(degrees)] it maps a point to where it mapped the point turned by
    that angle, x axis toward y axis; after [scale(fac, flipY)] to where it
    mapped the point scaled by [fac], with y negated when [flipY] is set; a
    negative [fac] included. *)
Theorem rotate_scale_compose (p : pen) (degrees fac : R) (flipY : bool) (x y : R) :
  built p ->
  let d := degrees * PI / 180 in
  transformPoint (rotateR p degrees) x y
  = transformPoint p (x * cos d - y * sin d) (x * sin d + y * cos d)
  /\ transformPoint (scaleR p fac flipY) x y
     = transformPoint p (fac * x) (if flipY then - (fac * y) else fac * y).
Proof.
  intros H. apply built_consistent in H. cbv zeta. split.
  - now apply transformPoint_rotate.
  - now apply transformPoint_scale.
Qed.

Lemma rotate_scale_compose_witness :
  let p := scaleR (translate newXFormPen 3 4) 2 true in
  let d := 30 * PI / 180 in
  transformPoint (rotateR p 30) 1 0
  = transformPoint p (1 * cos d - 0 * sin d) (1 * sin d + 0 * cos d)
  /\ transformPoint (scaleR p (-5) false) 1 0
     = transformPoint p (-5 * 1) (-5 * 0).
Proof.
  cbv zeta.
  apply (rotate_scale_compose (scaleR (translate newXFormPen 3 4) 2 true) 30 (-5) false 1 0).
  repeat constructor.
Defined.

End Exact.

(** ** The copy of a pen, over doubles *)
Section Doubles.
Variables Math_sin Math_cos : float -> float.
Local Open Scope float_scope.

(** Whatever [Math.sin] and [Math.cos] return: [rotate] sets the matrix entry
    of a quarter turn to 0, [copy] ends in [scale], which takes it from
    [Math.cos] again.  After [scale(100000).rotate(90)] the pen has [xx] 0 and
    its copy has [Math.cos(1.5707963267948966) * 100000]. *)
Theorem copy_after_quarter_turn :
  let pen := rotate Math_sin Math_cos (scale Math_sin Math_cos newXFormPen 100000 false) 90 in
  rotDegrees pen = 90 /\ scaleFactor pen = 100000
  /\ xx pen = 0
  /\ rotDegrees (copy Math_sin Math_cos pen) = 90
  /\ scaleFactor (copy Math_sin Math_cos pen) = 100000
  /\ xx (copy Math_sin Math_cos pen) = Math_cos 0x1.921fb54442d18p+0 * 100000.
Proof. cbv zeta. repeat split; vm_compute; reflexivity. Qed.

(** A tiny negative angle is wrapped to 360 itself, not below it, and the copy
    of that pen has angle 0: the pen takes [xy] from
    [Math.sin(6.283185307179586)] and the copy from [Math.sin(0)]. *)
Theorem copy_after_full_turn :
  let pen := scale Math_sin Math_cos (rotate Math_sin Math_cos newXFormPen (-1e-20)) 1 false in
  rotDegrees pen = 360
  /\ xy pen = Math_sin 0x1.921fb54442d18p+2 * 1
  /\ rotDegrees (copy Math_sin Math_cos pen) = 0
  /\ xy (copy Math_sin Math_cos pen) = Math_sin 0 * 1.
Proof. cbv zeta. repeat split; vm_compute; reflexivity. Qed.

End Doubles.

End XForm.

Module RecordingPen.

(** The text of the error [arcTo] throws. *)
Module Error.
Import Stdlib.Strings.String.
Definition arcWithoutMove : string := "arc without preceding move in RecordingPen".
End Error.

Import F64.
Local Open Scope float_scope.

(** The calls a path function makes on its pen, over doubles. *)
Definition PenCall : Type := Rack.PenCall (num := float).
Definition PathFunc : Type := Rack.PathFunc (num := float).

(** [class RecordingPen]: three arrays, filled side by side; a null turn marks
    a move. *)
Record RecordingPen : Type := mkRecordingPen {
  xs : list float;
  ys : list float;
  turns : list (option float)
}.

Definition newRecordingPen : RecordingPen := mkRecordingPen [] [] [].

(** [xs.push(x); ys.push(y); turns.push(turn)] *)
Definition push (p : RecordingPen) (x y : float) (turn : option float) : RecordingPen :=
  mkRecordingPen (xs p ++ [x]) (ys p ++ [y]) (turns p ++ [turn]).

(** [turns.pop(); xs.pop(); ys.pop()] *)
Definition pop (p : RecordingPen) : RecordingPen :=
  mkRecordingPen (removelast (xs p)) (removelast (ys p)) (removelast (turns p)).

(** [turns.length && turns[turns.length - 1] == null] *)
Definition endsInMove (p : RecordingPen) : bool :=
  match turns p with
  | [] => false
  | _ => match last (turns p) None with None => true | Some _ => false end
  end.

Definition moveTo (p : RecordingPen) (x y : float) : RecordingPen :=
  let p := if endsInMove p then pop p else p in
  push p x y None.

(** How a call ends: it returns, or it throws an [Error]; [p] is the pen as
    the call leaves it. *)
Inductive Outcome : Type :=
  | Returned (p : RecordingPen)
  | Threw (message : String.string) (p : RecordingPen).

(** [dx * dx + dy * dy] from the last recorded point to (x, y). *)
Definition mag2 (p : RecordingPen) (x y : float) : float :=
  let i := (length (turns p) - 1)%nat in
  let dx := x - nth i (xs p) nan in
  let dy := y - nth i (ys p) nan in
  dx * dx + dy * dy.

Definition arcTo (p : RecordingPen) (x y turn : float) : Outcome :=
  match turns p with
  | [] => Threw Error.arcWithoutMove p
  | _ =>
      if mag2 p x y <? 1e-14 then Returned p
      else
        let turn := if mag2 p x y <? 1e-8 then 0 else turn in
        Returned (push p x y (Some turn))
  end.

(** [countSegments] *)
Definition countSegments (p : RecordingPen) : nat :=
  length (filter (fun t => match t with Some _ => true | None => false end) (turns p)).

(** The call [path] makes for index [i]. *)
Definition entry (p : RecordingPen) (i : nat) : PenCall :=
  let x := nth i (xs p) nan in
  let y := nth i (ys p) nan in
  match nth i (turns p) None with
  | None => Rack.moveTo x y
  | Some a => Rack.arcTo x y a
  end.

(** [while (i < turns.length && turns[i] == null) ++i] *)
Fixpoint leadingMoves (turns : list (option float)) : nat :=
  match turns with
  | None :: rest => S (leadingMoves rest)
  | _ => O
  end.

(** [path]: the calls it makes on the pen it is given, in order. *)
Definition path (p : RecordingPen) : PathFunc :=
  fun doMove =>
    let i := if doMove then O else leadingMoves (turns p) in
    map (entry p) (seq i (length (turns p) - i)).

(** A path function drives a recording pen: the calls in order, up to the
    first that throws. *)
Definition call (p : RecordingPen) (c : PenCall) : Outcome :=
  match c with
  | Rack.moveTo x y => Returned (moveTo p x y)
  | Rack.arcTo x y turn => arcTo p x y turn
  end.

Fixpoint draw (p : RecordingPen) (calls : list PenCall) : Outcome :=
  match calls with
  | [] => Returned p
  | c :: rest =>
      match call p c with
      | Returned p' => draw p' rest
      | Threw m p' => Threw m p'
      end
  end.

(** The pens a program can hold: a new one, and what calls that return make
    of one. *)
Inductive reachable : RecordingPen -> Prop :=
  | reach_new : reachable newRecordingPen
  | reach_moveTo p x y : reachable p -> reachable (moveTo p x y)
  | reach_arcTo p x y turn p' :
      reachable p -> arcTo p x y turn = Returned p' -> reachable p'.

(** ** Results *)

(** The recordings in canonical form: a move is pushed only after an arc (or
    first), an arc only after some entry, at least 1e-7 away from it in the
    test of [arcTo], and with turn 0 when nearer than 1e-4 in that test. *)
Inductive recorded : RecordingPen -> Prop :=
  | rec_new : recorded newRecordingPen
  | rec_move p x y :
      recorded p -> endsInMove p = false -> recorded (push p x y None)
  | rec_arc p x y turn :
      recorded p -> turns p <> [] ->
      (mag2 p x y <? 1e-14) = false ->
      ((mag2 p x y <? 1e-8) = true -> turn = 0) ->
      recorded (push p x y (Some turn)).

Lemma recorded_lengths (p : RecordingPen) :
  recorded p -> length (xs p) = length (turns p) /\ length (ys p) = length (turns p).
Proof.
  induction 1 as [| p x y _ [IH1 IH2] _ | p x y turn _ [IH1 IH2] _ _ _]; cbn;
    rewrite ?length_app; cbn; auto.
Qed.

Lemma pop_push (p : RecordingPen) (x y : float) (t : option float) : pop (push p x y t) = p.
Proof. unfold pop, push. cbn. rewrite !removelast_last. destruct p; reflexivity. Qed.

Lemma endsInMove_push (p : RecordingPen) (x y : float) (t : option float) :
  endsInMove (push p x y t) = match t with None => true | Some _ => false end.
Proof.
  unfold endsInMove, push. cbn. rewrite last_last.
  destruct (turns p ++ [t]) eqn:E; [destruct (turns p); discriminate | reflexivity].
Qed.

(** A recording that ends in a move is a recording that does not, with the
    move pushed. *)
Lemma recorded_pop (p : RecordingPen) :
  recorded p -> endsInMove p = true -> recorded (pop p) /\ endsInMove (pop p) = false.
Proof.
  intros H E. destruct H as [| p x y H E' | p x y turn H _ _ _].
  - discriminate.
  - rewrite pop_push. auto.
  - rewrite endsInMove_push in E. discriminate.
Qed.

Lemma moveTo_recorded (p : RecordingPen) (x y : float) :
  recorded p -> recorded (moveTo p x y).
Proof.
  intros H. unfold moveTo. destruct (endsInMove p) eqn:E.
  - destruct (recorded_pop p H E) as [H1 H2]. now apply rec_move.
  - now apply rec_move.
Qed.

Lemma arcTo_recorded (p : RecordingPen) (x y turn : float) (p' : RecordingPen) :
  recorded p -> arcTo p x y turn = Returned p' -> recorded p'.
Proof.
  intros H. unfold arcTo. destruct (turns p) eqn:Et; [discriminate |].
  destruct (mag2 p x y <? 1e-14) eqn:E1.
  - intros [= <-]. exact H.
  - intros [= <-]. apply rec_arc; auto.
    + rewrite Et. discriminate.
    + intros E2. rewrite E2. reflexivity.
Qed.

Lemma reachable_recorded (p : RecordingPen) : reachable p -> recorded p.
Proof.
  induction 1; eauto using rec_new, moveTo_recorded, arcTo_recorded.
Qed.

Lemma recorded_reachable (p : RecordingPen) : recorded p -> reachable p.
Proof.
  induction 1 as [| p x y H IH E | p x y turn H IH Ht E1 E2].
  - constructor.
  - replace (push p x y None) with (moveTo p x y) by (unfold moveTo; now rewrite E).
    now constructor.
  - apply (reach_arcTo p x y turn); [exact IH |].
    unfold arcTo. destruct (turns p); [congruence |]. rewrite E1.
    destruct (mag2 p x y <? 1e-8); [rewrite E2 |]; reflexivity.
Qed.

Lemma entry_push_old (p : RecordingPen) (x y : float) (t : option float) (i : nat) :
  length (xs p) = length (turns p) -> length (ys p) = length (turns p) ->
  (i < length (turns p))%nat -> entry (push p x y t) i = entry p i.
Proof.
  intros L1 L2 Hi. unfold entry, push. cbn.
  rewrite !app_nth1 by lia. reflexivity.
Qed.

Lemma entry_push_new (p : RecordingPen) (x y : float) (t : option float) :
  length (xs p) = length (turns p) -> length (ys p) = length (turns p) ->
  entry (push p x y t) (length (turns p))
  = match t with None => Rack.moveTo x y | Some a => Rack.arcTo x y a end.
Proof.
  intros L1 L2. unfold entry, push. cbn [xs ys turns].
  rewrite nth_middle.
  replace (nth (length (turns p)) (xs p ++ [x]) nan) with x
    by (rewrite <- L1; now rewrite nth_middle).
  replace (nth (length (turns p)) (ys p ++ [y]) nan) with y
    by (rewrite <- L2; now rewrite nth_middle).
  reflexivity.
Qed.

Lemma path_push (p : RecordingPen) (x y : float) (t : option float) :
  recorded p ->
  path (push p x y t) true
  = path p true ++ [match t with None => Rack.moveTo x y | Some a => Rack.arcTo x y a end].
Proof.
  intros H. destruct (recorded_lengths p H) as [L1 L2].
  unfold path. rewrite !Nat.sub_0_r.
  replace (length (turns (push p x y t))) with (S (length (turns p)))
    by (cbn; rewrite length_app; cbn; lia).
  rewrite seq_S, map_app. cbn [map Nat.add]. f_equal.
  - apply map_ext_in. intros i Hi. apply in_seq in Hi. apply entry_push_old; auto. lia.
  - f_equal. now apply entry_push_new.
Qed.

Lemma draw_app (p : RecordingPen) (l1 l2 : list PenCall) (p1 : RecordingPen) :
  draw p l1 = Returned p1 -> draw p (l1 ++ l2) = draw p1 l2.
Proof.
  revert p. induction l1 as [| c l1 IH]; intros p; cbn.
  - now intros [= ->].
  - destruct (call p c); [apply IH | discriminate].
Qed.

Definition penAfter (o : Outcome) : RecordingPen :=
  match o with Returned p => p | Threw _ p => p end.

Lemma draw_reachable (p : RecordingPen) (calls : list PenCall) (p' : RecordingPen) :
  reachable p -> draw p calls = Returned p' -> reachable p'.
Proof.
  revert p. induction calls as [| c calls IH]; intros p H; cbn.
  - now intros [= <-].
  - destruct (call p c) as [p1 | m p1] eqn:E; [| discriminate].
    apply IH. destruct c as [x y | x y turn]; cbn in E.
    + injection E as <-. now constructor.
    + now apply (reach_arcTo p x y turn).
Qed.

(** Replaying a recording into a new [RecordingPen] records it again: nothing
    is dropped, merged or flattened the second time. *)
Theorem path_replay (p : RecordingPen) :
  reachable p -> draw newRecordingPen (path p true) = Returned p.
Proof.
  intros H. apply reachable_recorded in H.
  induction H as [| p x y H IH E | p x y turn H IH Ht E1 E2].
  - reflexivity.
  - rewrite path_push by exact H. rewrite (draw_app _ _ _ _ IH). cbn.
    unfold moveTo. rewrite E. reflexivity.
  - rewrite path_push by exact H. rewrite (draw_app _ _ _ _ IH). cbn.
    unfold arcTo. destruct (turns p); [congruence |]. rewrite E1.
    destruct (mag2 p x y <? 1e-8); [rewrite E2 |]; reflexivity.
Qed.

Lemma path_replay_witness :
  let p := penAfter (draw newRecordingPen
                       [Rack.moveTo 5 5; Rack.moveTo 0 0; Rack.arcTo 1 0 0.5;
                        Rack.arcTo 1 0.00001 0.5; Rack.arcTo 1 0.00001 0.5]) in
  draw newRecordingPen (path p true) = Returned p.
Proof.
  cbv zeta. apply path_replay.
  apply (draw_reachable newRecordingPen
           [Rack.moveTo 5 5; Rack.moveTo 0 0; Rack.arcTo 1 0 0.5;
            Rack.arcTo 1 0.00001 0.5; Rack.arcTo 1 0.00001 0.5]);
    [apply reach_new | vm_compute; reflexivity].
Defined.

(** [isMove] and [isArc] tell the two calls apart. *)
Definition isArc (c : PenCall) : bool :=
  match c with Rack.arcTo _ _ _ => true | Rack.moveTo _ _ => false end.

(** No two moves in a row. *)
Fixpoint noDoubleMove (ts : list (option float)) : bool :=
  match ts with
  | None :: ((None :: _) as rest) => false
  | _ :: rest => noDoubleMove rest
  | [] => true
  end.

Definition startsWithMove (ts : list (option float)) : bool :=
  match ts with
  | [] | None :: _ => true
  | Some _ :: _ => false
  end.

Lemma noDoubleMove_snoc (ts : list (option float)) (t : option float) :
  noDoubleMove (ts ++ [t])
  = noDoubleMove ts
    && negb (match ts, last ts (Some 0), t with
             | _ :: _, None, None => true
             | _, _, _ => false
             end).
Proof.
  induction ts as [| a ts IH]; [destruct t; reflexivity |].
  destruct ts as [| b ts].
  - destruct a, t; reflexivity.
  - change ((a :: b :: ts) ++ [t]) with (a :: (b :: ts) ++ [t]).
    change (last (a :: b :: ts) (Some 0)) with (last (b :: ts) (Some 0)).
    destruct a as [a |]; cbn [noDoubleMove app] in *.
    + rewrite IH. reflexivity.
    + destruct b as [b |]; [| reflexivity]. rewrite IH. reflexivity.
Qed.

Lemma endsInMove_last (p : RecordingPen) :
  endsInMove p = match turns p, last (turns p) (Some 0) with
                 | _ :: _, None => true
                 | _, _ => false
                 end.
Proof.
  unfold endsInMove. destruct (turns p) as [| a ts]; [reflexivity |].
  assert (H : forall d d', last (a :: ts) d = last (a :: ts) d').
  { revert a. induction ts as [| b ts IH]; intros a d d'; [reflexivity |].
    change (last (b :: ts) d = last (b :: ts) d'). apply IH. }
  rewrite (H None (Some 0)). reflexivity.
Qed.

Lemma recorded_shape (p : RecordingPen) :
  recorded p ->
  length (xs p) = length (turns p) /\ length (ys p) = length (turns p)
  /\ startsWithMove (turns p) = true
  /\ noDoubleMove (turns p) = true.
Proof.
  intros H.
  destruct (recorded_lengths p H) as [L1 L2]. split; [exact L1 |]. split; [exact L2 |].
  clear L1 L2. induction H as [| p x y H [I1 I2] E | p x y turn H [I1 I2] Ht E1 E2].
  - split; reflexivity.
  - cbn [turns push]. split.
    + destruct (turns p) as [| [a |] ts]; [reflexivity | discriminate | reflexivity].
    + rewrite noDoubleMove_snoc, I2. rewrite endsInMove_last in E.
      destruct (turns p); [reflexivity |]. destruct (last _ _); [reflexivity | discriminate].
  - cbn [turns push]. split.
    + destruct (turns p) as [| [a |] ts]; [congruence | discriminate | reflexivity].
    + rewrite noDoubleMove_snoc, I2. destruct (turns p); [reflexivity |].
      destruct (last _ _); reflexivity.
Qed.

(** The three arrays of a pen have one length; a recording starts with a
    move, and never holds two moves in a row: a move on a move replaces it. *)
Theorem reachable_invariant (p : RecordingPen) :
  reachable p ->
  length (xs p) = length (turns p) /\ length (ys p) = length (turns p)
  /\ startsWithMove (turns p) = true
  /\ noDoubleMove (turns p) = true.
Proof. intros H. now apply recorded_shape, reachable_recorded. Qed.

Lemma reachable_invariant_witness :
  let p := moveTo (moveTo newRecordingPen 5 5) 0 0 in
  length (xs p) = length (turns p) /\ length (ys p) = length (turns p)
  /\ startsWithMove (turns p) = true
  /\ noDoubleMove (turns p) = true.
Proof.
  cbv zeta. apply (reachable_invariant (moveTo (moveTo newRecordingPen 5 5) 0 0)).
  apply reach_moveTo, reach_moveTo, reach_new.
Defined.

Lemma path_true_false (p : RecordingPen) :
  startsWithMove (turns p) = true -> noDoubleMove (turns p) = true -> turns p <> [] ->
  path p true = entry p 0 :: path p false
  /\ isArc (entry p 0) = false
  /\ isArc (hd (Rack.arcTo 0 0 0) (path p false)) = true.
Proof.
  intros S1 S2 Hne. unfold path.
  destruct (turns p) as [| [a |] ts] eqn:Et; [congruence | discriminate |].
  assert (Hl : leadingMoves (None :: ts) = 1%nat).
  { destruct ts as [| [b |] ts']; [reflexivity | reflexivity | discriminate]. }
  rewrite Hl. cbn [length]. rewrite Nat.sub_0_r.
  replace (S (length ts) - 1)%nat with (length ts) by lia.
  split; [reflexivity |]. split.
  - unfold entry. rewrite Et. reflexivity.
  - destruct ts as [| [b |] ts']; [reflexivity | | discriminate].
    cbn [length seq map hd]. unfold entry. rewrite Et. reflexivity.
Qed.

(** Without the initial move, [path] makes the same calls less the first,
    which is the recording's only leading [moveTo]: what is left starts with
    an [arcTo], if it starts at all. *)
Theorem path_without_move (p : RecordingPen) :
  reachable p -> turns p <> [] ->
  path p true = entry p 0 :: path p false
  /\ isArc (entry p 0) = false
  /\ isArc (hd (Rack.arcTo 0 0 0) (path p false)) = true.
Proof.
  intros H Hne.
  destruct (recorded_shape p (reachable_recorded p H)) as (_ & _ & S1 & S2).
  now apply path_true_false.
Qed.

Lemma path_without_move_witness :
  let p := moveTo (moveTo newRecordingPen 5 5) 0 0 in
  path p true = entry p 0 :: path p false
  /\ isArc (entry p 0) = false
  /\ isArc (hd (Rack.arcTo 0 0 0) (path p false)) = true.
Proof.
  cbv zeta. apply (path_without_move (moveTo (moveTo newRecordingPen 5 5) 0 0)).
  - apply reach_moveTo, reach_moveTo, reach_new.
  - discriminate.
Defined.

Lemma countSegments_push (p : RecordingPen) (x y : float) (t : option float) :
  countSegments (push p x y t)
  = (countSegments p + match t with Some _ => 1 | None => 0 end)%nat.
Proof.
  unfold countSegments, push. cbn [turns]. rewrite filter_app, length_app.
  destruct t; reflexivity.
Qed.

(** [countSegments] is the number of [arcTo] calls [path] makes, with or
    without the initial move. *)
Theorem countSegments_path (p : RecordingPen) (doMove : bool) :
  reachable p -> countSegments p = length (filter isArc (path p doMove)).
Proof.
  intros H.
  assert (Ht : countSegments p = length (filter isArc (path p true))).
  { apply reachable_recorded in H.
    induction H as [| p x y H IH E | p x y turn H IH Ht E1 E2].
    - reflexivity.
    - rewrite path_push by exact H. rewrite countSegments_push, filter_app, length_app, IH.
      reflexivity.
    - rewrite path_push by exact H. rewrite countSegments_push, filter_app, length_app, IH.
      reflexivity. }
  destruct doMove; [exact Ht |].
  destruct (turns p) eqn:Et.
  - unfold countSegments, path. rewrite Et. reflexivity.
  - destruct (recorded_shape p (reachable_recorded p H)) as (_ & _ & S1 & S2).
    destruct (path_true_false p S1 S2) as (E1 & E2 & _); [rewrite Et; discriminate |].
    rewrite Ht, E1. cbn [filter]. rewrite E2. reflexivity.
Qed.

Lemma countSegments_path_witness :
  let p := moveTo (moveTo newRecordingPen 5 5) 0 0 in
  countSegments p = length (filter isArc (path p false)).
Proof.
  cbv zeta. apply (countSegments_path (moveTo (moveTo newRecordingPen 5 5) 0 0) false).
  apply reach_moveTo, reach_moveTo, reach_new.
Defined.

End RecordingPen.

Module GearCutter.
Import Stdlib.Strings.String.
Import F64.
Local Open Scope float_scope.

Section Cutter.
(** [Math.atan2], which the doubles of the prover do not provide. *)
Variable Math_atan2 : float -> float -> float.

Definition Math_PI : float := 0x1.921fb54442d18p+1.

(** ** CircleCut: the constructor and [getThetaForT] *)
Record Reversal : Type := mkReversal {
  tstart : float; tend : float; thetaStart : float; thetaEnd : float
}.

Record CircleCut : Type := mkCircleCut {
  arcTolerance : float;
  x0 : float; x1 : float; y0 : float; y1 : float; a0 : float; a1 : float;
  DNUM : float; DA : float; DB : float; mag02 : float;
  thetaMidpoint : float; tmidpoint : float;
  reversal : option Reversal
}.

(** [getThetaForT] reads the six end values only. *)
Definition thetaForT (x0 y0 a0 x1 y1 a1 t : float) : float :=
  let invt := 1.0 - t in
  let y := y1 + (y0 - y1) * invt in
  let x := x1 + (x0 - x1) * invt in
  let a := a1 + (a0 - a1) * invt in
  Math_atan2 y x - a.

Definition getThetaForT (c : CircleCut) (t : float) : float :=
  thetaForT (x0 c) (y0 c) (a0 c) (x1 c) (y1 c) (a1 c) t.

Definition newCircleCut (a0 x0 y0 a1 x1 y1 arcTol : float) : CircleCut :=
  let '(a0, a1, x0, x1, y0, y1) :=
    if a1 <? a0 then (a1, a0, x1, x0, y1, y0) else (a0, a1, x0, x1, y0, y1) in
  let dx := x1 - x0 in
  let dy := y1 - y0 in
  let da := a1 - a0 in
  let DNUM := x0 * dy - y0 * dx in
  let DA := dx * dx + dy * dy in
  let DB := 2.0 * (x0 * dx + y0 * dy) in
  let mag02 := x0 * x0 + y0 * y0 in
  let DC := mag02 - DNUM / da in
  let disc := DB * DB - 4 * DA * DC in
  let tmidpoint := - DB / (2.0 * DA) in
  let thetaMidpoint := thetaForT x0 y0 a0 x1 y1 a1 tmidpoint in
  let reversal :=
    if 0.0 <? disc then
      let root := Math_sqrt disc in
      let tstart := Math_max ((- DB - root) / (2.0 * DA)) 0 in
      let tend := Math_min ((- DB + root) / (2.0 * DA)) 1 in
      if tstart <? tend
      then Some (mkReversal tstart tend (thetaForT x0 y0 a0 x1 y1 a1 tstart)
                            (thetaForT x0 y0 a0 x1 y1 a1 tend))
      else None
    else None in
  mkCircleCut arcTol x0 x1 y0 y1 a0 a1 DNUM DA DB mag02 thetaMidpoint tmidpoint reversal.

(** The two classes that implement [CutCurve]; the constructor of
    [ConstantRadiusCut] takes the radius. *)
Inductive CutCurve : Type :=
  | circleCut (c : CircleCut)
  | constantRadiusCut (x : float).

(** [type PolarCutSegment = [number, number, CutCurve, number]] *)
Definition PolarCutSegment : Type := float * float * CutCurve * float.

(** [Map<number, CutCurve>]: keys are compared by SameValueZero. *)
Definition sameValueZero (a b : float) : bool := (a =? b) || (is_nan a && is_nan b).

Fixpoint mapGet (m : list (float * CutCurve)) (k : float) : option CutCurve :=
  match m with
  | [] => None
  | (k', v) :: rest => if sameValueZero k' k then Some v else mapGet rest k
  end.

Definition mapSet (m : list (float * CutCurve)) (k : float) (v : CutCurve)
    : list (float * CutCurve) :=
  if existsb (fun kv => sameValueZero (fst kv) k) m
  then map (fun kv => if sameValueZero (fst kv) k then (fst kv, v) else kv) m
  else m ++ [(k, v)].

(** ** The cutter *)
Record GearCutter : Type := mkGearCutter {
  lastX : option float;
  lastY : option float;
  lastPointIsCut : bool;
  pointCurves : list (float * CutCurve);
  flatCurves : list (float * CutCurve);
  faceTol : float;
  filletTol : float;
  path : list PolarCutSegment;
  nTeeth : float;
  pitchRadius : float;
  dydTooth : float;
  dadTooth : float
}.

Definition newGearCutter (nTeeth pitchRadius faceTol filletTol : float) : GearCutter :=
  let dadTooth := (Math_PI * 2.0) / nTeeth in
  let dydTooth := dadTooth * pitchRadius in
  mkGearCutter None None false [] [] faceTol filletTol [] nTeeth pitchRadius dydTooth dadTooth.

Definition setPoint (g : GearCutter) (x y : float) (isCut : bool) : GearCutter :=
  mkGearCutter (Some x) (Some y) isCut (pointCurves g) (flatCurves g) (faceTol g)
               (filletTol g) (path g) (nTeeth g) (pitchRadius g) (dydTooth g) (dadTooth g).

Definition setLastPointIsCut (g : GearCutter) (isCut : bool) : GearCutter :=
  mkGearCutter (lastX g) (lastY g) isCut (pointCurves g) (flatCurves g) (faceTol g)
               (filletTol g) (path g) (nTeeth g) (pitchRadius g) (dydTooth g) (dadTooth g).

Definition setPointCurves (g : GearCutter) (m : list (float * CutCurve)) : GearCutter :=
  mkGearCutter (lastX g) (lastY g) (lastPointIsCut g) m (flatCurves g) (faceTol g)
               (filletTol g) (path g) (nTeeth g) (pitchRadius g) (dydTooth g) (dadTooth g).

Definition setFlatCurves (g : GearCutter) (m : list (float * CutCurve)) : GearCutter :=
  mkGearCutter (lastX g) (lastY g) (lastPointIsCut g) (pointCurves g) m (faceTol g)
               (filletTol g) (path g) (nTeeth g) (pitchRadius g) (dydTooth g) (dadTooth g).

Definition pushPath (g : GearCutter) (seg : PolarCutSegment) : GearCutter :=
  mkGearCutter (lastX g) (lastY g) (lastPointIsCut g) (pointCurves g) (flatCurves g)
               (faceTol g) (filletTol g) (path g ++ [seg]) (nTeeth g) (pitchRadius g)
               (dydTooth g) (dadTooth g).

Definition cutPoint (g : GearCutter) (x y : float) : GearCutter :=
  let '(g, curve) :=
    match mapGet (pointCurves g) x with
    | Some curve => (g, curve)
    | None =>
        let curve :=
          circleCut (newCircleCut (- Math_PI) x (- Math_PI * pitchRadius g)
                                  Math_PI x (Math_PI * pitchRadius g) (filletTol g)) in
        (setPointCurves g (mapSet (pointCurves g) x curve), curve)
    end in
  let rot := y / dydTooth g in
  pushPath g (rot - Math_PI / dadTooth g, rot + Math_PI / dadTooth g, curve, rot).

Definition cutFlat (g : GearCutter) (x y0 y1 : float) : GearCutter :=
  let '(g, curve) :=
    match mapGet (flatCurves g) x with
    | Some curve => (g, curve)
    | None =>
        let curve := constantRadiusCut x in
        (setFlatCurves g (mapSet (flatCurves g) x curve), curve)
    end in
  if y0 <? y1 then pushPath g (y0 / dydTooth g, y1 / dydTooth g, curve, 0)
  else pushPath g (y1 / dydTooth g, y0 / dydTooth g, curve, 0).

(** How a call on the cutter ends: it returns, or it throws an [Error]; [g] is
    the cutter as the call leaves it. *)
Inductive Outcome : Type :=
  | Returned (g : GearCutter)
  | Threw (message : String.string) (g : GearCutter).

Definition moveTo (g : GearCutter) (x y : float) : Outcome :=
  if x <=? 0 then Threw "x <= 0 is not supported in GearCutter"%string g
  else Returned (setPoint g x y false).

Definition arcTo (g : GearCutter) (x y turn : float) : Outcome :=
  if x <=? 0 then Threw "x <= 0 is not supported in GearCutter"%string g
  else if 0.001 <? Math_abs turn
  then Threw "Curved cutter paths are not supported in GearCutter"%string g
  else
    match lastX g, lastY g with
    | Some x0, Some y0 =>
        let wasCut := lastPointIsCut g in
        let g := setPoint g x y wasCut in
        let g := if negb wasCut then cutPoint g x0 y0 else g in
        let g := setLastPointIsCut g true in
        if (x0 =? x) && (y0 =? y) then Returned g
        else
          let g := cutPoint g x y in
          if x0 =? x then Returned (cutFlat g x y0 y)
          else
            let xp := pitchRadius g in
            let y0p := ((y - y0) * (xp - x0)) / (x - x0) + y0 in
            let tp := - y0p / dydTooth g in
            let dirx := y0 - y in
            let diry := x - x0 in
            let k := (dydTooth g * diry) / (dirx * dirx + diry * diry) in
            let dxdt := k * dirx in
            let dydt := k * diry in
            let t0 := (x0 - xp) / dxdt in
            let t1 := (x - xp) / dxdt in
            let curve :=
              newCircleCut ((t0 + tp) * dadTooth g) x0 (t0 * dydt)
                           ((t1 + tp) * dadTooth g) x (t1 * dydt) (faceTol g) in
            let thetaA := getThetaForT curve 0 / dadTooth g in
            let thetaB := getThetaForT curve 1 / dadTooth g in
            Returned (pushPath g (Math_min thetaA thetaB, Math_max thetaA thetaB,
                                  circleCut curve, 0))
    | _, _ => Threw "Curve without current point sent to GearCutter"%string g
    end.

(** [this.lastX == undefined || this.lastY == undefined] *)
Definition noCurrentPoint (g : GearCutter) : bool :=
  match lastX g, lastY g with
  | Some _, Some _ => false
  | _, _ => true
  end.

Definition threw (o : Outcome) : bool :=
  match o with Threw _ _ => true | Returned _ => false end.

Definition cutterAfter (o : Outcome) : GearCutter :=
  match o with Threw _ g => g | Returned g => g end.

(** C7: [moveTo] throws exactly when [x <= 0]; [arcTo] throws exactly when
    [x <= 0], or [Math.abs(turn) > 0.001], or there is no current point; and
    a call that throws leaves the cutter as it found it. *)
Theorem moveTo_arcTo_throw_exactly (g : GearCutter) (x y turn : float) :
  threw (moveTo g x y) = (x <=? 0)
  /\ threw (arcTo g x y turn) = (x <=? 0) || (0.001 <? Math_abs turn) || noCurrentPoint g
  /\ (threw (moveTo g x y) = true -> cutterAfter (moveTo g x y) = g)
  /\ (threw (arcTo g x y turn) = true -> cutterAfter (arcTo g x y turn) = g).
Proof.
  unfold moveTo, arcTo, noCurrentPoint.
  destruct (x <=? 0); cbn [orb threw cutterAfter].
  - repeat split; reflexivity.
  - destruct (0.001 <? Math_abs turn); cbn [orb threw cutterAfter].
    + repeat split; try reflexivity. discriminate.
    + destruct (lastX g) as [lx |], (lastY g) as [ly |]; cbn [threw cutterAfter];
        try (repeat split; try reflexivity; discriminate).
      destruct ((lx =? x) && (ly =? y)); [repeat split; try reflexivity; discriminate |].
      destruct (lx =? x); repeat split; try reflexivity; discriminate.
Qed.

(** ** CircleCut: discontinuities and radius *)

Definition getDiscontinuityThetas (c : CircleCut) (minTheta maxTheta : float) : list float :=
  match reversal c with
  | None => []
  | Some r =>
      filter (fun theta => (minTheta <? theta) && (theta <? maxTheta))
             [thetaStart r; thetaEnd r]
  end.

Definition getRForT (c : CircleCut) (t : float) : float :=
  let invt := 1.0 - t in
  let y := y1 c + (y0 c - y1 c) * invt in
  let x := x1 c + (x0 c - x1 c) * invt in
  Math_sqrt (x * x + y * y).

Import FloatBinarySearch.

(** The end of [getTForThetaInBase] and [getTForThetaInReversal]: the
    interpolation between the two ends the search returned; [interp0] is the
    value [interp] starts with. *)
Definition interpolate (c : CircleCut) (theta interp0 tmin tmax : float) : float :=
  let thetaMin := getThetaForT c tmin in
  let thetaMax := getThetaForT c tmax in
  let interp :=
    if negb (thetaMax =? thetaMin)
    then Math_min (Math_max ((theta - thetaMin) / (thetaMax - thetaMin)) 0.0) 1.0
    else interp0 in
  tmin + (tmax - tmin) * interp.

(** The parameter range [getTForThetaInBase] searches. *)
Definition baseRange (c : CircleCut) (theta : float) : float * float :=
  match reversal c with
  | Some r => if theta <? thetaMidpoint c then (tend r, 1.0) else (0, tstart r)
  | None => (0, 1.0)
  end.

Definition getTForThetaInBase (c : CircleCut) (theta : float) : Run float :=
  let '(tmin, tmax) := baseRange c theta in
  range <- searchForFloat tmin tmax (fun t => theta <=? getThetaForT c t) ;;
  let '(tmin, tmax) := range in
  ret (interpolate c theta 0.0 tmin tmax).

Definition getTForThetaInReversal (c : CircleCut) (theta : float) : Run float :=
  match reversal c with
  | None => ret (tmidpoint c)
  | Some r =>
      range <- searchForFloat (tstart r) (tend r) (fun t => getThetaForT c t <=? theta) ;;
      let '(tmin, tmax) := range in
      ret (interpolate c theta 0.5 tmin tmax)
  end.

Definition getTForTheta (c : CircleCut) (theta : float) : Run float :=
  match reversal c with
  | Some r =>
      if (thetaStart r <=? theta) && (theta <=? thetaEnd r)
      then getTForThetaInReversal c theta
      else getTForThetaInBase c theta
  | None => getTForThetaInBase c theta
  end.

(** [getR]: the run carries the parameters [t] at which the searches
    evaluated [getThetaForT]. *)
Definition getR (c : CircleCut) (theta : float) : Run float :=
  t <- getTForTheta c theta ;;
  ret (getRForT c t).

(** ** A path driven into the cutter *)

Definition PenCall : Type := Rack.PenCall (num := float).

Definition call (g : GearCutter) (c : PenCall) : Outcome :=
  match c with
  | Rack.moveTo x y => moveTo g x y
  | Rack.arcTo x y turn => arcTo g x y turn
  end.

(** The calls in order, up to the first that throws. *)
Fixpoint draw (g : GearCutter) (calls : list PenCall) : Outcome :=
  match calls with
  | [] => Returned g
  | c :: rest =>
      match call g c with
      | Returned g' => draw g' rest
      | Threw m g' => Threw m g'
      end
  end.

(** ** Results on [CircleCut] *)

(** What the constructor establishes: the angles are in order, and a
    reversal is a part of the parameter range [0, 1]. *)
Definition wellFormed (c : CircleCut) : Prop :=
  (a1 c <? a0 c) = false
  /\ match reversal c with
     | None => True
     | Some r =>
         (0 <=? tstart r) = true /\ (tstart r <? tend r) = true /\ (tend r <=? 1) = true
     end.

Lemma newCircleCut_wellFormed (alpha0 u0 v0 alpha1 u1 v1 arcTol : float) :
  wellFormed (newCircleCut alpha0 u0 v0 alpha1 u1 v1 arcTol).
Proof.
  unfold wellFormed, newCircleCut.
  destruct (alpha1 <? alpha0) eqn:Ea; cbv zeta; cbn [a0 a1 reversal].
  - split; [fcmp |].
    destruct (0.0 <? _); [| exact I].
    match goal with |- context [if ?a <? ?b then _ else _] => destruct (a <? b) eqn:E end;
      [| exact I].
    cbn [tstart tend]. revert E.
    match goal with |- (Math_max ?q 0 <? Math_min ?q' 1) = true -> _ =>
      set (u := q); set (v := q') end.
    intros E. rewrite ltb_ord in E.
    rewrite Math_max_nan, Math_min_nan in E.
    destruct (isNaN u) eqn:Nu; [discriminate |].
    destruct (isNaN v) eqn:Nv; [rewrite orb_true_r in E; discriminate |].
    destruct (Math_max_ord u 0 Nu isNaN_zero) as [N1 O1].
    destruct (Math_min_ord v 1 Nv isNaN_one) as [N2 O2].
    pose proof ord_one_pos.
    rewrite !leb_ord, ltb_ord, N1, N2, isNaN_zero, isNaN_one, O1, O2 in *.
    rewrite ord_zero in *. cbn [negb orb andb] in *.
    apply Z.ltb_lt in E.
    repeat split; first [apply Z.leb_le | apply Z.ltb_lt]; lia.
  - split; [exact Ea |].
    destruct (0.0 <? _); [| exact I].
    match goal with |- context [if ?a <? ?b then _ else _] => destruct (a <? b) eqn:E end;
      [| exact I].
    cbn [tstart tend]. revert E.
    match goal with |- (Math_max ?q 0 <? Math_min ?q' 1) = true -> _ =>
      set (u := q); set (v := q') end.
    intros E. rewrite ltb_ord in E.
    rewrite Math_max_nan, Math_min_nan in E.
    destruct (isNaN u) eqn:Nu; [discriminate |].
    destruct (isNaN v) eqn:Nv; [rewrite orb_true_r in E; discriminate |].
    destruct (Math_max_ord u 0 Nu isNaN_zero) as [N1 O1].
    destruct (Math_min_ord v 1 Nv isNaN_one) as [N2 O2].
    pose proof ord_one_pos.
    rewrite !leb_ord, ltb_ord, N1, N2, isNaN_zero, isNaN_one, O1, O2 in *.
    rewrite ord_zero in *. cbn [negb orb andb] in *.
    apply Z.ltb_lt in E.
    repeat split; first [apply Z.leb_le | apply Z.ltb_lt]; lia.
Qed.

(** The constructor of [CircleCut] puts the angles in order, [a0] first (it
    never leaves [a1 < a0]), and when it finds a reversal, the reversal is a
    part [tstart < tend] of the parameter range [0, 1]. *)
Theorem newCircleCut_ordered (alpha0 u0 v0 alpha1 u1 v1 arcTol : float) :
  let c := newCircleCut alpha0 u0 v0 alpha1 u1 v1 arcTol in
  (a1 c <? a0 c) = false
  /\ forall r, reversal c = Some r ->
       (0 <=? tstart r) = true /\ (tstart r <? tend r) = true /\ (tend r <=? 1) = true.
Proof.
  cbv zeta. destruct (newCircleCut_wellFormed alpha0 u0 v0 alpha1 u1 v1 arcTol) as [H1 H2].
  split; [exact H1 |]. intros r E. rewrite E in H2. exact H2.
Qed.

(** [getDiscontinuityThetas] returns at most two angles, each strictly between
    the two bounds; without a reversal it returns nothing. *)
Theorem getDiscontinuityThetas_between (c : CircleCut) (minTheta maxTheta : float) :
  Forall (fun theta => (minTheta <? theta) = true /\ (theta <? maxTheta) = true)
         (getDiscontinuityThetas c minTheta maxTheta)
  /\ (List.length (getDiscontinuityThetas c minTheta maxTheta) <= 2)%nat
  /\ (reversal c = None -> getDiscontinuityThetas c minTheta maxTheta = []).
Proof.
  unfold getDiscontinuityThetas. destruct (reversal c) as [r |].
  - split; [| split].
    + apply Forall_forall. intros theta Hin. apply filter_In in Hin.
      destruct Hin as [_ H]. now apply andb_prop in H.
    + cbn [filter].
      destruct ((minTheta <? thetaStart r) && (thetaStart r <? maxTheta)),
               ((minTheta <? thetaEnd r) && (thetaEnd r <? maxTheta)); cbn; lia.
    + discriminate.
  - split; [constructor |]. split; [cbn; lia | reflexivity].
Qed.

Lemma searchForFloat_unit (lo hi : float) (p : float -> bool) :
  (0 <=? lo) = true -> (hi <=? 1) = true ->
  exists tr l h,
    searchForFloat lo hi p = Some (tr, (l, h)) /\ Forall (inside 0 1) tr.
Proof.
  intros Hlo Hhi.
  destruct (searchForFloat_total lo hi p) as (tr & l & h & E & T & _); [fcmp |].
  exists tr, l, h. split; [exact E |].
  eapply Forall_impl; [| exact T]. intros v Hv. now apply (inside_weaken 0 1 lo hi).
Qed.

Lemma getTForTheta_total (c : CircleCut) (theta : float) :
  wellFormed c ->
  exists tr t, getTForTheta c theta = Some (tr, t) /\ Forall (inside 0 1) tr.
Proof.
  intros [_ Hrev].
  assert (Hbase : exists tr t, getTForThetaInBase c theta = Some (tr, t)
                               /\ Forall (inside 0 1) tr).
  { unfold getTForThetaInBase, baseRange.
    destruct (reversal c) as [r |].
    - destruct Hrev as (R1 & R2 & R3).
      destruct (theta <? thetaMidpoint c).
      + destruct (searchForFloat_unit (tend r) 1.0 (fun t => theta <=? getThetaForT c t))
          as (tr & l & h & E & T); [fcmp | reflexivity |].
        unfold bind. rewrite E. cbn. rewrite app_nil_r. eexists _, _. split; [reflexivity | exact T].
      + destruct (searchForFloat_unit 0 (tstart r) (fun t => theta <=? getThetaForT c t))
          as (tr & l & h & E & T); [reflexivity | fcmp |].
        unfold bind. rewrite E. cbn. rewrite app_nil_r. eexists _, _. split; [reflexivity | exact T].
    - destruct (searchForFloat_unit 0 1.0 (fun t => theta <=? getThetaForT c t))
        as (tr & l & h & E & T); [reflexivity | reflexivity |].
      unfold bind. rewrite E. cbn. rewrite app_nil_r. eexists _, _. split; [reflexivity | exact T]. }
  unfold getTForTheta. destruct (reversal c) as [r |] eqn:Er; [| exact Hbase].
  destruct ((thetaStart r <=? theta) && (theta <=? thetaEnd r)); [| exact Hbase].
  unfold getTForThetaInReversal. rewrite Er. destruct Hrev as (R1 & R2 & R3).
  destruct (searchForFloat_unit (tstart r) (tend r) (fun t => getThetaForT c t <=? theta))
    as (tr & l & h & E & T); [exact R1 | exact R3 |].
  unfold bind. rewrite E. cbn. rewrite app_nil_r. eexists _, _. split; [reflexivity | exact T].
Qed.

(** [getR] of a constructed [CircleCut] returns for every angle, NaN and the
    infinities included: its searches end, and they evaluate [getThetaForT]
    only at parameters strictly between 0 and 1. *)
Theorem getR_returns (alpha0 u0 v0 alpha1 u1 v1 arcTol theta : float) :
  let c := newCircleCut alpha0 u0 v0 alpha1 u1 v1 arcTol in
  exists tr r,
    getR c theta = Some (tr, r)
    /\ Forall (fun t => (0 <? t) = true /\ (t <? 1) = true) tr.
Proof.
  cbv zeta.
  destruct (getTForTheta_total _ theta (newCircleCut_wellFormed alpha0 u0 v0 alpha1 u1 v1 arcTol))
    as (tr & t & E & T).
  unfold getR, bind. rewrite E. cbn. rewrite app_nil_r.
  eexists _, _. split; [reflexivity | exact T].
Qed.

(** ** Results on the cutter *)

Lemma cutPoint_frame (g : GearCutter) (x y : float) :
  lastX (cutPoint g x y) = lastX g /\ lastY (cutPoint g x y) = lastY g
  /\ lastPointIsCut (cutPoint g x y) = lastPointIsCut g
  /\ List.length (path (cutPoint g x y)) = S (List.length (path g)).
Proof.
  unfold cutPoint. destruct (mapGet (pointCurves g) x);
    cbn; rewrite length_app; cbn; repeat split; lia.
Qed.

Lemma cutFlat_frame (g : GearCutter) (x y0 y1 : float) :
  lastX (cutFlat g x y0 y1) = lastX g /\ lastY (cutFlat g x y0 y1) = lastY g
  /\ lastPointIsCut (cutFlat g x y0 y1) = lastPointIsCut g
  /\ List.length (path (cutFlat g x y0 y1)) = S (List.length (path g)).
Proof.
  unfold cutFlat. destruct (mapGet (flatCurves g) x); destruct (y0 <? y1);
    cbn; rewrite length_app; cbn; repeat split; lia.
Qed.

(** One [arcTo] that returns: the start point is cut unless it was cut
    already, and unless the end point is the start point again, the end point
    and the edge are cut. *)
Lemma arcTo_cuts (g : GearCutter) (x y turn : float) (g' : GearCutter) :
  arcTo g x y turn = Returned g' ->
  exists lx ly,
    lastX g = Some lx /\ lastY g = Some ly
    /\ lastX g' = Some x /\ lastY g' = Some y /\ lastPointIsCut g' = true
    /\ List.length (path g')
       = (List.length (path g) + (if lastPointIsCut g then 0 else 1)
          + (if ((lx =? x) && (ly =? y))%float then 0 else 2))%nat.
Proof.
  unfold arcTo. destruct (x <=? 0); [discriminate |].
  destruct (0.001 <? Math_abs turn); [discriminate |].
  destruct (lastX g) as [lx |] eqn:Ex; [| discriminate].
  destruct (lastY g) as [ly |] eqn:Ey; [| discriminate].
  cbv zeta. intros H. exists lx, ly. split; [reflexivity |]. split; [reflexivity |].
  set (g1 := setPoint g x y (lastPointIsCut g)) in *.
  set (g2 := if negb (lastPointIsCut g) then cutPoint g1 lx ly else g1) in *.
  assert (H2 : lastX g2 = Some x /\ lastY g2 = Some y
               /\ List.length (path g2)
                  = (List.length (path g) + (if lastPointIsCut g then 0 else 1))%nat).
  { unfold g2. destruct (lastPointIsCut g); cbn [negb].
    - cbn. repeat split; lia.
    - destruct (cutPoint_frame g1 lx ly) as (F1 & F2 & _ & F4).
      rewrite F1, F2, F4. cbn. repeat split; lia. }
  destruct H2 as (X2 & Y2 & L2).
  set (g3 := setLastPointIsCut g2 true) in *.
  assert (H3 : lastX g3 = Some x /\ lastY g3 = Some y /\ lastPointIsCut g3 = true
               /\ List.length (path g3) = List.length (path g2)).
  { unfold g3. cbn. auto. }
  destruct H3 as (X3 & Y3 & C3 & L3).
  destruct ((lx =? x) && (ly =? y)).
  - injection H as <-. repeat split; auto. lia.
  - destruct (cutPoint_frame g3 x y) as (F1 & F2 & F3 & F4).
    destruct (lx =? x).
    + injection H as <-.
      destruct (cutFlat_frame (cutPoint g3 x y) x ly y) as (G1 & G2 & G3 & G4).
      rewrite G1, G2, G3, G4, F1, F2, F3, F4. repeat split; auto. lia.
    + injection H as <-. cbn [lastX lastY lastPointIsCut path pushPath].
      rewrite length_app, F1, F2, F3, F4. cbn. repeat split; auto. lia.
Qed.

(** The vertices of a polyline after its first: [[x, y, turn]] per [arcTo]. *)
Definition arcs (pts : list (float * float * float)) : list PenCall :=
  map (fun '(x, y, turn) => Rack.arcTo x y turn) pts.

(** No vertex repeats the one before it. *)
Fixpoint distinct (x0 y0 : float) (pts : list (float * float * float)) : bool :=
  match pts with
  | [] => true
  | (x, y, _) :: rest => negb ((x0 =? x) && (y0 =? y)) && distinct x y rest
  end.

Lemma arcs_cuts (pts : list (float * float * float)) :
  forall (g g' : GearCutter) (x0 y0 : float),
    lastX g = Some x0 -> lastY g = Some y0 ->
    draw g (arcs pts) = Returned g' -> distinct x0 y0 pts = true ->
    List.length (path g')
    = (List.length (path g) + 2 * List.length pts
       + (match pts with [] => 0 | _ => if lastPointIsCut g then 0 else 1 end))%nat.
Proof.
  induction pts as [| [[x y] turn] pts IH]; intros g g' x0 y0 Hx Hy Hd Hdist.
  - cbn in Hd. injection Hd as <-. cbn. lia.
  - cbn [arcs map draw call] in Hd. destruct (arcTo g x y turn) as [g1 | m g1] eqn:E1;
      [| discriminate].
    destruct (arcTo_cuts g x y turn g1 E1) as (lx & ly & A1 & A2 & A3 & A4 & A5 & A6).
    rewrite Hx in A1. rewrite Hy in A2. injection A1 as <-. injection A2 as <-.
    cbn [distinct] in Hdist. apply andb_prop in Hdist. destruct Hdist as [Hne Hrest].
    apply negb_true_iff in Hne. rewrite Hne in A6.
    rewrite (IH g1 g' x y A3 A4 Hd Hrest). rewrite A5, A6.
    cbn [List.length]. destruct pts; lia.
Qed.

(** A polyline of [n >= 1] edges, no vertex repeating the one before it, that
    the cutter accepts: [n + 1] point cuts and [n] edge cuts are pushed on the
    path, each vertex and each edge once. *)
Theorem polyline_cuts (g g' : GearCutter) (x0 y0 : float)
    (pts : list (float * float * float)) :
  draw g (Rack.moveTo x0 y0 :: arcs pts) = Returned g' ->
  distinct x0 y0 pts = true -> pts <> [] ->
  List.length (path g') = (List.length (path g) + 2 * List.length pts + 1)%nat.
Proof.
  intros Hd Hdist Hne. cbn [draw call] in Hd. unfold moveTo in Hd.
  destruct (x0 <=? 0); [discriminate |].
  rewrite (arcs_cuts pts (setPoint g x0 y0 false) g' x0 y0 eq_refl eq_refl Hd Hdist).
  cbn. destruct pts; [congruence | lia].
Qed.

End Cutter.

(** The four edges of one rack tooth, cut into a gear of 8 teeth. *)
Lemma polyline_cuts_witness :
  let atan2 := fun _ _ : float => 0%float in
  let g := newGearCutter 8 1.25 0.001 0.01 in
  let pts := [(1.25, 0.5, 0); (1.5, 0.625, 0); (1.5, 0.875, 0); (1.25, 1, 0)]%float in
  let g' := cutterAfter (draw atan2 g (Rack.moveTo 1 0%float :: arcs pts)) in
  List.length (path g') = (List.length (path g) + 2 * List.length pts + 1)%nat.
Proof.
  cbv zeta.
  apply (polyline_cuts (fun _ _ => 0%float) (newGearCutter 8 1.25 0.001 0.01) _ 1 0%float
           [(1.25, 0.5, 0); (1.5, 0.625, 0); (1.5, 0.875, 0); (1.25, 1, 0)]%float).
  - vm_compute. reflexivity.
  - vm_compute. reflexivity.
  - discriminate.
Defined.

End GearCutter.
Module PathSampling.
Import F64.
Local Open Scope float_scope.

(** [interface CutCurve]: the two methods [normalizePolarCutPath] calls. *)
Record CutCurve : Type := mkCurve {
  getR : float -> float;
  getDiscontinuityThetas : float -> float -> list float
}.

(** [type PolarCutSegment = [number, number, CutCurve, number]] *)
Record PolarCutSegment : Type := mkSeg {
  seg0 : float;      (* starting angle *)
  seg1 : float;      (* ending angle *)
  seg2 : CutCurve;
  seg3 : float       (* rotation *)
}.

(** The segment arrays that [normalizePolarCutPath] creates are objects: the
    queue, the active set, the candidates and [bottomCuts] hold references to
    them, and the refinement writes through these references. A reference is
    the index of the object in the store, in order of creation. *)
Definition Ref : Type := nat.
Record Store : Type := mkStore { size : nat; deref : Ref -> PolarCutSegment }.

Definition noCurve : CutCurve := mkCurve (fun _ => nan) (fun _ _ => []).
Definition emptyStore : Store := mkStore O (fun _ => mkSeg nan nan noCurve nan).

(** A new array. *)
Definition alloc (store : Store) (cut : PolarCutSegment) : Store * Ref :=
  (mkStore (S (size store)) (fun r => if (r =? size store)%nat then cut else deref store r),
   size store).

(** A write into the array behind [r]. *)
Definition write (store : Store) (r : Ref) (cut : PolarCutSegment) : Store :=
  mkStore (size store) (fun r' => if (r' =? r)%nat then cut else deref store r').

(** ** pq.ts: a binary heap in an array, keyed on element 0 *)
Definition key (store : Store) (r : Ref) : float := seg0 (deref store r).

Definition assign (q : list Ref) (i : nat) (v : Ref) : list Ref :=
  firstn i q ++ v :: skipn (S i) q.

(** [let t = q[i]; q[i] = q[j]; q[j] = t] *)
Definition swap (q : list Ref) (i j : nat) : list Ref :=
  let t := nth i q O in
  assign (assign q i (nth j q O)) j t.

(** The [while (pos > 0)] loop of [pqpush]; [pos] bounds its turns. *)
Fixpoint siftUp (fuel : nat) (store : Store) (q : list Ref) (pos : nat) : list Ref :=
  match fuel with
  | O => q
  | S fuel' =>
      if (0 <? pos)%nat then
        let parpos := Nat.div2 (pos - 1) in
        if key store (nth parpos q O) <=? key store (nth pos q O) then q
        else siftUp fuel' store (swap q parpos pos) parpos
      else q
  end.

Definition pqpush (store : Store) (q : list Ref) (val : Ref) : list Ref :=
  let pos := length q in
  siftUp pos store (q ++ [val]) pos.

(** The [while (leftpos < q.length)] loop of [pqpop]. *)
Fixpoint siftDown (fuel : nat) (store : Store) (q : list Ref) (pos : nat) : list Ref :=
  match fuel with
  | O => q
  | S fuel' =>
      let leftpos := (2 * pos + 1)%nat in
      if (leftpos <? length q)%nat then
        let minpos := pos in
        let minpos := if key store (nth leftpos q O) <? key store (nth minpos q O)
                      then leftpos else minpos in
        let rightpos := S leftpos in
        let minpos := if (rightpos <? length q)%nat
                         && (key store (nth rightpos q O) <? key store (nth minpos q O))
                      then rightpos else minpos in
        if (minpos =? pos)%nat then q
        else siftDown fuel' store (swap q pos minpos) minpos
      else q
  end.

Definition pqpop (store : Store) (q : list Ref) : option Ref * list Ref :=
  match q with
  | [] => (None, [])
  | [r] => (Some r, [])
  | ret :: _ =>
      let lastr := last q O in
      let q' := lastr :: tl (removelast q) in
      (Some ret, siftDown (length q') store q' 0)
  end.


Definition BOTTOM_TOLERANCE : float := 0.00001.

(** ** Populating the queue *)

Section Window.
Context {num : Type} {number : Numeric.Number num}.
Import Numeric.
Local Open Scope num_scope.

(** The spans pushed for one cut once its start is known to be in the window:
    [while (ea > 0.5) { push [sa, 0.5, , rot]; sa = -0.5; ea -= 1; rot -= 1 }]
    and the final push. [fuel] bounds the turns of the loop. *)
Fixpoint windowPieces (fuel : nat) (sa ea rot : num) : option (list (num * num * num)) :=
  if ea >? lit 0.5 then
    match fuel with
    | O => None
    | S fuel' =>
        match windowPieces fuel' (- lit 0.5) (ea - lit 1) (rot - lit 1) with
        | Some rest => Some ((sa, lit 0.5, rot) :: rest)
        | None => None
        end
    end
  else Some [(sa, ea, rot)].

(** The body of [for (let cut of segments)] up to the pushes: the spans
    [(sa, ea, rot)] pushed for the cut [[cut0, cut1, , cut3]], in order. *)
Definition wrapCut (fuel : nat) (cut0 cut1 cut3 : num) : option (list (num * num * num)) :=
  let sa := cut0 in
  let ea := cut1 in
  if ea =? sa then Some []
  else
    let '(sa, ea) := if ea <? sa then (cut1, cut0) else (sa, ea) in
    let rot := cut3 in
    let '(sa, ea, rot) :=
      if (sa <? - lit 0.5) || (sa >=? lit 0.5) then
        let flr := Math_floor (sa + lit 0.5) in (sa - flr, ea - flr, rot - flr)
      else (sa, ea, rot) in
    windowPieces fuel sa ea rot.
End Window.

(** [pqpush(pq, [sa, ea, curve, rot])]: a new array, a new reference. *)
Definition pushNew (curve : CutCurve) (st : Store * list Ref) (piece : float * float * float)
    : Store * list Ref :=
  let '(store, pq) := st in
  let '(sa, ea, rot) := piece in
  let '(store', r) := alloc store (mkSeg sa ea curve rot) in
  (store', pqpush store' pq r).

Fixpoint populate (fuel : nat) (segments : list PolarCutSegment) (st : Store * list Ref)
    : option (Store * list Ref) :=
  match segments with
  | [] => Some st
  | cut :: rest =>
      match wrapCut (number := Numeric.Number_float) fuel (seg0 cut) (seg1 cut) (seg3 cut) with
      | Some pieces => populate fuel rest (fold_left (pushNew (seg2 cut)) pieces st)
      | None => None
      end
  end.

(** ** The sample points *)

(** [Set.add]: insertion order, equal keys (SameValueZero) kept once. *)
Definition sameValueZero (a b : float) : bool := (a =? b) || (is_nan a && is_nan b).

Definition setAdd (set : list float) (v : float) : list float :=
  if existsb (sameValueZero v) set then set else set ++ [v].

Definition eventsOf (dadt : float) (set : list float) (cut : PolarCutSegment) : list float :=
  let '(mkSeg sa ea curve rot) := cut in
  let set := setAdd set sa in
  let set := setAdd set ea in
  fold_left (fun set a => setAdd set (a / dadt + rot))
            (getDiscontinuityThetas curve ((sa - rot) * dadt) ((ea - rot) * dadt)) set.

(** [[...eventPointsSet].sort((a, b) => a - b)] *)
Fixpoint insertSorted (v : float) (sorted : list float) : list float :=
  match sorted with
  | [] => [v]
  | w :: rest => if v <? w then v :: sorted else w :: insertSorted v rest
  end.

Definition sortNumbers (l : list float) : list float :=
  fold_left (fun sorted v => insertSorted v sorted) l [].

(** [for (let i = 0; i <= n; ++i) sampleAs.push(...)] *)
Fixpoint gridPoints (fuel : nat) (rangeStart rangeEnd n i : float) : option (list float) :=
  if i <=? n then
    match fuel with
    | O => None
    | S fuel' =>
        match gridPoints fuel' rangeStart rangeEnd n (i + 1) with
        | Some rest => Some ((rangeStart + ((rangeEnd - rangeStart) * i) / n) :: rest)
        | None => None
        end
    end
  else Some [].

Definition avoidance : float := 0.000001.

Fixpoint samplePoints (fuel : nat) (eventAs : list float) (rangeStart : float)
    : option (list float) :=
  match eventAs with
  | [] => Some []
  | a :: rest =>
      let here :=
        if rangeStart <=? a - avoidance then
          let rangeEnd := a - avoidance in
          let mid :=
            if rangeEnd - rangeStart <? avoidance
            then [rangeStart + (rangeEnd - rangeStart) * 0.5] else [] in
          let n := Numeric.float_floor ((rangeEnd - rangeStart) / 0.001) + 1 in
          match gridPoints fuel rangeStart rangeEnd n 0 with
          | Some grid => Some (mid ++ grid)
          | None => None
          end
        else Some [] in
      match here, samplePoints fuel rest (a + avoidance) with
      | Some l1, Some l2 => Some (l1 ++ l2)
      | _, _ => None
      end
  end.

(** ** The sweep *)

Definition radiusAt (store : Store) (dadt a : float) (r : Ref) : float :=
  let cut := deref store r in
  getR (seg2 cut) ((a - seg3 cut) * dadt).

Definition getBottomSegs (store : Store) (cuts : list Ref) (dadt a bottom : float) : list Ref :=
  filter (fun r => (a <=? seg1 (deref store r))
                   && (radiusAt store dadt a r <=? bottom + BOTTOM_TOLERANCE)) cuts.

Definition getMinR (store : Store) (cuts : list Ref) (dadt a : float) : option float :=
  fold_left (fun ret cut =>
               let r := radiusAt store dadt a cut in
               match ret with
               | None => Some r
               | Some m => if r <=? m then Some r else Some m
               end) cuts None.

(** [while (pq.length && pq[0][0] <= cura) activeCuts.push(pqpop(pq)!)] *)
Fixpoint admitCuts (fuel : nat) (store : Store) (cura : float) (pq activeCuts : list Ref)
    : list Ref * list Ref :=
  match fuel, pq with
  | S fuel', top :: _ =>
      if key store top <=? cura then
        match pqpop store pq with
        | (Some r, pq') => admitCuts fuel' store cura pq' (activeCuts ++ [r])
        | (None, pq') => (pq', activeCuts)
        end
      else (pq, activeCuts)
  | _, _ => (pq, activeCuts)
  end.

Record Sweep : Type := mkSweep {
  pq : list Ref;
  activeCuts : list Ref;
  prevCandidates : list Ref;
  prevCandidateStartSample : float;
  preva : float;
  bottomCuts : list Ref;
  bottomCutStartSamples : list float;
  bottomCutEndSamples : list float
}.

Definition commit (s : Sweep) : Sweep :=
  mkSweep (pq s) (activeCuts s) (prevCandidates s) (prevCandidateStartSample s) (preva s)
          (bottomCuts s ++ [hd O (prevCandidates s)])
          (bottomCutStartSamples s ++ [prevCandidateStartSample s])
          (bottomCutEndSamples s ++ [preva s]).

(** One turn of [for (const cura of sampleAs)]. *)
Definition sweepStep (store : Store) (dadt : float) (s : Sweep) (cura : float) : Sweep :=
  let '(pq1, active1) := admitCuts (length (pq s)) store cura (pq s) (activeCuts s) in
  let active2 := filter (fun r => cura <? seg1 (deref store r)) active1 in
  let curMin := getMinR store active2 dadt cura in
  let s1 := mkSweep pq1 active2 (prevCandidates s) (prevCandidateStartSample s) (preva s)
                    (bottomCuts s) (bottomCutStartSamples s) (bottomCutEndSamples s) in
  let s2 :=
    match prevCandidates s1 with
    | [] => s1
    | _ :: _ =>
        let survivors :=
          match curMin with
          | None => []
          | Some m => getBottomSegs store (prevCandidates s1) dadt cura m
          end in
        let s' := match survivors with [] => commit s1 | _ :: _ => s1 end in
        mkSweep (pq s') (activeCuts s') survivors (prevCandidateStartSample s') cura
                (bottomCuts s') (bottomCutStartSamples s') (bottomCutEndSamples s')
    end in
  match prevCandidates s2, curMin with
  | [], Some m =>
      mkSweep (pq s2) (activeCuts s2) (getBottomSegs store (activeCuts s2) dadt cura m) cura
              (preva s2) (bottomCuts s2) (bottomCutStartSamples s2) (bottomCutEndSamples s2)
  | _, _ => s2
  end.

Definition sweep (store : Store) (dadt : float) (queue : list Ref) (sampleAs : list float)
    : Sweep :=
  let s := fold_left (sweepStep store dadt) sampleAs
                     (mkSweep queue [] [] (-0.5) (-0.5) [] [] []) in
  match prevCandidates s with
  | [] => s
  | _ :: _ => commit s
  end.


(** ** Overlap refinement *)
Import FloatBinarySearch.

(** [locut[1] = loa] and [hicut[0] = hia] write into the objects. *)
Definition setSeg1 (store : Store) (r : Ref) (v : float) : Store :=
  let cut := deref store r in
  write store r (mkSeg (seg0 cut) v (seg2 cut) (seg3 cut)).

Definition setSeg0 (store : Store) (r : Ref) (v : float) : Store :=
  let cut := deref store r in
  write store r (mkSeg v (seg1 cut) (seg2 cut) (seg3 cut)).

(** The body of [for (let i = 1; i < bottomCuts.length; ++i)] for the cuts
    [locut = bottomCuts[i - 1]] and [hicut = bottomCuts[i]]; [None] when
    [searchForFloat] does not return. *)
Definition refinePair (dadt : float) (store : Store) (lo hi : Ref) (startLo startHi : float)
    : option Store :=
  let locut := deref store lo in
  let hicut := deref store hi in
  if seg0 hicut <? seg1 locut then
    let loa := Math_max startLo (seg0 hicut) in
    let hia := Math_min startHi (seg1 locut) in
    match searchForFloat loa hia
            (fun testa =>
               let loR := getR (seg2 locut) ((testa - seg3 locut) * dadt) in
               let hiR := getR (seg2 hicut) ((testa - seg3 hicut) * dadt) in
               loR <? hiR) with
    | None => None
    | Some (_, (loa, hia)) =>
        let loR := getR (seg2 locut) ((loa - seg3 locut) * dadt) in
        let hiR := getR (seg2 hicut) ((hia - seg3 hicut) * dadt) in
        let hia := if loR =? hiR then loa else hia in
        Some (setSeg0 (setSeg1 store lo loa) hi hia)
    end
  else Some store.

(** The loop itself, from the pair [(prev, head of cuts)] on. *)
Fixpoint refineFrom (dadt : float) (store : Store) (prev : Ref) (prevStart : float)
    (cuts : list Ref) (starts : list float) : option Store :=
  match cuts, starts with
  | hi :: cuts', startHi :: starts' =>
      match refinePair dadt store prev hi prevStart startHi with
      | Some store' => refineFrom dadt store' hi startHi cuts' starts'
      | None => None
      end
  | _, _ => Some store
  end.

Definition refine (dadt : float) (store : Store) (cuts : list Ref) (starts : list float)
    : option Store :=
  match cuts, starts with
  | first :: cuts', firstStart :: starts' => refineFrom dadt store first firstStart cuts' starts'
  | _, _ => Some store
  end.

(** ** normalizePolarCutPath *)

(** The store, the queue and the sample points before the sweep; [fuel]
    bounds the turns of the splitting loop and of each grid loop. An empty
    queue makes the function return [[]] at once. *)
Definition prepared (fuel : nat) (segments : list PolarCutSegment) (dadt : float)
    : option (Store * list Ref * list float) :=
  match populate fuel segments (emptyStore, []) with
  | None => None
  | Some (store, []) => Some (store, [], [])
  | Some (store, queue) =>
      let eventPointsSet := fold_left (eventsOf dadt) (map (deref store) queue) [] in
      let eventAs := sortNumbers eventPointsSet in
      match samplePoints fuel eventAs (-0.5) with
      | None => None
      | Some sampleAs => Some (store, queue, sampleAs)
      end
  end.

(** The store, [bottomCuts] and [bottomCutStartSamples] after the sweep. *)
Definition swept (fuel : nat) (segments : list PolarCutSegment) (dadt : float)
    : option (Store * list Ref * list float) :=
  match prepared fuel segments dadt with
  | None => None
  | Some (store, [], _) => Some (store, [], [])
  | Some (store, queue, sampleAs) =>
      let s := sweep store dadt queue sampleAs in
      Some (store, bottomCuts s, bottomCutStartSamples s)
  end.

(** The references returned and the store they point into. *)
Definition normalizeRefs (fuel : nat) (segments : list PolarCutSegment) (dadt : float)
    : option (Store * list Ref) :=
  match swept fuel segments dadt with
  | None => None
  | Some (store, cuts, starts) =>
      match refine dadt store cuts starts with
      | Some store' => Some (store', cuts)
      | None => None
      end
  end.

(** The array returned, each element read through its reference. *)
Definition normalizePolarCutPath (fuel : nat) (segments : list PolarCutSegment) (dadt : float)
    : option (list PolarCutSegment) :=
  match normalizeRefs fuel segments dadt with
  | Some (store, cuts) => Some (map (deref store) cuts)
  | None => None
  end.


(** ** The window, over exact arithmetic *)
Section WindowReal.
Import Numeric.
Local Open Scope R_scope.






Lemma Rleb_true (x y : R) : Rleb x y = true <-> x <= y.
Proof. unfold Rleb. destruct (Rle_dec x y); split; intros; try discriminate; tauto. Qed.


Lemma Reqb_true (x y : R) : Reqb x y = true <-> x = y.
Proof. unfold Reqb. destruct (Req_dec_T x y); split; intros; try discriminate; tauto. Qed.



End WindowReal.


(** ** The refinement, pair by pair *)
Section Refinement.
Variable dadt : float.







End Refinement.


(** ** Results on [normalizePolarCutPath] *)




Definition flat (r : float) : CutCurve := mkCurve (fun _ => r) (fun _ _ => []).

(** Two cuts of constant radius: radius 2 on [-0.5, 0.1], radius 1 on [0, 0.5]. *)
Definition stepCuts : list PolarCutSegment :=
  [mkSeg (-0.5) 0.1 (flat 2) 0; mkSeg 0 0.5 (flat 1) 0].




(** Three cuts of constant radius: radius 1 on [-0.5, 0.3], radius 0.5 on
    [-0.3, -0.2], radius 2 on [-0.5, 0.5]. *)
Definition notchCuts : list PolarCutSegment :=
  [mkSeg (-0.5) 0.3 (flat 1) 0; mkSeg (-0.3) (-0.2) (flat 0.5) 0; mkSeg (-0.5) 0.5 (flat 2) 0].


(** C1 on [notchCuts]: the first cut wins before and after the notch, so the
    sweep commits the same array twice ([bottomCuts] holds references 0, 1, 0,
    2); the refinement then writes the end of its first reign and the start of
    its second into that one array, and the third cut is returned with the
    span it had on entry, cut back only to -0.3. At the sample point
    2.0000000003350671e-07, inside that returned span and inside the span of
    the first input cut, the returned cut has radius 2 and the first input cut
    radius 1. *)
Theorem normalizePolarCutPath_notch :
  exists store queue sampleAs store' out a,
    prepared 2000 notchCuts 0.5 = Some (store, queue, sampleAs)
    /\ normalizeRefs 2000 notchCuts 0.5 = Some (store', [0; 1; 0; 2]%nat)
    /\ normalizePolarCutPath 2000 notchCuts 0.5 = Some out
    /\ nth_error sampleAs 502 = Some a
    /\ exists winner other,
         nth_error out 3 = Some winner /\ nth_error notchCuts 0 = Some other
         /\ (seg0 winner <? a) = true /\ (a <? seg1 winner) = true
         /\ (seg0 other <? a) = true /\ (a <? seg1 other) = true
         /\ getR (seg2 winner) ((a - seg3 winner) * 0.5) = 2
         /\ getR (seg2 other) ((a - seg3 other) * 0.5) = 1
         /\ (2 <=? 1 + BOTTOM_TOLERANCE) = false.
Proof.
  eexists _, _, _, _, _, _.
  split; [vm_compute; reflexivity |].
  split; [vm_compute; reflexivity |].
  split; [vm_compute; reflexivity |].
  split; [vm_compute; reflexivity |].
  eexists _, _.
  split; [vm_compute; reflexivity |].
  split; [vm_compute; reflexivity |].
  repeat split; vm_compute; reflexivity.
Qed.

(** The same array twice in the result, with its start above its end. *)
Example normalizePolarCutPath_alias :
  exists store' a b,
    normalizeRefs 2000 [mkSeg (-0.5) 0.5 (flat 2) 0; mkSeg (-0.1) 0.1 (flat 1) 0] 0.5
    = Some (store', [0; 1; 0]%nat)
    /\ normalizePolarCutPath 2000 [mkSeg (-0.5) 0.5 (flat 2) 0; mkSeg (-0.1) 0.1 (flat 1) 0] 0.5
       = Some [a; b; a]
    /\ (seg1 a <? seg0 a) = true.
Proof.
  eexists _, _, _.
  split; [vm_compute; reflexivity | split; vm_compute; reflexivity].
Qed.



End PathSampling.
(** * pq.ts: the heap order *)
Module PriorityQueue.
Import F64 PathSampling.

(** ** Heaps of integers, by index *)
Section Keys.

Definition parent (i : nat) : nat := Nat.div2 (i - 1).

Lemma parent_children (c p : nat) :
  (0 < c)%nat -> (parent c = p <-> c = (2 * p + 1)%nat \/ c = (2 * p + 2)%nat).
Proof.
  intros Hc. unfold parent. pose proof (Nat.div2_odd (c - 1)) as H.
  destruct (Nat.odd (c - 1)); cbn [Nat.b2n] in H; lia.
Qed.

Lemma parent_lt (c : nat) : (0 < c)%nat -> (parent c < c)%nat.
Proof.
  intros Hc. destruct (proj1 (parent_children c (parent c) Hc) eq_refl); lia.
Qed.

(** The keys after [q[a]] and [q[b]] have changed places. *)
Definition swapped (K : nat -> Z) (a b : nat) : nat -> Z :=
  fun i => if (i =? b)%nat then K a else if (i =? a)%nat then K b else K i.

Definition heapZ (K : nat -> Z) (n : nat) : Prop :=
  forall i, (0 < i < n)%nat -> (K (parent i) <= K i)%Z.

(** The heap order, but for the edge above [pos]. *)
Definition upInv (K : nat -> Z) (n pos : nat) : Prop :=
  (forall i, (0 < i < n)%nat -> i <> pos -> (K (parent i) <= K i)%Z)
  /\ ((0 < pos)%nat ->
      forall c, (0 < c < n)%nat -> parent c = pos -> (K (parent pos) <= K c)%Z).

(** The heap order, but for the edges below [pos]. *)
Definition downInv (K : nat -> Z) (n pos : nat) : Prop :=
  (forall i, (0 < i < n)%nat -> parent i <> pos -> (K (parent i) <= K i)%Z)
  /\ ((0 < pos)%nat ->
      forall c, (0 < c < n)%nat -> parent c = pos -> (K (parent pos) <= K c)%Z).

Ltac indices :=
  unfold swapped;
  repeat match goal with
    | |- context [Nat.eqb ?a ?b] => destruct (Nat.eqb_spec a b)
    | H : context [Nat.eqb ?a ?b] |- _ => destruct (Nat.eqb_spec a b)
    end;
  subst; try lia.

Lemma up_done (K : nat -> Z) (n pos : nat) :
  upInv K n pos -> (pos = O \/ (K (parent pos) <= K pos)%Z) -> heapZ K n.
Proof.
  intros [H1 _] Hd i Hi. destruct (Nat.eq_dec i pos) as [-> | Hne]; [| now apply H1].
  destruct Hd; [lia | assumption].
Qed.

Lemma up_step (K : nat -> Z) (n pos : nat) :
  (0 < pos < n)%nat -> upInv K n pos -> (K pos < K (parent pos))%Z ->
  upInv (swapped K (parent pos) pos) n (parent pos).
Proof.
  intros Hpos [H1 H2] Hlt. pose proof (parent_lt pos (proj1 Hpos)) as Hp.
  specialize (H2 (proj1 Hpos)). split.
  - intros i Hi Hne. pose proof (parent_lt i (proj1 Hi)) as Hpi.
    destruct (Nat.eq_dec i pos) as [-> | Hip].
    + indices.
    + destruct (Nat.eq_dec (parent i) pos) as [Ec | Ec].
      * specialize (H2 i Hi Ec). indices.
      * destruct (Nat.eq_dec (parent i) (parent pos)) as [Es | Es].
        -- specialize (H1 i Hi Hip). rewrite Es in H1. indices.
        -- specialize (H1 i Hi Hip). indices.
  - intros Hpp c Hc Ec. pose proof (parent_lt (parent pos) Hpp) as Hppp.
    assert (E1 : (K (parent (parent pos)) <= K (parent pos))%Z) by (apply H1; lia).
    destruct (Nat.eq_dec c pos) as [-> | Hcp].
    + indices.
    + assert (E2 : (K (parent pos) <= K c)%Z) by (rewrite <- Ec; apply H1; lia).
      pose proof (parent_lt c (proj1 Hc)). indices.
Qed.

Lemma down_done (K : nat -> Z) (n pos : nat) :
  downInv K n pos ->
  (forall c, (0 < c < n)%nat -> parent c = pos -> (K pos <= K c)%Z) -> heapZ K n.
Proof.
  intros [H1 _] Hd i Hi. destruct (Nat.eq_dec (parent i) pos) as [E | Hne]; [| now apply H1].
  rewrite E. now apply Hd.
Qed.

Lemma down_step (K : nat -> Z) (n pos m : nat) :
  (0 < m < n)%nat -> parent m = pos -> downInv K n pos ->
  (K m < K pos)%Z ->
  (forall c, (0 < c < n)%nat -> parent c = pos -> (K m <= K c)%Z) ->
  downInv (swapped K pos m) n m.
Proof.
  intros Hm Em [H1 H2] Hlt Hmin. pose proof (parent_lt m (proj1 Hm)) as Hpm.
  rewrite Em in Hpm. split.
  - intros i Hi Hne. pose proof (parent_lt i (proj1 Hi)) as Hpi.
    destruct (Nat.eq_dec i m) as [-> | Him].
    + rewrite Em. indices.
    + destruct (Nat.eq_dec (parent i) pos) as [Ec | Ec].
      * specialize (Hmin i Hi Ec). rewrite Ec. indices.
      * destruct (Nat.eq_dec i pos) as [-> | Hip].
        -- assert (0 < pos)%nat by lia.
           specialize (H2 H m Hm Em). indices.
        -- specialize (H1 i Hi Ec). indices.
  - intros _ c Hc Ec. rewrite Em.
    assert (E1 : (K m <= K c)%Z) by (rewrite <- Ec; apply H1; [lia | rewrite Ec; lia]).
    pose proof (parent_lt c (proj1 Hc)). indices.
Qed.

Lemma root_least (K : nat -> Z) (n : nat) :
  heapZ K n -> forall i, (i < n)%nat -> (K O <= K i)%Z.
Proof.
  intros H i. induction i as [i IH] using lt_wf_ind. intros Hi.
  destruct (Nat.eq_dec i O) as [-> | Hne]; [lia |].
  pose proof (parent_lt i ltac:(lia)) as Hp.
  specialize (IH (parent i) Hp ltac:(lia)). specialize (H i ltac:(lia)). lia.
Qed.

Lemma upInv_ext (K K' : nat -> Z) (n pos : nat) :
  (forall i, K i = K' i) -> upInv K n pos -> upInv K' n pos.
Proof.
  intros E [H1 H2]. split.
  - intros i Hi Hne. rewrite <- !E. now apply H1.
  - intros Hp c Hc Ec. rewrite <- !E. now apply H2.
Qed.

Lemma downInv_ext (K K' : nat -> Z) (n pos : nat) :
  (forall i, K i = K' i) -> downInv K n pos -> downInv K' n pos.
Proof.
  intros E [H1 H2]. split.
  - intros i Hi Hne. rewrite <- !E. now apply H1.
  - intros Hp c Hc Ec. rewrite <- !E. now apply H2.
Qed.

End Keys.

(** ** The queue *)
Section Queue.
Variable store : Store.
Local Open Scope float_scope.

Definition keyAt (q : list Ref) (i : nat) : float := key store (nth i q O).
Definition keyZ (q : list Ref) (i : nat) : Z := ord (keyAt q i).

(** The heap order of the array: no element is below its parent, in the
    comparison [pqpush] makes. *)
Definition isHeap (q : list Ref) : Prop :=
  forall i, (0 < i < length q)%nat -> (keyAt q (parent i) <=? keyAt q i) = true.

(** No priority is NaN. *)
Definition noNaN (q : list Ref) : Prop :=
  Forall (fun r => isNaN (key store r) = false) q.

Lemma assign_cons (a : Ref) (q : list Ref) (i : nat) (v : Ref) :
  assign (a :: q) (S i) v = a :: assign q i v.
Proof. reflexivity. Qed.

Lemma length_assign (q : list Ref) :
  forall (i : nat) (v : Ref), (i < length q)%nat -> length (assign q i v) = length q.
Proof.
  induction q as [| a q IH]; intros i v H; [cbn in H; lia |].
  destruct i as [| i]; [reflexivity |].
  rewrite assign_cons. cbn [length]. f_equal. apply IH. cbn in H. lia.
Qed.

Lemma nth_assign (q : list Ref) :
  forall (i k : nat) (v : Ref), (i < length q)%nat ->
    nth k (assign q i v) O = if (k =? i)%nat then v else nth k q O.
Proof.
  induction q as [| a q IH]; intros i k v H; [cbn in H; lia |].
  destruct i as [| i].
  - destruct k; reflexivity.
  - rewrite assign_cons. destruct k as [| k]; [reflexivity |].
    cbn [nth]. rewrite IH by (cbn in H; lia). reflexivity.
Qed.

Lemma assign_perm (q : list Ref) :
  forall (i : nat) (v : Ref), (i < length q)%nat ->
    Permutation (nth i q O :: assign q i v) (v :: q).
Proof.
  induction q as [| a q IH]; intros i v H; [cbn in H; lia |].
  destruct i as [| i].
  - cbn. apply perm_swap.
  - rewrite assign_cons. cbn [nth].
    eapply perm_trans; [apply perm_swap |].
    eapply perm_trans; [apply perm_skip, IH; cbn in H; lia |].
    apply perm_swap.
Qed.

Lemma length_swap (q : list Ref) (i j : nat) :
  (i < length q)%nat -> (j < length q)%nat -> length (swap q i j) = length q.
Proof.
  intros Hi Hj. unfold swap. rewrite length_assign; rewrite length_assign; auto.
Qed.

Lemma nth_swap (q : list Ref) (i j k : nat) :
  (i < length q)%nat -> (j < length q)%nat ->
  nth k (swap q i j) O
  = if (k =? j)%nat then nth i q O else if (k =? i)%nat then nth j q O else nth k q O.
Proof.
  intros Hi Hj. unfold swap.
  rewrite nth_assign by (rewrite length_assign; auto).
  rewrite nth_assign by auto. reflexivity.
Qed.

Lemma swap_perm (q : list Ref) (i j : nat) :
  (i < length q)%nat -> (j < length q)%nat -> Permutation (swap q i j) q.
Proof.
  intros Hi Hj. unfold swap.
  set (x := nth i q O). set (y := nth j q O). set (q1 := assign q i y).
  assert (L1 : length q1 = length q) by (apply length_assign; auto).
  assert (Ey : nth j q1 O = y).
  { unfold q1. rewrite nth_assign by auto. destruct (Nat.eqb_spec j i); reflexivity. }
  apply (Permutation_cons_inv (a := y)).
  eapply perm_trans; [rewrite <- Ey; apply assign_perm; lia |].
  eapply perm_trans; [| apply (assign_perm q i y Hi)].
  fold x. fold q1. apply Permutation_refl.
Qed.

Lemma keyZ_swap (q : list Ref) (a b : nat) :
  (a < length q)%nat -> (b < length q)%nat ->
  forall i, swapped (keyZ q) a b i = keyZ (swap q a b) i.
Proof.
  intros Ha Hb i. unfold swapped, keyZ, keyAt. rewrite nth_swap by auto.
  destruct (i =? b)%nat; [reflexivity |]. destruct (i =? a)%nat; reflexivity.
Qed.

Lemma noNaN_nth (q : list Ref) (i : nat) :
  noNaN q -> (i < length q)%nat -> isNaN (keyAt q i) = false.
Proof.
  intros H Hi. unfold noNaN in H. rewrite Forall_forall in H.
  apply H, nth_In, Hi.
Qed.

Lemma leb_keyZ (q : list Ref) (i j : nat) :
  noNaN q -> (i < length q)%nat -> (j < length q)%nat ->
  (keyAt q i <=? keyAt q j) = (keyZ q i <=? keyZ q j)%Z.
Proof.
  intros H Hi Hj. rewrite leb_ord, (noNaN_nth q i H Hi), (noNaN_nth q j H Hj). reflexivity.
Qed.

Lemma ltb_keyZ (q : list Ref) (i j : nat) :
  noNaN q -> (i < length q)%nat -> (j < length q)%nat ->
  (keyAt q i <? keyAt q j) = (keyZ q i <? keyZ q j)%Z.
Proof.
  intros H Hi Hj. rewrite ltb_ord, (noNaN_nth q i H Hi), (noNaN_nth q j H Hj). reflexivity.
Qed.

Lemma isHeap_heapZ (q : list Ref) :
  noNaN q -> (isHeap q <-> heapZ (keyZ q) (length q)).
Proof.
  intros H. split; intros Hh i Hi; pose proof (parent_lt i (proj1 Hi)) as Hp;
    specialize (Hh i Hi).
  - rewrite leb_keyZ in Hh by (auto; lia). now apply Z.leb_le.
  - rewrite leb_keyZ by (auto; lia). now apply Z.leb_le.
Qed.

(** *** [pqpush] *)

Lemma siftUp_perm (fuel : nat) :
  forall (q : list Ref) (pos : nat), (pos < length q)%nat ->
    Permutation (siftUp fuel store q pos) q.
Proof.
  induction fuel as [| fuel IH]; intros q pos Hpos; cbn [siftUp]; [reflexivity |].
  destruct (0 <? pos)%nat eqn:E0; [| reflexivity].
  apply Nat.ltb_lt in E0. pose proof (parent_lt pos E0) as Hp. unfold parent in Hp.
  destruct (_ <=? _); [reflexivity |].
  eapply perm_trans; [apply IH; rewrite length_swap; lia |].
  apply swap_perm; lia.
Qed.

Lemma siftUp_heap (fuel : nat) :
  forall (q : list Ref) (pos : nat),
    noNaN q -> (pos < length q)%nat -> (pos <= fuel)%nat ->
    upInv (keyZ q) (length q) pos ->
    isHeap (siftUp fuel store q pos).
Proof.
  induction fuel as [| fuel IH]; intros q pos Hn Hpos Hfuel Hinv; cbn [siftUp].
  - apply isHeap_heapZ; [exact Hn |]. apply (up_done _ _ pos Hinv). left. lia.
  - destruct (0 <? pos)%nat eqn:E0.
    + apply Nat.ltb_lt in E0. pose proof (parent_lt pos E0) as Hp.
      change (Nat.div2 (pos - 1)) with (parent pos).
      change (key store (nth (parent pos) q O)) with (keyAt q (parent pos)).
      change (key store (nth pos q O)) with (keyAt q pos).
      rewrite leb_keyZ by (auto; lia).
      destruct (Z.leb_spec (keyZ q (parent pos)) (keyZ q pos)) as [Hle | Hlt].
      * apply isHeap_heapZ; [exact Hn |]. apply (up_done _ _ pos Hinv). now right.
      * apply IH.
        -- unfold noNaN. eapply Permutation_Forall; [| exact Hn].
           symmetry. apply swap_perm; lia.
        -- rewrite length_swap; lia.
        -- lia.
        -- rewrite length_swap by lia.
           apply (upInv_ext (swapped (keyZ q) (parent pos) pos)).
           ++ apply keyZ_swap; lia.
           ++ apply up_step; [lia | exact Hinv | exact Hlt].
    + apply isHeap_heapZ; [exact Hn |]. apply (up_done _ _ pos Hinv). left.
      apply Nat.ltb_ge in E0. lia.
Qed.

Lemma pqpush_perm (q : list Ref) (val : Ref) : Permutation (pqpush store q val) (val :: q).
Proof.
  unfold pqpush. eapply perm_trans; [apply siftUp_perm; rewrite length_app; cbn; lia |].
  apply Permutation_sym, Permutation_cons_append.
Qed.

Lemma pqpush_isHeap (q : list Ref) (val : Ref) :
  noNaN (val :: q) -> isHeap q -> isHeap (pqpush store q val).
Proof.
  intros Hn Hh. unfold pqpush.
  assert (Hn' : noNaN (q ++ [val])).
  { unfold noNaN. eapply Permutation_Forall; [| exact Hn]. apply Permutation_cons_append. }
  assert (Hnq : noNaN q) by (now inversion Hn).
  apply siftUp_heap; [exact Hn' | rewrite length_app; cbn; lia | lia |].
  apply (proj1 (isHeap_heapZ q Hnq)) in Hh.
  rewrite length_app. cbn [length]. split.
  - intros i Hi Hne. pose proof (parent_lt i (proj1 Hi)) as Hp.
    unfold keyZ, keyAt. rewrite !app_nth1 by lia. apply Hh. lia.
  - intros Hpos c Hc Ec. apply parent_children in Ec; lia.
Qed.

(** *** [pqpop] *)

Lemma siftDown_perm (fuel : nat) :
  forall (q : list Ref) (pos : nat), Permutation (siftDown fuel store q pos) q.
Proof.
  induction fuel as [| fuel IH]; intros q pos; cbn [siftDown]; [reflexivity |].
  destruct (2 * pos + 1 <? length q)%nat eqn:El; [| reflexivity].
  apply Nat.ltb_lt in El. cbv zeta.
  set (m1 := if key store (nth (2 * pos + 1) q O) <? key store (nth pos q O)
             then (2 * pos + 1)%nat else pos).
  destruct (S (2 * pos + 1) <? length q)%nat eqn:Er; cbn [andb].
  - apply Nat.ltb_lt in Er.
    destruct (key store (nth (S (2 * pos + 1)) q O) <? key store (nth m1 q O)).
    + destruct (Nat.eqb_spec (S (2 * pos + 1)) pos); [reflexivity |].
      eapply perm_trans; [apply IH | apply swap_perm; lia].
    + destruct (Nat.eqb_spec m1 pos); [reflexivity |].
      eapply perm_trans; [apply IH |]. apply swap_perm; [lia |].
      unfold m1. destruct (_ <? _); lia.
  - destruct (Nat.eqb_spec m1 pos); [reflexivity |].
    eapply perm_trans; [apply IH |]. apply swap_perm; [lia |].
    unfold m1. destruct (_ <? _); lia.
Qed.

Lemma ltb_key (q : list Ref) (i j : nat) :
  noNaN q -> (i < length q)%nat -> (j < length q)%nat ->
  (key store (nth i q O) <? key store (nth j q O)) = (keyZ q i <? keyZ q j)%Z.
Proof. exact (ltb_keyZ q i j). Qed.

Lemma siftDown_step (q : list Ref) (pos m : nat) (fuel : nat)
    (IH : forall (q : list Ref) (pos : nat),
        noNaN q -> (length q <= fuel + pos)%nat ->
        downInv (keyZ q) (length q) pos -> isHeap (siftDown fuel store q pos)) :
  noNaN q -> (length q <= S fuel + pos)%nat -> downInv (keyZ q) (length q) pos ->
  (0 < m < length q)%nat -> (pos < m)%nat -> parent m = pos ->
  (keyZ q m < keyZ q pos)%Z ->
  (forall c, (0 < c < length q)%nat -> parent c = pos -> (keyZ q m <= keyZ q c)%Z) ->
  isHeap (siftDown fuel store (swap q pos m) m).
Proof.
  intros Hn Hfuel Hinv Hm Hpm Em Hlt Hmin. apply IH.
  - unfold noNaN. eapply Permutation_Forall; [| exact Hn]. symmetry. apply swap_perm; lia.
  - rewrite length_swap; lia.
  - rewrite length_swap by lia.
    apply (downInv_ext (swapped (keyZ q) pos m)); [apply keyZ_swap; lia |].
    now apply down_step.
Qed.

Lemma siftDown_heap (fuel : nat) :
  forall (q : list Ref) (pos : nat),
    noNaN q -> (length q <= fuel + pos)%nat ->
    downInv (keyZ q) (length q) pos ->
    isHeap (siftDown fuel store q pos).
Proof.
  induction fuel as [| fuel IH]; intros q pos Hn Hfuel Hinv; cbn [siftDown].
  - apply isHeap_heapZ; [exact Hn |]. apply (down_done _ _ pos Hinv).
    intros c Hc Ec. apply parent_children in Ec; lia.
  - destruct (2 * pos + 1 <? length q)%nat eqn:El.
    2:{ apply Nat.ltb_ge in El. apply isHeap_heapZ; [exact Hn |].
        apply (down_done _ _ pos Hinv). intros c Hc Ec. apply parent_children in Ec; lia. }
    apply Nat.ltb_lt in El. cbv zeta.
    assert (Pl : parent (2 * pos + 1) = pos) by (apply parent_children; lia).
    assert (Pr : parent (S (2 * pos + 1)) = pos) by (apply parent_children; lia).
    rewrite (ltb_key q (2 * pos + 1) pos) by (auto; lia).
    destruct (Z.ltb_spec (keyZ q (2 * pos + 1)) (keyZ q pos)) as [HL | HL].
    + (* the left child is below [pos] *)
      destruct (S (2 * pos + 1) <? length q)%nat eqn:Er; cbn [andb].
      * apply Nat.ltb_lt in Er.
        rewrite (ltb_key q (S (2 * pos + 1)) (2 * pos + 1)) by (auto; lia).
        destruct (Z.ltb_spec (keyZ q (S (2 * pos + 1))) (keyZ q (2 * pos + 1))) as [HR | HR].
        -- destruct (Nat.eqb_spec (S (2 * pos + 1)) pos); [lia |].
           apply (siftDown_step q pos (S (2 * pos + 1)) fuel IH); auto; try lia.
           intros c Hc Ec. apply parent_children in Ec; [| lia].
           destruct Ec as [-> | ->]; [lia |].
           replace (2 * pos + 2)%nat with (S (2 * pos + 1)) by lia. lia.
        -- destruct (Nat.eqb_spec (2 * pos + 1) pos); [lia |].
           apply (siftDown_step q pos (2 * pos + 1)%nat fuel IH); auto; try lia.
           intros c Hc Ec. apply parent_children in Ec; [| lia].
           destruct Ec as [-> | ->]; [lia |].
           replace (2 * pos + 2)%nat with (S (2 * pos + 1)) by lia. lia.
      * apply Nat.ltb_ge in Er.
        destruct (Nat.eqb_spec (2 * pos + 1) pos); [lia |].
        apply (siftDown_step q pos (2 * pos + 1)%nat fuel IH); auto; try lia.
        intros c Hc Ec. apply parent_children in Ec; [| lia].
        destruct Ec as [-> | ->]; lia.
    + (* it is not *)
      destruct (S (2 * pos + 1) <? length q)%nat eqn:Er; cbn [andb].
      * apply Nat.ltb_lt in Er.
        rewrite (ltb_key q (S (2 * pos + 1)) pos) by (auto; lia).
        destruct (Z.ltb_spec (keyZ q (S (2 * pos + 1))) (keyZ q pos)) as [HR | HR].
        -- destruct (Nat.eqb_spec (S (2 * pos + 1)) pos); [lia |].
           apply (siftDown_step q pos (S (2 * pos + 1)) fuel IH); auto; try lia.
           intros c Hc Ec. apply parent_children in Ec; [| lia].
           destruct Ec as [-> | ->]; [lia |].
           replace (2 * pos + 2)%nat with (S (2 * pos + 1)) by lia. lia.
        -- rewrite Nat.eqb_refl. apply isHeap_heapZ; [exact Hn |].
           apply (down_done _ _ pos Hinv). intros c Hc Ec.
           apply parent_children in Ec; [| lia].
           destruct Ec as [-> | ->]; [lia |].
           replace (2 * pos + 2)%nat with (S (2 * pos + 1)) by lia. lia.
      * apply Nat.ltb_ge in Er. rewrite Nat.eqb_refl. apply isHeap_heapZ; [exact Hn |].
        apply (down_done _ _ pos Hinv). intros c Hc Ec.
        apply parent_children in Ec; [| lia].
        destruct Ec as [-> | ->]; lia.
Qed.

Lemma nth_removelast (l : list Ref) (k : nat) :
  (S k < length l)%nat -> nth k (removelast l) O = nth k l O.
Proof.
  intros H. destruct l as [| a l]; [cbn in H; lia |].
  rewrite (app_removelast_last O (l := a :: l)) at 2 by discriminate.
  rewrite app_nth1; [reflexivity |].
  pose proof (f_equal (@length Ref) (app_removelast_last O (l := a :: l) ltac:(discriminate))) as E.
  rewrite length_app in E. cbn [length] in *. lia.
Qed.

(** What [pqpop] does to a queue of two or more. *)
Lemma pqpop_long (ret a : Ref) (rest : list Ref) :
  let q := ret :: a :: rest in
  let q' := last q O :: removelast (a :: rest) in
  pqpop store q = (Some ret, siftDown (length q') store q' 0)
  /\ length q' = S (length rest)
  /\ Permutation q (ret :: q')
  /\ forall i, (0 < i < length q')%nat -> nth i q' O = nth i q O.
Proof.
  cbv zeta. split; [reflexivity |].
  assert (E : a :: rest = removelast (a :: rest) ++ [last (a :: rest) O])
    by (apply app_removelast_last; discriminate).
  assert (L : length (removelast (a :: rest)) = length rest).
  { pose proof (f_equal (@length Ref) E) as EL. rewrite length_app in EL.
    cbn [length] in EL. lia. }
  split; [cbn [length]; now rewrite L |]. split.
  - apply perm_skip. change (last (ret :: a :: rest) O) with (last (a :: rest) O).
    rewrite E at 1. apply Permutation_sym, Permutation_cons_append.
  - intros i Hi. cbn [length] in Hi. rewrite L in Hi.
    destruct i as [| i]; [lia |]. cbn [nth].
    change (nth i (removelast (a :: rest)) O = nth i (a :: rest) O).
    apply nth_removelast. cbn [length]. lia.
Qed.

Lemma pqpop_perm (q : list Ref) :
  match pqpop store q with
  | (None, q') => q = [] /\ q' = []
  | (Some r, q') => Permutation q (r :: q')
  end.
Proof.
  destruct q as [| ret [| a rest]]; [split; reflexivity | apply Permutation_refl |].
  destruct (pqpop_long ret a rest) as (E & _ & P & _). rewrite E.
  eapply perm_trans; [exact P |]. apply perm_skip, Permutation_sym, siftDown_perm.
Qed.

Lemma pqpop_isHeap (q : list Ref) :
  noNaN q -> isHeap q ->
  isHeap (snd (pqpop store q))
  /\ match fst (pqpop store q) with
     | None => q = []
     | Some r => Forall (fun r' => (key store r <=? key store r') = true) q
     end.
Proof.
  intros Hn Hh.
  assert (Hleast : forall ret rest, q = ret :: rest ->
            Forall (fun r' => (key store ret <=? key store r') = true) q).
  { intros ret rest ->. apply Forall_forall. intros r' Hin.
    destruct (In_nth _ _ O Hin) as (i & Hi & <-).
    pose proof (root_least _ _ (proj1 (isHeap_heapZ _ Hn) Hh) i Hi) as Hle.
    change (key store ret) with (keyAt (ret :: rest) 0).
    change (key store (nth i (ret :: rest) O)) with (keyAt (ret :: rest) i).
    rewrite leb_keyZ by (auto; cbn; lia). now apply Z.leb_le. }
  destruct q as [| ret [| a rest]].
  - split; [intros i Hi; cbn in Hi; lia | reflexivity].
  - split; [intros i Hi; cbn in Hi; lia | now apply (Hleast ret [])].
  - destruct (pqpop_long ret a rest) as (E & L & P & Hnth). rewrite E. cbn [fst snd].
    split; [| now apply (Hleast ret (a :: rest))].
    set (q' := last (ret :: a :: rest) O :: removelast (a :: rest)) in *.
    assert (Hn' : noNaN q').
    { assert (Hn2 : noNaN (ret :: q')) by (unfold noNaN; eapply Permutation_Forall; eauto).
      now inversion Hn2. }
    apply siftDown_heap; [exact Hn' | lia |]. split; [| lia].
    intros i Hi Hne. pose proof (parent_lt i (proj1 Hi)) as Hp.
    unfold keyZ, keyAt. rewrite !Hnth by lia.
    apply (proj1 (isHeap_heapZ _ Hn) Hh). cbn [length] in *. lia.
Qed.

(** ** Results *)

(** Whatever the priorities, NaN included: [pqpush] adds the element and
    [pqpop] removes the one it returns, and nothing else is lost or
    duplicated; on an empty queue [pqpop] returns undefined and leaves it
    empty. *)
Theorem pq_elements (q : list Ref) (val : Ref) :
  Permutation (pqpush store q val) (val :: q)
  /\ match pqpop store q with
     | (None, q') => q = [] /\ q' = []
     | (Some r, q') => Permutation q (r :: q')
     end.
Proof. split; [apply pqpush_perm | apply pqpop_perm]. Qed.

(** When no priority is NaN, [pqpush] keeps the heap order. *)
Theorem pqpush_heap (q : list Ref) (val : Ref) :
  noNaN (val :: q) -> isHeap q -> isHeap (pqpush store q val).
Proof. apply pqpush_isHeap. Qed.

(** When no priority is NaN, [pqpop] on a heap returns an element of least
    priority and leaves a heap. *)
Theorem pqpop_least (q : list Ref) :
  noNaN q -> isHeap q -> q <> [] ->
  exists r q',
    pqpop store q = (Some r, q')
    /\ Forall (fun r' => (key store r <=? key store r') = true) q
    /\ isHeap q'.
Proof.
  intros Hn Hh Hne. destruct (pqpop_isHeap q Hn Hh) as [H1 H2].
  destruct (pqpop store q) as [[r |] q'] eqn:E; cbn [fst snd] in *; [| congruence].
  exists r, q'. auto.
Qed.

End Queue.

(** A store of three segments that start at 0.25, 0.5 and -0.25. *)
Definition threeCuts : Store :=
  fst (alloc (fst (alloc (fst (alloc emptyStore (mkSeg 0.25 1 noCurve 0)))
                         (mkSeg 0.5 1 noCurve 0)))
             (mkSeg (-0.25) 1 noCurve 0)).

Lemma pqpush_heap_witness : isHeap threeCuts (pqpush threeCuts [0; 1]%nat 2%nat).
Proof.
  apply (pqpush_heap threeCuts [0; 1]%nat 2%nat).
  - repeat constructor.
  - intros i Hi. destruct i as [| [| i]]; cbn in Hi; try lia. reflexivity.
Defined.

Lemma pqpop_least_witness :
  exists r q',
    pqpop threeCuts [2; 1; 0]%nat = (Some r, q')
    /\ Forall (fun r' => (key threeCuts r <=? key threeCuts r')%float = true) [2; 1; 0]%nat
    /\ isHeap threeCuts q'.
Proof.
  apply (pqpop_least threeCuts [2; 1; 0]%nat).
  - repeat constructor.
  - intros i Hi. destruct i as [| [| [| i]]]; cbn in Hi; try lia; reflexivity.
  - discriminate.
Defined.

End PriorityQueue.

(** * pathSampling.ts: the helpers of the sweep *)
Module Sweeping.
Import F64 PathSampling.
Local Open Scope float_scope.

Section MinR.
Variable store : Store.
Variables dadt a : float.

(** The loop of [getMinR] from a radius already held. *)
Lemma getMinR_from (cuts : list Ref) :
  forall m0 : float,
    isNaN m0 = false ->
    Forall (fun r => isNaN (radiusAt store dadt a r) = false) cuts ->
    exists m,
      fold_left (fun ret cut =>
                   let r := radiusAt store dadt a cut in
                   match ret with
                   | None => Some r
                   | Some m => if r <=? m then Some r else Some m
                   end) cuts (Some m0) = Some m
      /\ isNaN m = false
      /\ (ord m <= ord m0)%Z
      /\ Forall (fun r => (ord m <= ord (radiusAt store dadt a r))%Z) cuts
      /\ (m = m0 \/ exists r, In r cuts /\ radiusAt store dadt a r = m).
Proof.
  induction cuts as [| c cuts IH]; intros m0 N0 Hn.
  - exists m0. cbn. repeat split; auto. lia.
  - inversion Hn as [| ? ? Nc Hrest]; subst. cbn [fold_left].
    destruct (radiusAt store dadt a c <=? m0) eqn:E.
    + destruct (IH _ Nc Hrest) as (m & Em & Nm & Hle & Hall & Hin).
      exists m. split; [exact Em |]. split; [exact Nm |].
      rewrite leb_ord, Nc, N0 in E. cbn in E. apply Z.leb_le in E.
      split; [lia |]. split; [constructor; [lia | exact Hall] |].
      right. destruct Hin as [-> | (r & Hr & Er)]; [exists c | exists r]; cbn; auto.
    + destruct (IH _ N0 Hrest) as (m & Em & Nm & Hle & Hall & Hin).
      exists m. split; [exact Em |]. split; [exact Nm |].
      rewrite leb_ord, Nc, N0 in E. cbn in E. apply Z.leb_gt in E.
      split; [lia |]. split; [constructor; [lia | exact Hall] |].
      destruct Hin as [-> | (r & Hr & Er)]; [left; reflexivity | right; exists r; cbn; auto].
Qed.

(** [getMinR] returns null exactly for no cuts; when no radius is NaN it
    returns the radius of one of the cuts, and no cut has a smaller one. *)
Theorem getMinR_least (cuts : list Ref) :
  Forall (fun r => isNaN (radiusAt store dadt a r) = false) cuts ->
  match getMinR store cuts dadt a with
  | None => cuts = []
  | Some m =>
      (exists r, In r cuts /\ radiusAt store dadt a r = m)
      /\ Forall (fun r => (m <=? radiusAt store dadt a r) = true) cuts
  end.
Proof.
  intros Hn. destruct cuts as [| c cuts]; [reflexivity |].
  inversion Hn as [| ? ? Nc Hrest]; subst.
  destruct (getMinR_from cuts _ Nc Hrest) as (m & Em & Nm & Hle & Hall & Hin).
  assert (E0 : getMinR store (c :: cuts) dadt a = Some m) by exact Em.
  rewrite E0. split.
  - destruct Hin as [-> | (r & Hr & Er)]; [exists c | exists r]; cbn; auto.
  - constructor.
    + rewrite leb_ord, Nm, Nc. cbn. now apply Z.leb_le.
    + rewrite Forall_forall in *. intros r Hr.
      rewrite leb_ord, Nm, (Hrest r Hr). cbn. apply Z.leb_le. now apply Hall.
Qed.

(** [getBottomSegs] returns the cuts that reach the angle and whose radius
    there is within the tolerance of [bottom]. *)
Lemma getBottomSegs_selects (cuts : list Ref) (bottom : float) (r : Ref) :
  In r (getBottomSegs store cuts dadt a bottom)
  <-> In r cuts
      /\ (a <=? seg1 (deref store r)) = true
      /\ (radiusAt store dadt a r <=? bottom + BOTTOM_TOLERANCE) = true.
Proof.
  unfold getBottomSegs. rewrite filter_In, andb_true_iff. reflexivity.
Qed.

End MinR.

(** A store of two circles about the axis, of radius 2 and 1. *)
Definition twoCircles : Store :=
  fst (alloc (fst (alloc emptyStore (mkSeg (-0.5) 0.5 (flat 2) 0)))
             (mkSeg (-0.25) 0.25 (flat 1) 0)).

Lemma getMinR_least_witness :
  match getMinR twoCircles [0; 1]%nat 1 0 with
  | None => [0; 1]%nat = []
  | Some m =>
      (exists r, In r [0; 1]%nat /\ radiusAt twoCircles 1 0 r = m)
      /\ Forall (fun r => (m <=? radiusAt twoCircles 1 0 r) = true) [0; 1]%nat
  end.
Proof.
  apply (getMinR_least twoCircles 1 0 [0; 1]%nat).
  repeat constructor.
Defined.

(** ** Where the returned segments come from *)

Definition fromInput (segments : list PolarCutSegment) (store : Store) (r : Ref) : Prop :=
  In (seg2 (deref store r)) (map seg2 segments).

Lemma pushNew_spec (curve : CutCurve) (store : Store) (queue : list Ref)
    (piece : float * float * float) :
  let '(store', queue') := pushNew curve (store, queue) piece in
  size store' = S (size store)
  /\ seg2 (deref store' (size store)) = curve
  /\ (forall r, r <> size store -> deref store' r = deref store r)
  /\ Permutation queue' (size store :: queue).
Proof.
  destruct piece as [[sa ea] rot]. cbn [pushNew alloc].
  split; [reflexivity |]. split; [cbn; now rewrite Nat.eqb_refl |]. split.
  - intros r Hr. cbn. destruct (Nat.eqb_spec r (size store)); [congruence | reflexivity].
  - apply PriorityQueue.pqpush_perm.
Qed.

(** What a store and a queue hold: [known] are the curves met so far. *)
Definition populated (known : list CutCurve) (st : Store * list Ref) : Prop :=
  let '(store, queue) := st in
  (forall r, (r < size store)%nat -> In (seg2 (deref store r)) known)
  /\ Forall (fun r => (r < size store)%nat) queue.

Lemma populated_more (known known' : list CutCurve) (st : Store * list Ref) :
  incl known known' -> populated known st -> populated known' st.
Proof.
  destruct st as [store queue]. intros Hi [H1 H2]. split; [| exact H2].
  intros r Hr. apply Hi, H1, Hr.
Qed.

Lemma pushNew_populated (known : list CutCurve) (curve : CutCurve)
    (pieces : list (float * float * float)) :
  In curve known ->
  forall st, populated known st -> populated known (fold_left (pushNew curve) pieces st).
Proof.
  intros Hc. induction pieces as [| piece pieces IH]; intros st H; [exact H |].
  cbn [fold_left]. apply IH. destruct st as [store queue].
  pose proof (pushNew_spec curve store queue piece) as S.
  destruct (pushNew curve (store, queue) piece) as [store' queue'].
  destruct S as (Hs & Hc' & Hold & Hp). destruct H as [H1 H2]. split.
  - intros r Hr. destruct (Nat.eq_dec r (size store)) as [-> | Hne].
    + now rewrite Hc'.
    + rewrite Hold by exact Hne. apply H1. lia.
  - eapply Permutation_Forall; [symmetry; exact Hp |].
    constructor; [lia |]. eapply Forall_impl; [| exact H2]. cbn. intros r Hr. lia.
Qed.

Lemma populate_populated (fuel : nat) (segments : list PolarCutSegment) :
  forall (known : list CutCurve) (st st' : Store * list Ref),
    populated known st -> populate fuel segments st = Some st' ->
    populated (known ++ map seg2 segments) st'.
Proof.
  induction segments as [| cut rest IH]; intros known st st' H E; cbn [populate] in E.
  - injection E as <-. cbn. now rewrite app_nil_r.
  - destruct (wrapCut _ _ _ _) as [pieces |]; [| discriminate].
    cbn [map]. replace (known ++ seg2 cut :: map seg2 rest)
      with ((known ++ [seg2 cut]) ++ map seg2 rest) by (now rewrite <- app_assoc).
    apply (IH _ _ _ (pushNew_populated (known ++ [seg2 cut]) (seg2 cut) pieces
                       ltac:(apply in_or_app; right; left; reflexivity) st
                       (populated_more known _ st ltac:(apply incl_appl, incl_refl) H)) E).
Qed.

(** *** The sweep moves references about and makes none *)

Lemma admitCuts_incl (fuel : nat) (store : Store) (cura : float) :
  forall (queue active : list Ref),
    incl (fst (admitCuts fuel store cura queue active)) queue
    /\ incl (snd (admitCuts fuel store cura queue active)) (active ++ queue).
Proof.
  induction fuel as [| fuel IH]; intros queue active; cbn [admitCuts].
  - split; [apply incl_refl | apply incl_appl, incl_refl].
  - destruct queue as [| top queue']; [split; [apply incl_refl | apply incl_appl, incl_refl] |].
    destruct (key store top <=? cura);
      [| split; [apply incl_refl | apply incl_appl, incl_refl]].
    pose proof (PriorityQueue.pqpop_perm store (top :: queue')) as P.
    destruct (pqpop store (top :: queue')) as [[r |] pq'].
    + destruct (IH pq' (active ++ [r])) as [I1 I2].
      assert (Hsub : incl (r :: pq') (top :: queue'))
        by (intros x Hx; eapply Permutation_in; [symmetry; exact P | exact Hx]).
      split.
      * intros x Hx. apply Hsub. right. now apply I1.
      * intros x Hx. apply I2 in Hx. rewrite <- app_assoc in Hx.
        apply in_app_or in Hx. destruct Hx as [Hx | Hx]; [apply in_or_app; now left |].
        apply in_or_app. right. apply Hsub. exact Hx.
    + destruct P as [P _]. discriminate.
Qed.

(** Every reference a sweep holds is one of [refs]. *)
Definition holds (refs : list Ref) (s : Sweep) : Prop :=
  incl (pq s) refs /\ incl (activeCuts s) refs /\ incl (prevCandidates s) refs
  /\ incl (bottomCuts s) refs.

Lemma commit_holds (refs : list Ref) (s : Sweep) :
  prevCandidates s <> [] -> holds refs s -> holds refs (commit s).
Proof.
  intros Hne (H1 & H2 & H3 & H4). unfold commit, holds. cbn.
  repeat split; auto. apply incl_app; [exact H4 |].
  destruct (prevCandidates s) as [| c cs]; [congruence |].
  intros x [<- | []]. apply H3. left. reflexivity.
Qed.

Lemma getBottomSegs_incl (store : Store) (cuts : list Ref) (dadt a bottom : float) :
  incl (getBottomSegs store cuts dadt a bottom) cuts.
Proof. unfold getBottomSegs. apply incl_filter. Qed.

Lemma sweepStep_holds (store : Store) (dadt : float) (refs : list Ref) (s : Sweep)
    (cura : float) :
  holds refs s -> holds refs (sweepStep store dadt s cura).
Proof.
  intros (H1 & H2 & H3 & H4). unfold sweepStep.
  destruct (admitCuts_incl (length (pq s)) store cura (pq s) (activeCuts s)) as [A1 A2].
  destruct (admitCuts _ _ _ _ _) as [pq1 active1]. cbn [fst snd] in A1, A2.
  assert (Ha : incl (filter (fun r => cura <? seg1 (deref store r)) active1) refs).
  { intros x Hx. apply filter_In in Hx. destruct Hx as [Hx _]. apply A2 in Hx.
    apply in_app_or in Hx. destruct Hx; auto. }
  assert (Hq : incl pq1 refs) by (intros x Hx; auto).
  assert (Hb : forall cuts a bottom, incl cuts refs ->
                 incl (getBottomSegs store cuts dadt a bottom) refs).
  { intros cuts a bottom Hc x Hx. apply getBottomSegs_incl in Hx. auto. }
  cbv zeta. cbn [prevCandidates].
  destruct (prevCandidates s) as [| c cs] eqn:Ec.
  - destruct (getMinR _ _ _ _) as [m |]; unfold holds;
      cbn [pq activeCuts prevCandidates bottomCuts]; repeat split; auto.
  - destruct (getMinR _ _ _ _) as [m |].
    + destruct (getBottomSegs store (c :: cs) dadt cura m) as [| v vs] eqn:Es;
        unfold holds, commit; cbn [pq activeCuts prevCandidates bottomCuts hd];
        repeat split; auto.
      * apply incl_app; [exact H4 |]. intros x [<- | []]. apply H3. left. reflexivity.
      * rewrite <- Es. auto.
    + unfold holds, commit; cbn [pq activeCuts prevCandidates bottomCuts hd];
        repeat split; auto.
      * intros x [].
      * apply incl_app; [exact H4 |]. intros x [<- | []]. apply H3. left. reflexivity.
Qed.

Lemma sweep_incl (store : Store) (dadt : float) (queue : list Ref) (sampleAs : list float) :
  incl (bottomCuts (sweep store dadt queue sampleAs)) queue.
Proof.
  unfold sweep.
  set (s0 := mkSweep queue [] [] (-0.5) (-0.5) [] [] []).
  assert (H0 : holds queue s0).
  { unfold holds, s0. cbn. repeat split; try apply incl_refl; intros x []. }
  revert H0. generalize s0. clear s0.
  induction sampleAs as [| a rest IH]; intros s H; cbn [fold_left].
  - destruct (prevCandidates s) eqn:Ec; [apply H |].
    apply commit_holds; [rewrite Ec; discriminate | exact H].
  - apply IH. now apply sweepStep_holds.
Qed.

(** *** The queue is a heap, and cuts are admitted in order *)

Lemma isHeap_ext (store store' : Store) (queue : list Ref) :
  (forall r, In r queue -> deref store' r = deref store r) ->
  PriorityQueue.isHeap store queue -> PriorityQueue.isHeap store' queue.
Proof.
  intros E H i Hi. pose proof (PriorityQueue.parent_lt i (proj1 Hi)) as Hp.
  specialize (H i Hi). unfold PriorityQueue.keyAt, key in *.
  rewrite !E by (apply nth_In; lia). exact H.
Qed.

(** A store and queue on the way: the queue holds references into the store
    and is a heap. *)
Definition heaped (st : Store * list Ref) : Prop :=
  let '(store, queue) := st in
  Forall (fun r => (r < size store)%nat) queue /\ PriorityQueue.isHeap store queue.

(** [st'] extends [st]: the objects of [st] are in [st'] as they were. *)
Definition extends (st st' : Store * list Ref) : Prop :=
  (size (fst st) <= size (fst st'))%nat
  /\ forall r, (r < size (fst st))%nat -> deref (fst st') r = deref (fst st) r.

Lemma extends_refl (st : Store * list Ref) : extends st st.
Proof. split; auto. Qed.

Lemma extends_trans (st1 st2 st3 : Store * list Ref) :
  extends st1 st2 -> extends st2 st3 -> extends st1 st3.
Proof.
  intros [S1 D1] [S2 D2]. split; [lia |].
  intros r Hr. rewrite D2 by lia. now apply D1.
Qed.

Lemma pushNew_extends (curve : CutCurve) (st : Store * list Ref)
    (piece : float * float * float) :
  extends st (pushNew curve st piece).
Proof.
  destruct st as [store queue].
  pose proof (pushNew_spec curve store queue piece) as S.
  destruct (pushNew curve (store, queue) piece) as [store' queue'].
  destruct S as (Hs & _ & Hold & _). split; cbn [fst].
  - lia.
  - intros r Hr. apply Hold. lia.
Qed.

Lemma fold_pushNew_extends (curve : CutCurve) (pieces : list (float * float * float)) :
  forall st, extends st (fold_left (pushNew curve) pieces st).
Proof.
  induction pieces as [| piece pieces IH]; intros st; cbn [fold_left];
    [apply extends_refl |].
  eapply extends_trans; [apply pushNew_extends | apply IH].
Qed.

Lemma populate_extends (fuel : nat) (segments : list PolarCutSegment) :
  forall st st', populate fuel segments st = Some st' -> extends st st'.
Proof.
  induction segments as [| cut rest IH]; intros st st' E; cbn [populate] in E.
  - injection E as <-. apply extends_refl.
  - destruct (wrapCut _ _ _ _) as [pieces |]; [| discriminate].
    eapply extends_trans; [apply fold_pushNew_extends | apply IH, E].
Qed.

(** No start angle in the final store is NaN. *)
Definition startsNotNaN (store : Store) : Prop :=
  forall r, (r < size store)%nat -> isNaN (key store r) = false.

Lemma pushNew_heaped (curve : CutCurve) (st : Store * list Ref)
    (piece : float * float * float) (final : Store * list Ref) :
  heaped st -> extends (pushNew curve st piece) final -> startsNotNaN (fst final) ->
  heaped (pushNew curve st piece).
Proof.
  destruct st as [store queue]. intros [Hq Hh] Hext Hn.
  pose proof (pushNew_spec curve store queue piece) as Spec.
  destruct piece as [[sa ea] rot]. cbn [pushNew alloc] in *.
  set (store' := mkStore (S (size store)) _) in *.
  destruct Spec as (Hs & _ & Hold & Hp).
  destruct Hext as [Hsize Hderef]. cbn [fst] in Hsize, Hderef.
  assert (Hkeys : forall r, (r < size store')%nat -> isNaN (key store' r) = false).
  { intros r Hr. unfold key. rewrite <- Hderef by exact Hr. apply Hn. lia. }
  split.
  - eapply Permutation_Forall; [symmetry; exact Hp |].
    constructor; [rewrite Hs; lia |].
    eapply Forall_impl; [| exact Hq]. cbn. intros r Hr. lia.
  - apply PriorityQueue.pqpush_isHeap.
    + constructor; [apply Hkeys; rewrite Hs; lia |].
      rewrite Forall_forall in *. intros r Hr. apply Hkeys. specialize (Hq r Hr). lia.
    + apply (isHeap_ext store store'); [| exact Hh].
      intros r Hr. apply Hold. rewrite Forall_forall in Hq. specialize (Hq r Hr). lia.
Qed.

Lemma fold_pushNew_heaped (curve : CutCurve) (pieces : list (float * float * float))
    (final : Store * list Ref) :
  forall st,
    heaped st -> extends (fold_left (pushNew curve) pieces st) final ->
    startsNotNaN (fst final) -> heaped (fold_left (pushNew curve) pieces st).
Proof.
  induction pieces as [| piece pieces IH]; intros st H Hext Hn; cbn [fold_left] in *;
    [exact H |].
  apply IH; [| exact Hext | exact Hn].
  apply (pushNew_heaped curve st piece final H); [| exact Hn].
  eapply extends_trans; [apply fold_pushNew_extends | exact Hext].
Qed.

Lemma populate_heaped (fuel : nat) (segments : list PolarCutSegment) :
  forall st st',
    heaped st -> populate fuel segments st = Some st' -> startsNotNaN (fst st') ->
    heaped st'.
Proof.
  induction segments as [| cut rest IH]; intros st st' H E Hn; cbn [populate] in E.
  - injection E as <-. exact H.
  - destruct (wrapCut _ _ _ _) as [pieces |]; [| discriminate].
    apply (IH _ _ (fold_pushNew_heaped (seg2 cut) pieces st' st H
                     (populate_extends _ _ _ _ E) Hn) E Hn).
Qed.

(** When no span pushed on the queue starts at NaN, the queue that
    [normalizePolarCutPath] builds from the segments is in heap order. *)
Theorem populate_heap (fuel : nat) (segments : list PolarCutSegment)
    (store : Store) (queue : list Ref) :
  populate fuel segments (emptyStore, []) = Some (store, queue) ->
  (forall r, (r < size store)%nat -> isNaN (seg0 (deref store r)) = false) ->
  PriorityQueue.isHeap store queue
  /\ Forall (fun r => (r < size store)%nat) queue.
Proof.
  intros E Hn.
  assert (H0 : heaped (emptyStore, [])).
  { split; [constructor | intros i Hi; cbn in Hi; lia]. }
  destruct (populate_heaped fuel segments _ _ H0 E Hn) as [H1 H2]. auto.
Qed.

Lemma populate_heap_witness :
  exists store queue,
    populate 10 stepCuts (emptyStore, []) = Some (store, queue)
    /\ PriorityQueue.isHeap store queue
    /\ Forall (fun r => (r < size store)%nat) queue.
Proof.
  eexists _, _. split; [vm_compute; reflexivity |].
  eapply (populate_heap 10 stepCuts); [vm_compute; reflexivity |].
  intros r Hr. cbn [size] in Hr.
  destruct r as [| [| r]]; [reflexivity | reflexivity | lia].
Defined.

Lemma pqpop_head (store : Store) (top : Ref) (rest : list Ref) :
  fst (pqpop store (top :: rest)) = Some top.
Proof. destruct rest; reflexivity. Qed.

Lemma admitCuts_spec (store : Store) (cura : float) (fuel : nat) :
  forall (queue active : list Ref),
    isNaN cura = false -> PriorityQueue.noNaN store queue ->
    PriorityQueue.isHeap store queue -> (length queue <= fuel)%nat ->
    exists admitted,
      snd (admitCuts fuel store cura queue active) = active ++ admitted
      /\ Permutation queue (admitted ++ fst (admitCuts fuel store cura queue active))
      /\ Forall (fun r => (key store r <=? cura) = true) admitted
      /\ Forall (fun r => (cura <? key store r) = true)
                (fst (admitCuts fuel store cura queue active))
      /\ PriorityQueue.isHeap store (fst (admitCuts fuel store cura queue active)).
Proof.
  induction fuel as [| fuel IH]; intros queue active Nc Hn Hh Hlen.
  - destruct queue; [| cbn in Hlen; lia]. exists []. cbn. rewrite app_nil_r.
    repeat split; auto.
  - destruct queue as [| top rest].
    + exists []. cbn. rewrite app_nil_r. repeat split; auto.
    + cbn [admitCuts].
      destruct (PriorityQueue.pqpop_isHeap store (top :: rest) Hn Hh) as [Hh' Hleast].
      pose proof (PriorityQueue.pqpop_perm store (top :: rest)) as Hp.
      pose proof (pqpop_head store top rest) as Hhd.
      destruct (key store top <=? cura) eqn:Ek.
      * destruct (pqpop store (top :: rest)) as [[r |] pq'] eqn:Epop; cbn [fst snd] in *;
          [| discriminate].
        injection Hhd as ->.
        assert (Hn' : PriorityQueue.noNaN store pq').
        { assert (H2 : PriorityQueue.noNaN store (top :: pq'))
            by (unfold PriorityQueue.noNaN; eapply Permutation_Forall; eauto).
          now inversion H2. }
        assert (Hlen' : (length pq' <= fuel)%nat).
        { apply Permutation_length in Hp. cbn [length] in *. lia. }
        destruct (IH pq' (active ++ [top]) Nc Hn' Hh' Hlen') as (adm & E1 & E2 & E3 & E4 & E5).
        exists (top :: adm). rewrite E1, <- app_assoc. split; [reflexivity |].
        split; [| split; [constructor; assumption | split; assumption]].
        eapply perm_trans; [exact Hp |]. cbn [app]. now apply perm_skip.
      * exists []. cbn [fst snd app]. rewrite app_nil_r.
        split; [reflexivity |]. split; [apply Permutation_refl |].
        split; [constructor |]. split; [| exact Hh].
        destruct (pqpop store (top :: rest)) as [[r |] pq']; cbn [fst] in *; [| discriminate].
        injection Hhd as ->.
        unfold PriorityQueue.noNaN in Hn. rewrite Forall_forall in Hn, Hleast.
        apply Forall_forall. intros r Hr.
        pose proof (Hleast r Hr) as Hle. pose proof (Hn r Hr) as Nr.
        pose proof (Hn top (in_eq _ _)) as Nt. cbn beta in Nr, Nt.
        clear Hn Hleast Hp Hh Hh'. fcmp.
Qed.

(** With the queue a heap, no priority NaN and the angle [cura] not NaN, the
    loop [while (pq.length && pq[0][0] <= cura) activeCuts.push(pqpop(pq)!)]
    moves to the active cuts exactly the cuts that start at or before [cura]:
    those moved start at or before it, those left start after it, none is
    lost, and the queue is a heap again. *)
Theorem admitCuts_in_order (store : Store) (cura : float) (queue active : list Ref) :
  isNaN cura = false -> PriorityQueue.noNaN store queue ->
  PriorityQueue.isHeap store queue ->
  exists admitted,
    snd (admitCuts (length queue) store cura queue active) = active ++ admitted
    /\ Permutation queue
         (admitted ++ fst (admitCuts (length queue) store cura queue active))
    /\ Forall (fun r => (key store r <=? cura) = true) admitted
    /\ Forall (fun r => (cura <? key store r) = true)
              (fst (admitCuts (length queue) store cura queue active))
    /\ PriorityQueue.isHeap store (fst (admitCuts (length queue) store cura queue active)).
Proof.
  intros Nc Hn Hh. now apply admitCuts_spec.
Qed.

Lemma admitCuts_in_order_witness :
  let store := PriorityQueue.threeCuts in
  exists admitted,
    snd (admitCuts 3 store 0.3 [2; 1; 0]%nat []) = [] ++ admitted
    /\ Permutation [2; 1; 0]%nat (admitted ++ fst (admitCuts 3 store 0.3 [2; 1; 0]%nat []))
    /\ Forall (fun r => (key store r <=? 0.3) = true) admitted
    /\ Forall (fun r => (0.3 <? key store r) = true)
              (fst (admitCuts 3 store 0.3 [2; 1; 0]%nat []))
    /\ PriorityQueue.isHeap store (fst (admitCuts 3 store 0.3 [2; 1; 0]%nat [])).
Proof.
  cbv zeta. apply (admitCuts_in_order PriorityQueue.threeCuts 0.3 [2; 1; 0]%nat []).
  - reflexivity.
  - repeat constructor.
  - intros i Hi. destruct i as [| [| [| i]]]; cbn in Hi; try lia; reflexivity.
Defined.


(** *** The refinement writes angles only *)

Lemma refinePair_curves (dadt : float) (store store' : Store) (lo hi : Ref)
    (startLo startHi : float) :
  refinePair dadt store lo hi startLo startHi = Some store' ->
  forall r, seg2 (deref store' r) = seg2 (deref store r)
            /\ seg3 (deref store' r) = seg3 (deref store r).
Proof.
  unfold refinePair. cbv zeta. destruct (_ <? _); [| now intros [= <-]].
  destruct (FloatBinarySearch.searchForFloat _ _ _) as [[tr [l h]] |]; [| discriminate].
  intros [= <-] r. unfold setSeg0, setSeg1, write. cbn [deref].
  destruct (Nat.eqb_spec r hi) as [-> |]; cbn [seg2 seg3].
  - destruct (Nat.eqb_spec hi lo); cbn [seg2 seg3]; subst; split; reflexivity.
  - destruct (Nat.eqb_spec r lo); cbn [seg2 seg3]; subst; split; reflexivity.
Qed.

Lemma refineFrom_curves (dadt : float) (cuts : list Ref) :
  forall (starts : list float) (store store' : Store) (prev : Ref) (prevStart : float),
    refineFrom dadt store prev prevStart cuts starts = Some store' ->
    forall r, seg2 (deref store' r) = seg2 (deref store r)
              /\ seg3 (deref store' r) = seg3 (deref store r).
Proof.
  induction cuts as [| hi cuts IH]; intros starts store store' prev prevStart E r;
    cbn [refineFrom] in E.
  - injection E as <-. split; reflexivity.
  - destruct starts as [| startHi starts]; [injection E as <-; split; reflexivity |].
    destruct (refinePair dadt store prev hi prevStart startHi) as [store1 |] eqn:E1;
      [| discriminate].
    destruct (refinePair_curves _ _ _ _ _ _ _ E1 r) as [A1 A2].
    destruct (IH _ _ _ _ _ E r) as [B1 B2]. split; congruence.
Qed.

Lemma refine_curves (dadt : float) (store store' : Store) (cuts : list Ref)
    (starts : list float) :
  refine dadt store cuts starts = Some store' ->
  forall r, seg2 (deref store' r) = seg2 (deref store r)
            /\ seg3 (deref store' r) = seg3 (deref store r).
Proof.
  unfold refine. destruct cuts as [| first cuts]; [intros [= <-] r; split; reflexivity |].
  destruct starts as [| firstStart starts]; [intros [= <-] r; split; reflexivity |].
  apply refineFrom_curves.
Qed.

(** Whenever [normalizePolarCutPath] returns, each segment it returns carries
    the curve of one of the segments it was given: the sweep and the
    refinement choose among the given curves and make none. *)
Theorem normalizePolarCutPath_curves (fuel : nat) (segments : list PolarCutSegment)
    (dadt : float) (result : list PolarCutSegment) :
  normalizePolarCutPath fuel segments dadt = Some result ->
  Forall (fun seg => In (seg2 seg) (map seg2 segments)) result.
Proof.
  unfold normalizePolarCutPath, normalizeRefs, swept, prepared.
  destruct (populate fuel segments (emptyStore, [])) as [[store queue] |] eqn:Ep;
    [| discriminate].
  assert (Hp : populated ([] ++ map seg2 segments) (store, queue)).
  { apply (populate_populated fuel segments [] (emptyStore, []) _); [| exact Ep].
    split; [intros r Hr; cbn in Hr; lia | constructor]. }
  cbn [app] in Hp. destruct Hp as [Hstore Hqueue].
  destruct queue as [| q0 queue].
  - cbn. intros [= <-]. constructor.
  - destruct (samplePoints _ _ _) as [sampleAs |]; [| discriminate].
    set (s := sweep store dadt (q0 :: queue) sampleAs).
    destruct (refine dadt store (bottomCuts s) (bottomCutStartSamples s)) as [store' |] eqn:Er;
      [| discriminate].
    intros [= <-]. apply Forall_forall. intros seg Hin.
    apply in_map_iff in Hin. destruct Hin as (r & <- & Hr).
    destruct (refine_curves _ _ _ _ _ Er r) as [-> _].
    apply Hstore. apply sweep_incl in Hr. rewrite Forall_forall in Hqueue. now apply Hqueue.
Qed.

Lemma normalizePolarCutPath_curves_witness :
  exists result,
    normalizePolarCutPath 2000 stepCuts 0.5 = Some result
    /\ Forall (fun seg => In (seg2 seg) (map seg2 stepCuts)) result.
Proof.
  eexists. split; [vm_compute; reflexivity |].
  apply (normalizePolarCutPath_curves 2000 stepCuts 0.5). vm_compute. reflexivity.
Defined.

(** Segments of no width are skipped: when every segment has equal ends, the
    empty array included, the result is the empty array. *)
Theorem normalizePolarCutPath_nothing (fuel : nat) (segments : list PolarCutSegment)
    (dadt : float) :
  Forall (fun cut => (seg1 cut =? seg0 cut) = true) segments ->
  normalizePolarCutPath fuel segments dadt = Some [].
Proof.
  intros H.
  assert (Hp : forall st, populate fuel segments st = Some st).
  { induction H as [| cut rest Hc _ IH]; intros st; cbn [populate]; [reflexivity |].
    unfold wrapCut. cbn [Numeric.eqb Numeric.Number_float]. rewrite Hc. cbn [fold_left].
    apply IH. }
  unfold normalizePolarCutPath, normalizeRefs, swept, prepared. rewrite Hp. reflexivity.
Qed.

Lemma normalizePolarCutPath_nothing_witness :
  normalizePolarCutPath 0 [mkSeg 0.25 0.25 (flat 1) 0; mkSeg (-1) (-1) (flat 2) 3] 0.5
  = Some [].
Proof.
  apply (normalizePolarCutPath_nothing 0
           [mkSeg 0.25 0.25 (flat 1) 0; mkSeg (-1) (-1) (flat 2) 3] 0.5).
  repeat constructor.
Defined.

End Sweeping.

(** * app.ts: URL parameters *)
Module App.
Import Stdlib.Strings.String.
Import F64.
Local Open Scope float_scope.

Section Params.
(** [Number(v)] on a string, which the model leaves open. *)
Variable Number_of : string -> float.

(** [params.get(name)] is a string or null; [minval] and [maxval] may be
    null. *)
Definition numberParam (params : string -> option string) (name : string)
    (minval maxval : option float) (defval : float) : float :=
  match params name with
  | None => defval
  | Some v =>
      let v := Number_of v in
      if is_nan v then defval
      else
        match minval with
        | Some lo => if v <? lo then lo else
            match maxval with
            | Some hi => if hi <? v then hi else v
            | None => v
            end
        | None =>
            match maxval with
            | Some hi => if hi <? v then hi else v
            | None => v
            end
        end
  end.

(** With bounds [lo <= hi]: a missing parameter, or one that is not a number,
    gives the default; any other gives a value between the bounds, itself
    when it already lies between them. *)
Theorem numberParam_clamps (params : string -> option string) (name : string)
    (lo hi defval : float) :
  (lo <=? hi) = true ->
  let r := numberParam params name (Some lo) (Some hi) defval in
  match params name with
  | None => r = defval
  | Some s =>
      let v := Number_of s in
      if is_nan v then r = defval
      else (lo <=? r) = true /\ (r <=? hi) = true
           /\ ((lo <=? v) = true -> (v <=? hi) = true -> r = v)
  end.
Proof.
  intros Hle. cbv zeta. unfold numberParam.
  destruct (params name) as [s |]; [| reflexivity].
  destruct (is_nan (Number_of s)) eqn:En; [reflexivity |].
  rewrite is_nan_isNaN in En. set (v := Number_of s) in *.
  destruct (v <? lo) eqn:E1; [| destruct (hi <? v) eqn:E2].
  - repeat split; try fcmp; intros H1 H2; fcmp.
  - repeat split; try fcmp; intros H1 H2; fcmp.
  - repeat split; try fcmp; intros H1 H2; fcmp.
Qed.

End Params.

Lemma numberParam_clamps_witness :
  let params := fun _ : string => Some "45"%string in
  let Number_of := fun _ : string => 45 in
  let r := numberParam Number_of params "pa"%string (Some 10) (Some 30) 20 in
  (10 <=? r) = true /\ (r <=? 30) = true
  /\ ((10 <=? 45) = true -> (45 <=? 30) = true -> r = 45).
Proof.
  cbv zeta.
  apply (numberParam_clamps (fun _ => 45) (fun _ => Some "45"%string) "pa"%string 10 30 20).
  reflexivity.
Defined.

End App.

(** * dxf.ts: the extent of the drawing *)
Module Dxf.
Import F64.
Local Open Scope float_scope.

(** The four bounds of [class DxfRecorder]. *)
Record Extent : Type := mkExtent { minx : float; maxx : float; miny : float; maxy : float }.

(** [this.minx = this.miny = 0; this.maxx = this.maxy = 0] *)
Definition newExtent : Extent := mkExtent 0 0 0 0.

(** [includePoint]: each assignment reads the fields as the ones before it
    left them. *)
Definition includePoint (e : Extent) (x y : float) : Extent :=
  let minx' := Math_min (minx e) x in
  let miny' := Math_min minx' y in
  let maxx' := Math_max (maxx e) x in
  let maxy' := Math_max maxx' y in
  mkExtent minx' maxx' miny' maxy'.

Definition includePoints (e : Extent) (pts : list (float * float)) : Extent :=
  fold_left (fun e '(x, y) => includePoint e x y) pts e.

Definition noNaN (pt : float * float) : Prop :=
  isNaN (fst pt) = false /\ isNaN (snd pt) = false.

(** What [includePoint] keeps of an extent: no bound is NaN, the x bounds
    enclose 0 and [xs], and the y bounds lie outside the x bounds. *)
Definition encloses (e : Extent) (xs : list float) : Prop :=
  isNaN (minx e) = false /\ isNaN (maxx e) = false
  /\ isNaN (miny e) = false /\ isNaN (maxy e) = false
  /\ (ord (minx e) <= 0 <= ord (maxx e))%Z
  /\ (ord (miny e) <= ord (minx e))%Z /\ (ord (maxx e) <= ord (maxy e))%Z
  /\ Forall (fun x => (ord (minx e) <= ord x <= ord (maxx e))%Z) xs.

Lemma includePoint_encloses (e : Extent) (xs : list float) (x y : float) :
  noNaN (x, y) -> encloses e xs -> encloses (includePoint e x y) (x :: xs).
Proof.
  intros [Nx Ny] (N1 & N2 & N3 & N4 & H0 & Hy1 & Hy2 & Hall). cbn [fst snd] in Nx, Ny.
  unfold includePoint, encloses. cbv zeta. cbn [minx maxx miny maxy].
  destruct (Math_min_ord (minx e) x N1 Nx) as [M1 O1].
  destruct (Math_max_ord (maxx e) x N2 Nx) as [M2 O2].
  destruct (Math_min_ord (Math_min (minx e) x) y M1 Ny) as [M3 O3].
  destruct (Math_max_ord (Math_max (maxx e) x) y M2 Ny) as [M4 O4].
  rewrite O3, O4, O1, O2.
  repeat split; auto; try lia.
  constructor; [lia |]. eapply Forall_impl; [| exact Hall]. cbn. intros z Hz. lia.
Qed.

Lemma includePoints_encloses (pts : list (float * float)) :
  forall (e : Extent) (xs : list float),
    Forall noNaN pts -> encloses e xs ->
    encloses (includePoints e pts) (rev (map fst pts) ++ xs).
Proof.
  induction pts as [| [x y] pts IH]; intros e xs Hn He; [exact He |].
  inversion Hn as [| ? ? Hp Hrest]; subst.
  cbn [includePoints fold_left map rev fst]. rewrite <- app_assoc. cbn [app].
  apply (IH (includePoint e x y) (x :: xs) Hrest).
  now apply includePoint_encloses.
Qed.

(** From a new recorder, with no coordinate NaN: after any calls of
    [includePoint] the x bounds enclose 0 and the x of every point; the y
    bounds are taken from the x bounds and the last y alone, so [miny] is
    never above [minx] and [maxy] never below [maxx], wherever the points
    lie. *)
Theorem includePoints_extent (pts : list (float * float)) :
  Forall noNaN pts ->
  let e := includePoints newExtent pts in
  Forall (fun pt => (minx e <=? fst pt) = true /\ (fst pt <=? maxx e) = true) pts
  /\ (minx e <=? 0) = true /\ (0 <=? maxx e) = true
  /\ (miny e <=? minx e) = true /\ (maxx e <=? maxy e) = true.
Proof.
  intros Hn. cbv zeta.
  assert (H0 : encloses newExtent []).
  { unfold encloses, newExtent. cbn [minx maxx miny maxy].
    rewrite isNaN_zero, ord_zero. repeat split; auto; try lia. }
  pose proof (includePoints_encloses pts newExtent [] Hn H0) as H.
  rewrite app_nil_r in H.
  destruct H as (N1 & N2 & N3 & N4 & Hz & Hy1 & Hy2 & Hall).
  set (e := includePoints newExtent pts) in *.
  split; [| rewrite !leb_ord, N1, N2, N3, N4, isNaN_zero, ord_zero; cbn [negb orb andb];
            repeat split; apply Z.leb_le; lia].
  rewrite Forall_forall in *. intros [x y] Hin. cbn [fst].
  assert (Hx : In x (rev (map fst pts))).
  { apply in_rev. rewrite rev_involutive. apply in_map_iff. exists (x, y). auto. }
  specialize (Hall x Hx). destruct (Hn (x, y) Hin) as [Nx _]. cbn [fst] in Nx.
  rewrite !leb_ord, N1, N2, Nx. cbn [negb orb andb]. split; apply Z.leb_le; lia.
Qed.

Lemma includePoints_extent_witness :
  let pts := [(3, -5); (-2, 7)] in
  let e := includePoints newExtent pts in
  Forall (fun pt => (minx e <=? fst pt) = true /\ (fst pt <=? maxx e) = true) pts
  /\ (minx e <=? 0) = true /\ (0 <=? maxx e) = true
  /\ (miny e <=? minx e) = true /\ (maxx e <=? maxy e) = true.
Proof.
  cbv zeta. apply (includePoints_extent [(3, -5); (-2, 7)]).
  repeat constructor.
Defined.

(** After the points (3, -5) and then (-2, 7) the extent in y is [-2, 7]: the
    first point, at y = -5, lies outside it. *)
Example includePoints_loses_y :
  let e := includePoints newExtent [(3, -5); (-2, 7)] in
  miny e = -2 /\ maxy e = 7.
Proof. split; vm_compute; reflexivity. Qed.

End Dxf.

